(** * PathLite and its geometry helpers: a shallow embedding

    The JavaScript sources embedded here are [path-lite.js] (the [PathLite]
    class and the free functions on point lists), the scalar and array
    helpers ([clamp], [wrap], [range], [Array.prototype.at],
    [cumulativeSum], [indexInterpolated], ...) and the [Vector] class.

    JavaScript numbers are IEEE-754 doubles.  Every function is written once,
    over an interface [Num] of the arithmetic the sources use, and the
    interface has two instances:
    - [binary64], Rocq's primitive floats, which are exactly the doubles of
      the JavaScript engine; concrete scenarios are evaluated on it;
    - [exact], the real numbers, i.e. the "real-valued components" of the data
      model with exact arithmetic; geometric facts are proved on it.
    Array indices, lengths and loop counters are integers.  *)

From Stdlib Require Import String Ascii.
From Stdlib Require Import ZArith List Bool Lia Sorted Permutation.
From Stdlib Require Import Floats.
From Stdlib Require Import Reals Lra.
Import ListNotations.

Set Implicit Arguments.

(* ------------------------------------------------------------------ *)
(** ** Numbers *)

Class Num (num : Type) : Type := {
  ofZ   : Z -> num;                 (* an integer literal / an integer value *)
  nadd  : num -> num -> num;
  nsub  : num -> num -> num;
  nmul  : num -> num -> num;
  ndiv  : num -> num -> num;
  nsqrt : num -> num;               (* Math.sqrt *)
  nabs  : num -> num;               (* Math.abs *)
  neqb  : num -> num -> bool;       (* == on numbers *)
  nltb  : num -> num -> bool;       (* <  *)
  nleb  : num -> num -> bool;       (* <= *)
  nfloor : num -> Z;                (* Math.floor, on finite numbers *)
  nceil  : num -> Z;                (* Math.ceil, on finite numbers *)
  nmod  : num -> num -> num         (* the % operator *)
}.

Declare Scope num_scope.
Delimit Scope num_scope with num.
Infix "+" := nadd : num_scope.
Infix "-" := nsub : num_scope.
Infix "*" := nmul : num_scope.
Infix "/" := ndiv : num_scope.
Infix "==" := neqb (at level 70, no associativity) : num_scope.
Infix "<?" := nltb : num_scope.
Infix "<=?" := nleb : num_scope.

(** The transcendental functions of [Math] (only the exact instance has
    them). *)
Class Trig (num : Type) : Type := {
  nPI   : num;
  nsin  : num -> num;
  ncos  : num -> num;
  nacos : num -> num;
  natan2 : num -> num -> num
}.

(** JavaScript's exceptions, as far as the embedded code can raise them. *)
Inductive JSError : Type := RangeError | TypeError.

Inductive outcome (A : Type) : Type :=
| Ret (a : A)
| Throw (e : JSError).
Arguments Ret {A} a.
Arguments Throw {A} e.

Definition obind {A B} (m : outcome A) (k : A -> outcome B) : outcome B :=
  match m with
  | Ret a => k a
  | Throw e => Throw e
  end.

Section Scalars.
Context {num : Type} {N : Num num}.
Local Open Scope num_scope.

Definition n0 : num := ofZ 0.
Definition n1 : num := ofZ 1.

(** [Number.EPSILON], 2^-52. *)
Definition EPSILON : num := n1 / ofZ (2 ^ 52).

Definition isNaN (a : num) : bool := negb (a == a).

(** [Number.isFinite]: a finite number is the one with [a - a == 0]. *)
Definition isFinite (a : num) : bool := (a - a) == n0.

(** [a || 0] on a number: the falsy numbers are 0 and NaN. *)
Definition or0 (a : num) : num :=
  if (a == a) && negb (a == n0) then a else n0.

(** [Math.min] and [Math.max] of two numbers (signed zeros are not told
    apart). *)
Definition nmin (a b : num) : num :=
  if isNaN a then a else if isNaN b then b else if b <? a then b else a.
Definition nmax (a b : num) : num :=
  if isNaN a then a else if isNaN b then b else if a <? b then b else a.

(** [var clamp = (a, l = 0, h = 1) => { if (h < l) [l, h] = [h, l];
    return Math.max(Math.min(a, h), l) }] *)
Definition clamp (a l h : num) : num :=
  let '(l, h) := if h <? l then (h, l) else (l, h) in
  nmax (nmin a h) l.

Definition clamp01 (a : num) : num := clamp a n0 n1.

(** [var safeDivide = (a, b) => b < Number.EPSILON ? 0 : a / b] *)
Definition safeDivide (a b : num) : num :=
  if b <? EPSILON then n0 else a / b.

(** [var noNAN = (a, d = 0) => Number.isNaN(a) ? d : a] *)
Definition noNAN (a : num) : num := if isNaN a then n0 else a.

(** [var wrap = (a, r) => (a + Math.ceil(Math.abs(a / r)) * r) % r] *)
Definition wrap (a r : num) : num :=
  nmod (a + ofZ (nceil (nabs (a / r))) * r) r.

(** [Math.sign] *)
Definition sign (a : num) : num :=
  if n0 <? a then n1 else if a <? n0 then ofZ (-1) else a.

(** [Array.prototype.sum] and [cumulativeSum], both through
    [reduceArray], whose initial value is 0. *)
Definition sum (l : list num) : num := fold_left nadd l n0.

Fixpoint cumulativeSum_from (p : num) (l : list num) : list num :=
  match l with
  | [] => []
  | c :: t => (p + c) :: cumulativeSum_from (p + c) t
  end.
Definition cumulativeSum (l : list num) : list num :=
  cumulativeSum_from n0 l.

(** [Array.prototype.indexInterpolated]:
    [let i = 0; let l = _.length;
     while ((i + 2) < l && _[i + 1] < v) i++;
     return l < 2 ? 0 : i + clamp((v - _[i]) / (_[i + 1] - _[i]))].
    The loop stops within [l] steps. *)
Fixpoint indexInterpolated_loop (fuel : nat) (arr : list num) (v : num)
         (i : nat) : nat :=
  match fuel with
  | O => i
  | S fuel' =>
      if (i + 2 <? length arr)%nat && (nth (i + 1) arr n0 <? v)
      then indexInterpolated_loop fuel' arr v (S i)
      else i
  end.

Definition indexInterpolated (arr : list num) (v : num) : num :=
  let i := indexInterpolated_loop (length arr) arr v 0 in
  if (length arr <? 2)%nat then n0
  else ofZ (Z.of_nat i)
       + clamp01 ((v - nth i arr n0) / (nth (i + 1) arr n0 - nth i arr n0)).

End Scalars.

(* ------------------------------------------------------------------ *)
(** ** Arrays *)

Section Arrays.
Context {A : Type}.

(** [wrap] at an integer index [a] for a positive length [r]:
    [Math.ceil(Math.abs(a / r))] is the ceiling of |a| / r, and [%] is the
    truncating remainder. *)
Definition wrapIndex (a r : Z) : Z :=
  Z.rem (a + (- ((- Z.abs a) / r)) * r) r.

(** [Array.prototype.at = function (v) { let l = _.length;
    return l == 0 ? null : _[wrap(parseInt(v), l)] }]: circular indexing;
    [None] is [null]. *)
Definition at_ (l : list A) (v : Z) : option A :=
  match l with
  | [] => None
  | _ => nth_error l (Z.to_nat (wrapIndex v (Z.of_nat (length l))))
  end.

(** [a.map((x, i) => f(x, i))] *)
Fixpoint mapi_from (i : Z) {B} (f : A -> Z -> B) (l : list A) : list B :=
  match l with
  | [] => []
  | a :: t => f a i :: mapi_from (i + 1) f t
  end.
Definition mapi {B} (f : A -> Z -> B) (l : list A) : list B :=
  mapi_from 0 f l.

(** [Array.prototype.sort(compare)], a stable sort: [a] goes after [b]
    exactly when [compare(a, b) > 0]. *)
Fixpoint sort_insert (gt : A -> A -> bool) (a : A) (l : list A) : list A :=
  match l with
  | [] => [a]
  | b :: t => if gt a b then b :: sort_insert gt a t else a :: b :: t
  end.
Definition sortBy (gt : A -> A -> bool) (l : list A) : list A :=
  fold_right (sort_insert gt) [] l.

End Arrays.

(** [range(n)]: [Array(n)] raises RangeError for a negative length. *)
Definition range (n : Z) : outcome (list Z) :=
  if (n <? 0)%Z then Throw RangeError
  else Ret (map Z.of_nat (seq 0 (Z.to_nat n))).

(** An array element that is read through a [null] raises TypeError. *)
Definition deref {A} (o : option A) : outcome A :=
  match o with
  | Some a => Ret a
  | None => Throw TypeError
  end.

(** [l.map(f)] for an [f] that can throw. *)
Fixpoint mapM {A B} (f : A -> outcome B) (l : list A) : outcome (list B) :=
  match l with
  | [] => Ret []
  | a :: t => obind (f a) (fun b => obind (mapM f t) (fun bs => Ret (b :: bs)))
  end.

(* ------------------------------------------------------------------ *)
(** ** The Vector class

    Every operation returns a fresh vector and leaves its operands
    unchanged, so a vector is a value here. *)

Record Vec (num : Type) : Type := mkVec { vx : num; vy : num; vz : num }.
Arguments mkVec {num} vx vy vz.
Arguments vx {num} v.
Arguments vy {num} v.
Arguments vz {num} v.

(** A point-like argument: a [Vector], or a flat list of coordinates. *)
Inductive PointLike (num : Type) : Type :=
| PVec (v : Vec num)
| PArr (coords : list num).
Arguments PVec {num} v.
Arguments PArr {num} coords.

Section Vector.
Context {num : Type} {N : Num num}.
Local Open Scope num_scope.

(** [constructor(x, y, z) { this.x = x || 0; this.y = y || 0;
    this.z = z || 0 }] *)
Definition Vector (x y z : num) : Vec num := mkVec (or0 x) (or0 y) (or0 z).

(** [new Vector()] *)
Definition Vector0 : Vec num := Vector n0 n0 n0.

(** [new Vector(...i)] for an array [i]: a missing coordinate is
    [undefined], which [|| 0] turns into 0. *)
Definition Vector_of_array (i : list num) : Vec num :=
  Vector (nth 0 i n0) (nth 1 i n0) (nth 2 i n0).

(** One character of a [copy] pattern. *)
Definition component (v : Vec num) (c : ascii) : num :=
  if (Ascii.eqb c "x" || Ascii.eqb c "X")%bool then vx v
  else if (Ascii.eqb c "y" || Ascii.eqb c "Y")%bool then vy v
  else if (Ascii.eqb c "z" || Ascii.eqb c "Z")%bool then vz v
  else n0.

(** [copy(pattern = null)]: a [null] or empty pattern copies the vector;
    otherwise the first three characters of the pattern select the
    components. *)
Definition copy (v : Vec num) (pattern : option string) : Vec num :=
  match pattern with
  | None | Some EmptyString => Vector (vx v) (vy v) (vz v)
  | Some p =>
      Vector_of_array
        (map (component v) (firstn 3 (list_ascii_of_string p)))
  end.

Definition copy_ (v : Vec num) : Vec num := copy v None.

(** [add(x)], [sub(x)] with a Vector argument. *)
Definition vadd (a b : Vec num) : Vec num :=
  let r := copy_ a in
  mkVec (vx r + or0 (vx b)) (vy r + or0 (vy b)) (vz r + or0 (vz b)).

Definition vsub (a b : Vec num) : Vec num :=
  let r := copy_ a in
  mkVec (vx r - or0 (vx b)) (vy r - or0 (vy b)) (vz r - or0 (vz b)).

(** [mult(x)] with one numeric argument: a non-finite factor leaves the
    copy as it is. *)
Definition vmult (a : Vec num) (s : num) : Vec num :=
  let r := copy_ a in
  if isFinite s then mkVec (vx r * s) (vy r * s) (vz r * s) else r.

Definition magSq (a : Vec num) : num := vx a * vx a + vy a * vy a + vz a * vz a.

(** [mag()] *)
Definition mag (a : Vec num) : num := nsqrt (magSq a).

(** [dot(x)] with a Vector argument *)
Definition dot (a b : Vec num) : num :=
  vx a * or0 (vx b) + vy a * or0 (vy b) + vz a * or0 (vz b).

(** [cross(v)] *)
Definition cross (a v : Vec num) : Vec num :=
  Vector (vy a * vz v - vz a * vy v)
         (vz a * vx v - vx a * vz v)
         (vx a * vy v - vy a * vx v).

(** [dist(v, pattern = null) { return v.copy(pattern)
    .sub(this.copy(pattern)).mag() }] *)
Definition dist (a v : Vec num) (pattern : option string) : num :=
  mag (vsub (copy v pattern) (copy a pattern)).

(** [normalize() { const len = this.mag(); let result = this.copy();
    if (len !== 0) result = result.mult(1 / len); return result }] *)
Definition normalize (a : Vec num) : Vec num :=
  let len := mag a in
  let result := copy_ a in
  if negb (len == n0) then vmult result (n1 / len) else result.

Definition norm (a : Vec num) : Vec num := normalize a.

(** [mag(n)]: [this.copy().normalize().mult(n)] *)
Definition setMag (a : Vec num) (n : num) : Vec num :=
  vmult (normalize (copy_ a)) n.

(** [lerp(x, amt)] with a Vector argument:
    [result.x += (x - result.x) * amt || 0] on each component. *)
Definition lerp (a b : Vec num) (amt : num) : Vec num :=
  let r := copy_ a in
  mkVec (vx r + or0 ((vx b - vx r) * amt))
        (vy r + or0 ((vy b - vy r) * amt))
        (vz r + or0 ((vz b - vz r) * amt)).

(** [set(x)] with a Vector argument, on a fresh copy: the components of
    [x], each through [|| 0]. *)
Definition vset (x : Vec num) : Vec num := mkVec (or0 (vx x)) (or0 (vy x)) (or0 (vz x)).

(** [project(b, r = 0) { let _ = this.copy();
    let j = b.norm().mag(b.norm().dot(_));
    return _.set(r ? (_.sub(j)) : j) }] *)
Definition project (a b : Vec num) (r : bool) : Vec num :=
  let c := copy_ a in
  let j := setMag (norm b) (dot (norm b) c) in
  vset (if r then vsub c j else j).

(** An incoming vertex: [i instanceof Vector ? i.copy() : new Vector(...i)] *)
Definition toVector (p : PointLike num) : Vec num :=
  match p with
  | PVec v => copy_ v
  | PArr i => Vector_of_array i
  end.

End Vector.

Section VectorTrig.
Context {num : Type} {N : Num num} {T : Trig num}.
Local Open Scope num_scope.

(** [heading()]: [Math.atan2(this.y, this.x)] *)
Definition heading (a : Vec num) : num := natan2 (vy a) (vx a).

(** [fromAngle(angle)], with the default length 1 *)
Definition fromAngle (angle : num) : Vec num :=
  Vector (n1 * ncos angle) (n1 * nsin angle) n0.

(** [c || 1] on a number *)
Definition or1 (c : num) : num :=
  if (c == c) && negb (c == n0) then c else n1.

(** [_angleBetween(v)]: [Math.acos(Math.min(1, Math.max(-1, dotmagmag)))
    * Math.sign(this.cross(v).z || 1)] *)
Definition angleBetween_ (a v : Vec num) : num :=
  let dotmagmag := dot a v / (mag a * mag v) in
  let angle := nacos (nmin n1 (nmax (ofZ (-1)) dotmagmag)) in
  angle * sign (or1 (vz (cross a v))).

(** [angleBetween(a)]: 0 when either vector has (almost) no length. *)
Definition angleBetween (a v : Vec num) : num :=
  if (EPSILON <? mag a) && (EPSILON <? mag v) then angleBetween_ a v
  else n0.

End VectorTrig.

(* ------------------------------------------------------------------ *)
(** ** Free functions on point lists *)

(** The object [queryPointToSegmentOV] returns, with the [index] and
    [offset] that [getNearestLocation] adds to it ([offset] is [None] until
    then). *)
Record CurveLocation (num : Type) : Type := mkLoc {
  point : Vec num;
  distance : num;
  index : Z;
  offset : option num
}.
Arguments mkLoc {num} point distance index offset.
Arguments point {num} c.
Arguments distance {num} c.
Arguments index {num} c.
Arguments offset {num} c.

Section PointLists.
Context {num : Type} {N : Num num}.
Local Open Scope num_scope.

(** [calcPathLength(samples, closed, returnAll = true, distPattern)]:
    [(closed ? samples : [...samples].splice(0, samples.length - 1))
      .map((sample, sampleIndex) =>
         sample.dist(samples.at(sampleIndex + 1), distPattern))],
    and its sum.  Inside [map] the list is not empty, so [at] is not
    [null]. *)
Definition segmentLengths (samples : list (Vec num)) (closed : bool)
           (distPattern : option string) : list num :=
  mapi (fun sample sampleIndex =>
          match at_ samples (sampleIndex + 1) with
          | Some next => dist sample next distPattern
          | None => n0
          end)
       (if closed then samples else firstn (length samples - 1) samples).

Definition calcPathLength (samples : list (Vec num)) (closed : bool)
           (distPattern : option string) : num * list num :=
  let allLengths := segmentLengths samples closed distPattern in
  (sum allLengths, allLengths).

(** [removeDupPointsFromPath(samples, closed)] *)
Definition removeDup_step (samplesNonDup : list (Vec num)) (s : Vec num)
  : list (Vec num) :=
  match at_ samplesNonDup (-1) with
  | None => samplesNonDup ++ [s]                 (* length == 0 *)
  | Some l =>
      if EPSILON <? dist s l None then samplesNonDup ++ [s]
      else samplesNonDup
  end.

Definition removeDupPointsFromPath (samples : list (Vec num))
           (closed : bool) : list (Vec num) :=
  let samplesNonDup := fold_left removeDup_step samples [] in
  if closed && (2 <=? length samplesNonDup)%nat then
    match at_ samplesNonDup 0, at_ samplesNonDup (-1) with
    | Some first, Some l =>
        if dist first l None <=? EPSILON then removelast samplesNonDup
        else samplesNonDup
    | _, _ => samplesNonDup
    end
  else samplesNonDup.

(** [removeColinearPointsFromPath(samples, closed)]: every test reads the
    neighbours in [samples], the list that came in. *)
Definition isColinearAt (samples : list (Vec num)) (sample : Vec num)
           (idx : Z) : bool :=
  match at_ samples (idx - 1), at_ samples (idx + 1) with
  | Some lo, Some hi =>
      let loDir := norm (vsub sample lo) in
      let hiDir := norm (vsub hi sample) in
      negb (EPSILON <? nabs (dot loDir hiDir - n1))
  | _, _ => false
  end.

Definition removeColinearPointsFromPath (samples : list (Vec num))
           (closed : bool) : list (Vec num) :=
  concat
    (mapi (fun sample idx =>
             if negb closed
                && ((idx =? 0)%Z || (idx =? Z.of_nat (length samples) - 1)%Z)
             then [copy_ sample]
             else if isColinearAt samples sample idx then []
                  else [copy_ sample])
          samples).

(** [projectPointToSegment] and [queryPointToSegmentOV] share the test
    "the point projects inside the segment". *)
Definition projectsInside (p segmentOrigin segmentVector : Vec num) : bool :=
  ((n0 - EPSILON) <=? dot (vsub p segmentOrigin) segmentVector)
  && ((n0 - EPSILON)
        <=? dot (vsub p (vadd segmentOrigin segmentVector))
                (vmult segmentVector (ofZ (-1)))).

(** [projectPointToSegment(point, segmentOrigin, segmentVector)] *)
Definition projectPointToSegment (p segmentOrigin segmentVector : Vec num)
  : option num :=
  if projectsInside p segmentOrigin segmentVector
  then Some (mag (project (vsub p segmentOrigin) segmentVector true))
  else None.

(** [queryPointToSegmentOV(point, segmentOrigin, segmentVector)]: the
    [point] and [distance] of the location. *)
Definition queryPointToSegmentOV (p segmentOrigin segmentVector : Vec num)
  : Vec num * num :=
  if projectsInside p segmentOrigin segmentVector then
    let q := vadd (project (vsub p segmentOrigin) segmentVector false)
                  segmentOrigin in
    (q, dist p q None)
  else
    let ends := map (fun i => (i, dist p i None))
                    [copy_ segmentOrigin; vadd segmentOrigin segmentVector] in
    match sortBy (fun a b => n0 <? (snd a - snd b)) ends with
    | e :: _ => e
    | [] => (copy_ segmentOrigin, n0)
    end.

(** [queryPointToSegmentAB(point, segmentStart, segmentEnd)] *)
Definition queryPointToSegmentAB (p segmentStart segmentEnd : Vec num)
  : Vec num * num :=
  queryPointToSegmentOV p segmentStart (vsub segmentEnd segmentStart).

(** [pointOnSegment(p, q, r)] *)
Definition pointOnSegment (p q r : Vec num) : bool :=
  (vx q <=? nmax (vx p) (vx r)) && (nmin (vx p) (vx r) <=? vx q)
  && (vy q <=? nmax (vy p) (vy r)) && (nmin (vy p) (vy r) <=? vy q).

(** [tripletOrientation(p, q, r)]: 0 colinear, 1 clockwise,
    2 counterclockwise. *)
Definition tripletOrientation (p q r : Vec num) : Z :=
  let val := (vy q - vy p) * (vx r - vx q) - (vx q - vx p) * (vy r - vy q) in
  if val == n0 then 0%Z
  else if n0 <? val then 1%Z
  else 2%Z.

(** [segmentsIntersect(p1, q1, p2, q2)] *)
Definition segmentsIntersect (p1 q1 p2 q2 : Vec num) : Z :=
  let o1 := tripletOrientation p1 q1 p2 in
  let o2 := tripletOrientation p1 q1 q2 in
  let o3 := tripletOrientation p2 q2 p1 in
  let o4 := tripletOrientation p2 q2 q1 in
  if negb (o1 =? o2)%Z && negb (o3 =? o4)%Z then 1%Z
  else if ((o1 =? 0)%Z && pointOnSegment p1 p2 q1)
          || ((o2 =? 0)%Z && pointOnSegment p1 q2 q1)
          || ((o3 =? 0)%Z && pointOnSegment p2 p1 q2)
          || ((o4 =? 0)%Z && pointOnSegment p2 q1 q2)
       then 0%Z
       else (-1)%Z.

End PointLists.

(* ------------------------------------------------------------------ *)
(** ** The PathLite class

    The object's fields.  [_vertices], [_length], [_length_segments] and
    [_length_segments_cumulative] are unset or [null] until the first
    clean-up; the constructor leaves both dirty flags set, so their initial
    content is never read. *)

Record PathLite (num : Type) : Type := mkPath {
  _vertices_original : list (Vec num);
  _vertices : list (Vec num);
  _vertices_dirty : bool;
  _closed : bool;
  _use_z : bool;
  _length_metric : option string;
  _length : num;
  _length_segments : list num;
  _length_segments_cumulative : list num;
  _length_dirty : bool
}.
Arguments mkPath {num}.
Arguments _vertices_original {num} p.
Arguments _vertices {num} p.
Arguments _vertices_dirty {num} p.
Arguments _closed {num} p.
Arguments _use_z {num} p.
Arguments _length_metric {num} p.
Arguments _length {num} p.
Arguments _length_segments {num} p.
Arguments _length_segments_cumulative {num} p.
Arguments _length_dirty {num} p.

Section PathLiteClass.
Context {num : Type} {N : Num num}.
Local Open Scope num_scope.

(** [_flagLengthDirty() { this._length_dirty = true }] *)
Definition _flagLengthDirty (p : PathLite num) : PathLite num :=
  mkPath (_vertices_original p) (_vertices p) (_vertices_dirty p)
         (_closed p) (_use_z p) (_length_metric p)
         (_length p) (_length_segments p) (_length_segments_cumulative p)
         true.

(** [_flagVerticesDirty() { this._vertices_dirty = true;
    this._flagLengthDirty() }] *)
Definition _flagVerticesDirty (p : PathLite num) : PathLite num :=
  _flagLengthDirty
    (mkPath (_vertices_original p) (_vertices p) true
            (_closed p) (_use_z p) (_length_metric p)
            (_length p) (_length_segments p)
            (_length_segments_cumulative p) (_length_dirty p)).

(** [set closed(value)] *)
Definition set_closed (value : bool) (p : PathLite num) : PathLite num :=
  _flagLengthDirty
    (mkPath (_vertices_original p) (_vertices p) (_vertices_dirty p)
            value (_use_z p) (_length_metric p)
            (_length p) (_length_segments p)
            (_length_segments_cumulative p) (_length_dirty p)).

(** [set useZ(value)] *)
Definition set_useZ (value : bool) (p : PathLite num) : PathLite num :=
  _flagVerticesDirty
    (mkPath (_vertices_original p) (_vertices p) (_vertices_dirty p)
            (_closed p) value (_length_metric p)
            (_length p) (_length_segments p)
            (_length_segments_cumulative p) (_length_dirty p)).

(** [set lengthMetric(value)] *)
Definition set_lengthMetric (value : option string) (p : PathLite num) : PathLite num :=
  _flagLengthDirty
    (mkPath (_vertices_original p) (_vertices p) (_vertices_dirty p)
            (_closed p) (_use_z p) value
            (_length p) (_length_segments p)
            (_length_segments_cumulative p) (_length_dirty p)).

(** [set vertices(value) { this._vertices_original = value.map(i =>
    i instanceof Vector ? i.copy() : new Vector(...i));
    this._flagVerticesDirty() }] *)
Definition set_vertices (value : list (PointLike num)) (p : PathLite num) : PathLite num :=
  _flagVerticesDirty
    (mkPath (map toVector value) (_vertices p) (_vertices_dirty p)
            (_closed p) (_use_z p) (_length_metric p)
            (_length p) (_length_segments p)
            (_length_segments_cumulative p) (_length_dirty p)).

(** [constructor(vertices = [])] *)
Definition new_PathLite (vertices : list (PointLike num)) : PathLite num :=
  set_vertices vertices
    (mkPath [] [] false false false None n0 [] [] false).

(** The working copy of one vertex:
    [this.useZ ? i.copy() : i.copy().copy('xy')] *)
Definition workingCopy (useZ : bool) (i : Vec num) : Vec num :=
  if useZ then copy_ i else copy (copy_ i) (Some "xy"%string).

(** [_cleanVertices()] *)
Definition _cleanVertices (p : PathLite num) : PathLite num :=
  if _vertices_dirty p then
    mkPath (_vertices_original p)
           (map (workingCopy (_use_z p)) (_vertices_original p))
           false
           (_closed p) (_use_z p) (_length_metric p)
           (_length p) (_length_segments p)
           (_length_segments_cumulative p) (_length_dirty p)
  else p.

(** [get vertices() { this._cleanVertices(); return this._vertices }] *)
Definition get_vertices (p : PathLite num) : list (Vec num) * PathLite num :=
  let p := _cleanVertices p in (_vertices p, p).

(** [_cleanLength()] *)
Definition _cleanLength (p : PathLite num) : PathLite num :=
  if _length_dirty p then
    let '(vs, p) := get_vertices p in
    let '(len, segs) := calcPathLength vs (_closed p) (_length_metric p) in
    mkPath (_vertices_original p) (_vertices p) (_vertices_dirty p)
           (_closed p) (_use_z p) (_length_metric p)
           len segs (cumulativeSum segs) false
  else p.

(** [get length() { this._cleanLength(); return this._length }] *)
Definition get_length (p : PathLite num) : num * PathLite num :=
  let p := _cleanLength p in (_length p, p).

(** [get _nSegments() { return this.vertices.length -
    (this.closed ? 0 : 1) }] *)
Definition get_nSegments (p : PathLite num) : Z * PathLite num :=
  let '(vs, p) := get_vertices p in
  ((Z.of_nat (length vs) - (if _closed p then 0 else 1))%Z, p).

(** [get offsets() { this._cleanLength();
    return [0].concat([...this._length_segments_cumulative])
      .splice(0, this.vertices.length) }] *)
Definition get_offsets (p : PathLite num) : list num * PathLite num :=
  let p := _cleanLength p in
  let '(vs, p) := get_vertices p in
  (firstn (length vs) (n0 :: _length_segments_cumulative p), p).

(** The comparison of [getNearestLocation]'s sort: by distance first,
    then by index. *)
Definition locationAfter (a b : CurveLocation num) : bool :=
  if distance a == distance b then (0 <? index a - index b)%Z
  else n0 <? (distance a - distance b).

(** The query point of [getNearestLocation(...point)]:
    [point.at(0) instanceof Vector ? point.at(0)
     : new Vector(...point.flat())] *)
Definition pointArg (pt : PointLike num) : Vec num :=
  match pt with
  | PVec v => v
  | PArr c => Vector_of_array c
  end.

(** [getNearestLocation(...point)] *)
Definition getNearestLocation (pt : PointLike num) (p : PathLite num)
  : outcome (option (CurveLocation num)) * PathLite num :=
  let pt := pointArg pt in
  let '(nSegments, p) := get_nSegments p in
  let '(vs, p) := get_vertices p in
  match obind (range nSegments)
              (mapM (fun i =>
                       obind (deref (at_ vs i)) (fun a =>
                       obind (deref (at_ vs (i + 1))) (fun b =>
                       let '(q, d) := queryPointToSegmentAB pt a b in
                       Ret (mkLoc q d i None)))))
  with
  | Throw e => (Throw e, p)
  | Ret locations =>
      match at_ (sortBy locationAfter locations) 0 with
      | None => (Ret None, p)
      | Some curveLocation =>
          let p := _cleanLength p in
          let '(vs, p) := get_vertices p in
          let '(len, p) := get_length p in
          match at_ (n0 :: _length_segments_cumulative p)
                    (index curveLocation),
                nth_error vs (Z.to_nat (index curveLocation)) with
          | Some o, Some v =>
              (Ret (Some (mkLoc (point curveLocation)
                                (distance curveLocation)
                                (index curveLocation)
                                (Some (clamp (o + dist (point curveLocation)
                                                       v None)
                                             n0 len)))), p)
          | _, _ => (Throw TypeError, p)
          end
      end
  end.

(** [_getIndexInterpolatedAt(offset)] *)
Definition _getIndexInterpolatedAt (off : num) (p : PathLite num) : num * PathLite num :=
  let p := _cleanLength p in
  let '(len, p) := get_length p in
  let off := clamp off n0 len in
  let '(nSegments, p) := get_nSegments p in
  let ii := clamp (indexInterpolated (n0 :: _length_segments_cumulative p) off)
                  n0 (ofZ nSegments) in
  if _closed p then
    let '(nSegments, p) := get_nSegments p in (nmod ii (ofZ nSegments), p)
  else (ii, p).

(** [getPointAt(offset)] *)
Definition getPointAt (off : num) (p : PathLite num) : outcome (Vec num) * PathLite num :=
  let '(ii, p) := _getIndexInterpolatedAt off p in
  let lo := nfloor ii in
  let hi := nceil ii in
  let param := ii - ofZ lo in
  let '(vs, p) := get_vertices p in
  (obind (deref (at_ vs lo)) (fun a =>
   obind (deref (at_ vs hi)) (fun b =>
   Ret (lerp a b param))), p).

(** [_removeDuplicateVertices()], [_removeColinearVertices()]: the list
    the free function returns goes back in through the [vertices]
    setter. *)
Definition _removeDuplicateVertices (p : PathLite num) : PathLite num :=
  let '(vs, p) := get_vertices p in
  set_vertices (map PVec (removeDupPointsFromPath vs (_closed p))) p.

Definition _removeColinearVertices (p : PathLite num) : PathLite num :=
  let '(vs, p) := get_vertices p in
  set_vertices (map PVec (removeColinearPointsFromPath vs (_closed p))) p.

(** [reduce() { this._removeDuplicateVertices();
    this._removeColinearVertices(); return this }] *)
Definition reduce (p : PathLite num) : PathLite num :=
  _removeColinearVertices (_removeDuplicateVertices p).

(** [clearVertices() { this.vertices = [] }] *)
Definition clearVertices (p : PathLite num) : PathLite num := set_vertices [] p.

End PathLiteClass.

(* ------------------------------------------------------------------ *)
(** ** The two number instances *)

(** *** IEEE-754 doubles *)

Module Binary64.

(** The integer part of a finite double, rounded down or up; 0 for NaN
    and the infinities. *)
Definition floorZ (f : float) : Z :=
  match Prim2SF f with
  | S754_finite s m e =>
      let v := if s then Z.neg m else Z.pos m in
      if (0 <=? e)%Z then (v * 2 ^ e)%Z else (v / 2 ^ (- e))%Z
  | _ => 0%Z
  end.

Definition ceilZ (f : float) : Z := (- floorZ (PrimFloat.opp f))%Z.

(** An integer as a double (exact below 2^53). *)
Definition of_Z (z : Z) : float :=
  match z with
  | Z0 => PrimFloat.zero
  | Zpos m => SF2Prim (S754_finite false m 0)
  | Zneg m => SF2Prim (S754_finite true m 0)
  end.

(** The [%] operator: the exact remainder of the truncating division,
    with the sign of the dividend. *)
Definition fmod (a b : float) : float :=
  match Prim2SF a, Prim2SF b with
  | S754_finite sa ma ea, S754_finite _ mb eb =>
      let e := Z.min ea eb in
      let r := Z.rem (Z.pos ma * 2 ^ (ea - e)) (Z.pos mb * 2 ^ (eb - e)) in
      match r with
      | Zpos m => SF2Prim (S754_finite sa m e)
      | _ => if sa then PrimFloat.neg_zero else PrimFloat.zero
      end
  | S754_zero _, S754_finite _ _ _ => a
  | S754_zero _, S754_infinity _ => a
  | S754_finite _ _ _, S754_infinity _ => a
  | _, _ => PrimFloat.nan
  end.

#[global] Instance binary64 : Num float := {|
  ofZ := of_Z;
  nadd := PrimFloat.add;
  nsub := PrimFloat.sub;
  nmul := PrimFloat.mul;
  ndiv := PrimFloat.div;
  nsqrt := PrimFloat.sqrt;
  nabs := PrimFloat.abs;
  neqb := PrimFloat.eqb;
  nltb := PrimFloat.ltb;
  nleb := PrimFloat.leb;
  nfloor := floorZ;
  nceil := ceilZ;
  nmod := fmod
|}.

(** A point of the plane with integer coordinates. *)
Definition pt (x y : Z) : PointLike float := PArr [of_Z x; of_Z y].

End Binary64.

(** *** Exact arithmetic on the real numbers *)

Module Exact.

Definition Reqb (a b : R) : bool := if Req_dec_T a b then true else false.
Definition Rltb (a b : R) : bool := if Rlt_dec a b then true else false.
Definition Rleb (a b : R) : bool := if Rle_dec a b then true else false.

(** [Math.floor], [Math.ceil] *)
Definition Rfloor (a : R) : Z := Int_part a.
Definition Rceil (a : R) : Z := (- Int_part (- a))%Z.

(** [a % b]: [a - b * trunc(a / b)] *)
Definition Rmod (a b : R) : R :=
  let t := (a / b)%R in
  (a - b * IZR (if Rle_dec 0 t then Rfloor t else Rceil t))%R.

#[global] Instance exact : Num R := {|
  ofZ := IZR;
  nadd := Rplus;
  nsub := Rminus;
  nmul := Rmult;
  ndiv := Rdiv;
  nsqrt := sqrt;
  nabs := Rabs;
  neqb := Reqb;
  nltb := Rltb;
  nleb := Rleb;
  nfloor := Rfloor;
  nceil := Rceil;
  nmod := Rmod
|}.

(** [Math.atan2(y, x)] *)
Definition Ratan2 (y x : R) : R :=
  if Rlt_dec 0 x then atan (y / x)
  else if Rlt_dec x 0 then
         if Rle_dec 0 y then (atan (y / x) + PI)%R else (atan (y / x) - PI)%R
       else if Rlt_dec 0 y then (PI / 2)%R
            else if Rlt_dec y 0 then (- (PI / 2))%R
                 else 0%R.

#[global] Instance exactTrig : Trig R := {|
  nPI := PI;
  nsin := sin;
  ncos := cos;
  nacos := acos;
  natan2 := Ratan2
|}.

(** A point of the plane with integer coordinates. *)
Definition pt (x y : Z) : Vec R := mkVec (IZR x) (IZR y) 0%R.

End Exact.

(* ------------------------------------------------------------------ *)
(** ** Smoothing and the convex-hull walk *)

Section Transforms.
Context {num : Type} {N : Num num} {T : Trig num}.
Local Open Scope num_scope.

(** [var minmax = (...a) => [Math.min(...a), Math.max(...a)]], for two
    arguments *)
Definition minmax (a b : num) : num * num := (nmin a b, nmax a b).

(** [mapValue(n, start1, stop1, start2, stop2, withinBounds = true)] *)
Definition mapValue (n start1 stop1 start2 stop2 : num) : num :=
  let newval := (n - start1) / (stop1 - start1) * (stop2 - start2) + start2 in
  let '(l, h) := minmax start2 stop2 in
  clamp newval l h.

(** [logistic(_a, lo = 0, hi = 1)] *)
Definition logistic (a_ : num) : num :=
  let a := mapValue a_ n0 n1 n0 n1 in
  if a <=? n0 then n0
  else if n1 <=? a then n1
       else (n1 - ncos (nPI * a)) / ofZ 2.

(** [[[0], range(radius).map(r => [-(r+1), r+1])].flat(2)] *)
Definition indexOffsets (radius : Z) : outcome (list Z) :=
  obind (range radius) (fun rs =>
  Ret (0%Z :: concat (map (fun r => [(- (r + 1))%Z; (r + 1)%Z]) rs))).

(** [indexOffsets.map(indexOffset =>
      logistic(1 - Math.abs(indexOffset / (radius+1))))] *)
Definition indexOffsetWeights (radius : Z) (offs : list Z) : list num :=
  map (fun indexOffset =>
         logistic (n1 - nabs (ofZ indexOffset / ofZ (radius + 1))))
      offs.

(** The point [smoothPath] reads for the vertex [segmentIndex] and an
    index offset: [path.vertices.at(segmentIndex + indexOffsets[i])]. *)
Definition thisPoint (vertices : list (Vec num)) (segmentIndex off : Z)
  : option (Vec num) :=
  at_ vertices (segmentIndex + off).

(** One step of the [reduce] that accumulates the weighted sum. *)
Definition smooth_accumulate (vertices : list (Vec num))
           (weights : option (list num)) (segmentIndex : Z)
           (acc : outcome (Vec num * num)) (ow : Z * num)
  : outcome (Vec num * num) :=
  obind acc (fun '(pnt, weightSum) =>
  obind (deref (thisPoint vertices segmentIndex (fst ow))) (fun thisPt =>
  let weightUser :=
    match weights with
    | None => n1
    | Some w => match at_ w (segmentIndex + fst ow) with
                | Some u => u
                | None => n0        (* null, which a product reads as 0 *)
                end
    end in
  let weight := snd ow * weightUser in
  Ret (mkVec (vx pnt + vx thisPt * weight)
             (vy pnt + vy thisPt * weight)
             (vz pnt + vz thisPt * weight),
       weightSum + weight))).

(** The new vertex at [segmentIndex]. *)
Definition smoothVertex (vertices : list (Vec num))
           (weights : option (list num)) (offs : list Z) (ws : list num)
           (segmentIndex : Z) : outcome (Vec num) :=
  obind (fold_left (smooth_accumulate vertices weights segmentIndex)
                   (combine offs ws) (Ret (Vector0, n0)))
        (fun '(avgPoint, weightSum) =>
           Ret (mkVec (safeDivide (vx avgPoint) weightSum)
                      (safeDivide (vy avgPoint) weightSum)
                      (safeDivide (vz avgPoint) weightSum))).

(** One smoothing pass over a PathLite. *)
Definition smoothPass (offs : list Z) (ws : list num)
           (weights : option (list num)) (p : PathLite num)
  : outcome (PathLite num) :=
  let '(vs, p) := get_vertices p in
  obind (range (Z.of_nat (length vs))) (fun idxs =>
  obind (mapM (smoothVertex vs weights offs ws) idxs) (fun newSegments =>
  Ret (set_vertices (map PVec newSegments) p))).

(** [smoothPath(path, radius, nIterations, weights = null)] on a
    PathLite *)
Definition smoothPath (p : PathLite num) (radius nIterations : Z)
           (weights : option (list num)) : outcome (PathLite num) :=
  obind (indexOffsets radius) (fun offs =>
  let ws := indexOffsetWeights radius offs in
  obind (range nIterations) (fun its =>
  fold_left (fun acc _ => obind acc (smoothPass offs ws weights))
            its (Ret p))).

(** [wrappedAverage(a, r)] without weights *)
Definition wrappedAverage (a : list num) (r : num) : num :=
  let len := ofZ (Z.of_nat (length a)) in
  let part (f : num -> num) :=
    sum (map (fun i => f (wrap i r / r * ofZ 2 * nPI) * n1) a)
    / len / len in
  wrap (noNAN (natan2 (part nsin) (part ncos))) (ofZ 2 * nPI)
  / ofZ 2 / nPI * r.

(** [Array.prototype.argAt(compare)]: the index of the element a sort by
    [compare] puts first; [None] for an empty array. *)
Definition argAt {A} (gt : A -> A -> bool) (l : list A) : option Z :=
  match at_ (sortBy (fun a b => gt (fst a) (fst b))
                    (mapi (fun item idx => (item, idx)) l)) 0 with
  | Some first => Some (snd first)
  | None => None
  end.

(** The comparison [calcConvexHull] sorts with: the larger angle first,
    and for (almost) equal angles the larger distance first. *)
Definition hullAfter (a b : num * num) : bool :=
  if EPSILON <? nabs (fst b - fst a) then n0 <? (fst b - fst a)
  else n0 <? (snd b - snd a).

(** The body of the [while (samples.length > 1)] loop; each turn removes
    at least one sample, so the length of [samples] is enough fuel. *)
Fixpoint calcConvexHull_loop (fuel : nat) (hull samples : list (Vec num))
  : outcome (list (Vec num) * list (Vec num)) :=
  match fuel with
  | O => Ret (hull, samples)
  | S fuel' =>
      if (1 <? length samples)%nat then
        obind (deref (at_ hull (-1))) (fun lastHull =>
        let dirRef :=
          fromAngle
            (wrappedAverage
               (map (fun sample => heading (vsub sample lastHull)) samples)
               (ofZ 2 * nPI)) in
        let keyed :=
          map (fun sample =>
                 let diff := vsub sample lastHull in
                 (angleBetween dirRef (norm diff), mag diff))
              samples in
        obind (deref (argAt hullAfter keyed)) (fun argMax =>
        obind (deref (nth_error samples (Z.to_nat argMax))) (fun chosen =>
        calcConvexHull_loop fuel' (hull ++ [chosen])
                            (skipn (Z.to_nat (argMax + 1)) samples))))
      else Ret (hull, samples)
  end.

(** [calcConvexHull(samplesRaw)] for a list of Vectors *)
Definition calcConvexHull (samplesRaw : list (Vec num))
  : outcome (list (Vec num)) :=
  let hull := firstn 1 samplesRaw in
  let samples := skipn 1 samplesRaw in
  obind (calcConvexHull_loop (length samples) hull samples)
        (fun '(hull, samples) =>
           match samples with
           | s :: _ => Ret (hull ++ [s])
           | [] => Ret hull
           end).

End Transforms.

(* ------------------------------------------------------------------ *)
(** ** Clients of a path *)

(** What a client can do with a path: assign one of its properties, call a
    method that replaces the vertices, or read from it (a read may refresh
    the caches, so it is a transition too). *)
Inductive PathOp (num : Type) : Type :=
| SetClosed (value : bool)
| SetUseZ (value : bool)
| SetLengthMetric (value : option string)
| SetVertices (value : list (PointLike num))
| CallReduce
| CallClearVertices
| ReadVertices
| ReadLength
| ReadOffsets
| CallGetNearestLocation (pt : PointLike num)
| CallGetPointAt (off : num).
Arguments SetClosed {num} value.
Arguments SetUseZ {num} value.
Arguments SetLengthMetric {num} value.
Arguments SetVertices {num} value.
Arguments CallReduce {num}.
Arguments CallClearVertices {num}.
Arguments ReadVertices {num}.
Arguments ReadLength {num}.
Arguments ReadOffsets {num}.
Arguments CallGetNearestLocation {num} pt.
Arguments CallGetPointAt {num} off.

Section Clients.
Context {num : Type} {N : Num num}.

(** The path after one operation. *)
Definition run (o : PathOp num) (p : PathLite num) : PathLite num :=
  match o with
  | SetClosed v => set_closed v p
  | SetUseZ v => set_useZ v p
  | SetLengthMetric v => set_lengthMetric v p
  | SetVertices v => set_vertices v p
  | CallReduce => reduce p
  | CallClearVertices => clearVertices p
  | ReadVertices => snd (get_vertices p)
  | ReadLength => snd (get_length p)
  | ReadOffsets => snd (get_offsets p)
  | CallGetNearestLocation pt => snd (getNearestLocation pt p)
  | CallGetPointAt off => snd (getPointAt off p)
  end.

(** The path a client holds after constructing it from [vertices] and
    running [ops] in order. *)
Definition after (vertices : list (PointLike num)) (ops : list (PathOp num))
  : PathLite num :=
  fold_left (fun p o => run o p) ops (new_PathLite vertices).

(** The quantities a path derives from its vertices, flags and metric,
    computed from scratch. *)
Definition derived_vertices (original : list (Vec num)) (useZ : bool)
  : list (Vec num) :=
  map (workingCopy useZ) original.

Definition derived_segments (original : list (Vec num)) (useZ closed : bool)
           (metric : option string) : list num :=
  segmentLengths (derived_vertices original useZ) closed metric.

Definition derived_length (original : list (Vec num)) (useZ closed : bool)
           (metric : option string) : num :=
  sum (derived_segments original useZ closed metric).

Definition derived_offsets (original : list (Vec num)) (useZ closed : bool)
           (metric : option string) : list num :=
  firstn (length (derived_vertices original useZ))
         (n0 :: cumulativeSum (derived_segments original useZ closed metric)).

(** A cache that is not flagged dirty holds the derived value. *)
Definition coherent (p : PathLite num) : Prop :=
  (_vertices_dirty p = false ->
   _vertices p = derived_vertices (_vertices_original p) (_use_z p))
  /\ (_length_dirty p = false ->
      _vertices_dirty p = false
      /\ _length_segments p
         = derived_segments (_vertices_original p) (_use_z p) (_closed p)
                            (_length_metric p)
      /\ _length p = sum (_length_segments p)
      /\ _length_segments_cumulative p = cumulativeSum (_length_segments p)).

End Clients.

(* ------------------------------------------------------------------ *)
(** ** Concrete paths on doubles *)

Module Scenarios.
Import Binary64.

(** The closed square (0,0),(10,0),(10,10),(0,10). *)
Definition square : PathLite float :=
  set_closed true (new_PathLite [pt 0 0; pt 10 0; pt 10 10; pt 0 10]).



(** The open path (-2,-2),(0,1), a single slanted segment. *)
Definition slanted : PathLite float := new_PathLite [pt (-2) (-2); pt 0 1].


End Scenarios.

(* ------------------------------------------------------------------ *)
(** ** Sub-sequences *)

(** [subseq k l]: [k] is [l] with some elements left out. *)
Inductive subseq {A : Type} : list A -> list A -> Prop :=
| subseq_nil : subseq [] []
| subseq_skip (a : A) (k l : list A) : subseq k l -> subseq k (a :: l)
| subseq_keep (a : A) (k l : list A) : subseq k l -> subseq (a :: k) (a :: l).


(** The vectors the [vertices] getter hands out: copying them, plainly or
    as a working copy, gives them back. *)
Definition settled {num : Type} {N : Num num} (useZ : bool)
           (l : list (Vec num)) : Prop :=
  Forall (fun v => copy_ v = v /\ workingCopy useZ v = v) l.

(* ------------------------------------------------------------------ *)
(** ** Observing the outcome of a transform *)




(* ------------------------------------------------------------------ *)
(** ** Object identity: who shares which vectors

    Above, a vector is its content.  To see what a path shares with its
    callers, this section keeps the objects apart: a store of [Vector]
    objects and a store of arrays of references to them, both indexed by
    address; [new Vector] and a new array take the next free address.  The
    fields of the path that hold vertex arrays hold addresses. *)

Record Heap (num : Type) : Type := mkHeap {
  vectors : list (Vec num);      (* address -> Vector object *)
  arrays : list (list nat)       (* address -> array of Vector addresses *)
}.
Arguments mkHeap {num} vectors arrays.
Arguments vectors {num} h.
Arguments arrays {num} h.

Record PathObj (num : Type) : Type := mkObj {
  o_vertices_original : nat;     (* this._vertices_original, an array *)
  o_vertices : nat;              (* this._vertices, an array *)
  o_vertices_dirty : bool;
  o_closed : bool;
  o_use_z : bool;
  o_length_metric : option string;
  o_length : num;
  o_length_segments : list num;
  o_length_segments_cumulative : list num;
  o_length_dirty : bool
}.
Arguments mkObj {num}.
Arguments o_vertices_original {num} p.
Arguments o_vertices {num} p.
Arguments o_vertices_dirty {num} p.
Arguments o_closed {num} p.
Arguments o_use_z {num} p.
Arguments o_length_metric {num} p.
Arguments o_length {num} p.
Arguments o_length_segments {num} p.
Arguments o_length_segments_cumulative {num} p.
Arguments o_length_dirty {num} p.

(** What a caller can do to an object it holds: assign the fields of a
    vector, or change the elements of an array (push, pop, splice, index
    assignment). *)
Inductive Mutation (num : Type) : Type :=
| WriteVector (l : nat) (v : Vec num)
| WriteArray (a : nat) (elements : list nat).
Arguments WriteVector {num} l v.
Arguments WriteArray {num} a elements.

(** [l] with its element at [i] replaced (nothing happens out of range). *)
Fixpoint set_nth {A} (i : nat) (x : A) (l : list A) : list A :=
  match l, i with
  | [], _ => []
  | _ :: t, O => x :: t
  | a :: t, S i' => a :: set_nth i' x t
  end.

Section Objects.
Context {num : Type} {N : Num num}.

Definition read_vector (h : Heap num) (l : nat) : Vec num :=
  nth l (vectors h) Vector0.

Definition read_array (h : Heap num) (a : nat) : list nat :=
  nth a (arrays h) [].

(** The vectors an array refers to, by content. *)
Definition contents (h : Heap num) (a : nat) : list (Vec num) :=
  map (read_vector h) (read_array h a).

(** A new array of new vectors with the given contents. *)
Definition alloc_array (vs : list (Vec num)) (h : Heap num) : nat * Heap num :=
  (length (arrays h),
   mkHeap (vectors h ++ vs)
          (arrays h ++ [seq (length (vectors h)) (length vs)])).

Definition mutate (h : Heap num) (m : Mutation num) : Heap num :=
  match m with
  | WriteVector l v => mkHeap (set_nth l v (vectors h)) (arrays h)
  | WriteArray a elements => mkHeap (vectors h) (set_nth a elements (arrays h))
  end.

(** The mutation touches an object that exists in [h]. *)
Definition touches_only (h : Heap num) (m : Mutation num) : Prop :=
  match m with
  | WriteVector l _ => (l < length (vectors h))%nat
  | WriteArray a _ => (a < length (arrays h))%nat
  end.

(** [set vertices(value)], for an array [value] of Vectors: every element
    is copied into a new Vector, and the copies go into a new array. *)
Definition obj_set_vertices (value : nat) (o : PathObj num) (h : Heap num)
  : PathObj num * Heap num :=
  let '(a, h) := alloc_array (map copy_ (contents h value)) h in
  (mkObj a (o_vertices o) true (o_closed o) (o_use_z o) (o_length_metric o)
         (o_length o) (o_length_segments o) (o_length_segments_cumulative o)
         true,
   h).

(** [_cleanVertices()]: the working copies are new Vectors in a new
    array. *)
Definition obj_cleanVertices (o : PathObj num) (h : Heap num)
  : PathObj num * Heap num :=
  if o_vertices_dirty o then
    let '(a, h) :=
      alloc_array (map (workingCopy (o_use_z o))
                       (contents h (o_vertices_original o))) h in
    (mkObj (o_vertices_original o) a false (o_closed o) (o_use_z o)
           (o_length_metric o) (o_length o) (o_length_segments o)
           (o_length_segments_cumulative o) (o_length_dirty o),
     h)
  else (o, h).

(** [get vertices()]: the address of [this._vertices] itself. *)
Definition obj_get_vertices (o : PathObj num) (h : Heap num)
  : nat * (PathObj num * Heap num) :=
  let '(o, h) := obj_cleanVertices o h in (o_vertices o, (o, h)).

(** [_cleanLength()] and [get length()] *)
Definition obj_cleanLength (o : PathObj num) (h : Heap num)
  : PathObj num * Heap num :=
  if o_length_dirty o then
    let '(a, (o, h)) := obj_get_vertices o h in
    let '(len, segs) :=
      calcPathLength (contents h a) (o_closed o) (o_length_metric o) in
    (mkObj (o_vertices_original o) (o_vertices o) (o_vertices_dirty o)
           (o_closed o) (o_use_z o) (o_length_metric o)
           len segs (cumulativeSum segs) false,
     h)
  else (o, h).

Definition obj_get_length (o : PathObj num) (h : Heap num)
  : num * (PathObj num * Heap num) :=
  let '(o, h) := obj_cleanLength o h in (o_length o, (o, h)).

(** [new PathLite(vertices)] *)
Definition new_PathObj (vertices : nat) (h : Heap num)
  : PathObj num * Heap num :=
  obj_set_vertices vertices
    (mkObj 0 0 false false false None n0 [] [] false) h.

(** What a caller sees when it reads the path now: the contents of the
    vertices and the length. *)
Definition observe (o : PathObj num) (h : Heap num) : list (Vec num) * num :=
  let '(a, (o1, h1)) := obj_get_vertices o h in
  (contents h1 a, fst (obj_get_length o1 h1)).

(** [h2] has the objects of [h1], with the same content from the addresses
    [nv] (vectors) and [na] (arrays) on. *)
Definition agree_from (nv na : nat) (h1 h2 : Heap num) : Prop :=
  length (vectors h1) = length (vectors h2)
  /\ length (arrays h1) = length (arrays h2)
  /\ (forall l, (nv <= l)%nat -> read_vector h2 l = read_vector h1 l)
  /\ (forall a, (na <= a)%nat -> read_array h2 a = read_array h1 a).

End Objects.

Module ObjectScenario.
Import Binary64.

(** The caller's heap: the vectors (0,0) and (1,0) and the array of the
    two. *)
Definition callerHeap : Heap float :=
  mkHeap [mkVec (of_Z 0) (of_Z 0) (of_Z 0); mkVec (of_Z 1) (of_Z 0) (of_Z 0)]
         [[0; 1]%nat].

(** [path = new PathLite(array)], then [len = path.length] and
    [vs = path.vertices]. *)
Definition built : PathObj float * Heap float := new_PathObj 0 callerHeap.

Definition afterReads : nat * (PathObj float * Heap float) :=
  let '(_, (o, h)) := obj_get_length (fst built) (snd built) in
  obj_get_vertices o h.

(** [vs[1].x = 5]: an assignment to a vector the getter handed out. *)
Definition afterWrite : PathObj float * Heap float :=
  let '(vs, (o, h)) := afterReads in
  let l := nth 1 (read_array h vs) 0%nat in
  (o, mutate h (WriteVector l (mkVec (of_Z 5) (of_Z 0) (of_Z 0)))).

End ObjectScenario.

(* ------------------------------------------------------------------ *)
(** ** Polygons by orientation *)


(* ------------------------------------------------------------------ *)
(** ** Polygons and segment intersections *)

Section Polygons.
Context {num : Type} {N : Num num}.
Local Open Scope num_scope.

(** The test of one polygon edge in [pointInPolygon], for the vertex
    [vs[i]] and its predecessor [vs[j]]:
    [((yi > y) != (yj > y))
     && (x < (xj - xi) * (y - yi) / (yj - yi) + xi)];
    the coordinates come from [Vector.array()], which reads each
    component through [|| 0]. *)
Definition crossesRay (x y : num) (vi vj : Vec num) : bool :=
  let xi := or0 (vx vi) in
  let yi := or0 (vy vi) in
  let xj := or0 (vx vj) in
  let yj := or0 (vy vj) in
  xorb (y <? yi) (y <? yj)
  && (x <? (xj - xi) * (y - yi) / (yj - yi) + xi).

(** [for (let i = 0, j = vs.length - 1; i < vs.length; j = i++)
      { ... if (intersect) inside = !inside }]: [vj] is the vertex before
    the next one. *)
Fixpoint pointInPolygon_loop (x y : num) (vs : list (Vec num)) (vj : Vec num)
         (inside : bool) : bool :=
  match vs with
  | [] => inside
  | vi :: rest =>
      pointInPolygon_loop x y rest vi
        (if crossesRay x y vi vj then negb inside else inside)
  end.

(** [pointInPolygon(_point, _vs)] for a Vector and a list of Vectors *)
Definition pointInPolygon (pnt : Vec num) (vs : list (Vec num)) : bool :=
  pointInPolygon_loop (or0 (vx pnt)) (or0 (vy pnt)) vs (last vs Vector0) false.

(** [getSegmentsIntersection(a, b, p, q)]; [None] is [null]. *)
Definition getSegmentsIntersection (a b p q : Vec num) : option (Vec num) :=
  if ((vx a == vx b) && (vy a == vy b)) || ((vx p == vx q) && (vy p == vy q))
  then None
  else
    let denominator :=
      (vy q - vy p) * (vx b - vx a) - (vx q - vx p) * (vy b - vy a) in
    if denominator == n0 then None
    else
      let ua := ((vx q - vx p) * (vy a - vy p) - (vy q - vy p) * (vx a - vx p))
                / denominator in
      let ub := ((vx b - vx a) * (vy a - vy p) - (vy b - vy a) * (vx a - vx p))
                / denominator in
      if (ua <? n0) || (n1 <? ua) || (ub <? n0) || (n1 <? ub) then None
      else
        let x := vx a + ua * (vx b - vx a) in
        let y := vy a + ua * (vy b - vy a) in
        Some (Vector x y n0).

End Polygons.

(** The parity of the edges [crossesRay] accepts along the chain of
    vertices [vs] that starts after [vj]. *)
Fixpoint crossings {num : Type} {N : Num num} (x y : num) (vj : Vec num)
         (vs : list (Vec num)) : bool :=
  match vs with
  | [] => false
  | vi :: rest => xorb (crossesRay x y vi vj) (crossings x y vi rest)
  end.

(** The two segments [p1 q1] and [p2 q2] have a point in common, at the
    parameters [s] and [t]. *)
Definition meetAt (p1 q1 p2 q2 : Vec R) (s t : R) : Prop :=
  (0 <= s <= 1 /\ 0 <= t <= 1
   /\ vx p1 + s * (vx q1 - vx p1) = vx p2 + t * (vx q2 - vx p2)
   /\ vy p1 + s * (vy q1 - vy p1) = vy p2 + t * (vy q2 - vy p2))%R.

(** The cross product of the two segments' directions: 0 for parallel
    segments. *)
Definition directionsCross (p1 q1 p2 q2 : Vec R) : R :=
  ((vx q1 - vx p1) * (vy q2 - vy p2) - (vy q1 - vy p1) * (vx q2 - vx p2))%R.

(* ------------------------------------------------------------------ *)
(** ** More array helpers *)

(** [let range1 = (a) => Array(a).fill(0).map((_, i) => i)] *)
Definition range1 (a : Z) : outcome (list Z) :=
  if (a <? 0)%Z then Throw RangeError
  else Ret (map Z.of_nat (seq 0 (Z.to_nat a))).

(** One turn of the loop of [range(...dims)], for the dimension [d] that
    [dims.pop()] returned:
    [out = range1(d).map(i => out.map(j => [i].concat(j))).flat()] *)
Definition range_turn (d : Z) (out : list (list Z)) : outcome (list (list Z)) :=
  obind (range1 d) (fun is_ =>
  Ret (concat (map (fun i => map (fun j => i :: j) out) is_))).

(** [let out = [[]]; while (dims.length > 0) { ... dims.pop() ... }]: the
    dimensions are taken from the last to the first. *)
Definition range_tuples (dims : list Z) : outcome (list (list Z)) :=
  fold_left (fun acc d => obind acc (range_turn d)) (rev dims) (Ret [[]]).

(** [range(...dims)] with two or more dimensions ([nTotalDims > 1]): the
    list of index tuples.  With one dimension [range] returns
    [out.flat()], the list of indices itself. *)
Definition range_flat (dims : list Z) : outcome (list Z) :=
  obind (range_tuples dims) (fun out => Ret (concat out)).

(** The lexicographic order on index tuples. *)
Fixpoint lexlt (s t : list Z) : Prop :=
  match s, t with
  | i :: s', j :: t' => (i < j)%Z \/ (i = j /\ lexlt s' t')
  | _, _ => False
  end.

Section MoreArrays.
Context {A : Type}.



(** [choose2 = (values) => values.flatMap((v, i) =>
      values.slice(i+1).map(w => [v, w]))] *)
Definition choose2 (values : list A) : list (A * A) :=
  concat (mapi (fun v i => map (fun w => (v, w))
                               (skipn (Z.to_nat (i + 1)) values))
               values).

(** What [choose2] computes, by recursion on the list. *)
Fixpoint pairs_after (l : list A) : list (A * A) :=
  match l with
  | [] => []
  | v :: t => map (fun w => (v, w)) t ++ pairs_after t
  end.

End MoreArrays.

Section ArgExtremes.
Context {num : Type} {N : Num num}.
Local Open Scope num_scope.

(** [argMax() { return this.argAt((a,b) => b-a) }] and
    [argMin() { return this.argAt((a,b) => a-b) }] *)
Definition argMax (l : list num) : option Z :=
  argAt (fun a b => n0 <? (b - a)) l.
Definition argMin (l : list num) : option Z :=
  argAt (fun a b => n0 <? (a - b)) l.

End ArgExtremes.

(* ------------------------------------------------------------------ *)
(** ** More scalar helpers *)

Section MoreScalars.
Context {num : Type} {N : Num num}.
Local Open Scope num_scope.

(** [var xor = (a, b) => (a || b) && !(a && b)] *)
Definition xor (a b : bool) : bool := (a || b) && negb (a && b).

(** [prepareWrappedComparison = (a, b, r) => { a = wrap(a, r);
    b = wrap(b, r); [c, d] = minmax(a, b); q = d - c > r / 2;
    return [q ? d - r : c, q ? c : d, xor(a == d, q)] }] *)
Definition prepareWrappedComparison (a b r : num) : num * num * bool :=
  let a := wrap a r in
  let b := wrap b r in
  let '(c, d) := minmax a b in
  let q := (r / ofZ 2) <? (d - c) in
  (if q then d - r else c, if q then c else d, xor (a == d) q).

(** [minWrappedDiff = (a, b, r) => { [c, d, f] =
    prepareWrappedComparison(a, b, r); return (c - d) * (f ? -1 : 1) }] *)
Definition minWrappedDiff (a b r : num) : num :=
  let '(c, d, f) := prepareWrappedComparison a b r in
  (c - d) * (if f then ofZ (-1) else ofZ 1).

(** [uniWrappedDiff = (a, b, r) => wrap(minWrappedDiff(a, b, r), r)] *)
Definition uniWrappedDiff (a b r : num) : num := wrap (minWrappedDiff a b r) r.

(** [absWrappedDiff = (a, b, r) => Math.abs(minWrappedDiff(a, b, r))] *)
Definition absWrappedDiff (a b r : num) : num := nabs (minWrappedDiff a b r).

(** [var mod = (a, b) => (a + Math.abs(Math.floor(a / b)) * b) % b] *)
Definition mod_ (a b : num) : num :=
  nmod (a + nabs (ofZ (nfloor (a / b))) * b) b.

(** [lerpValue = (a, b, c) => c * (b - a) + a], with its three arguments *)
Definition lerpValue (a b c : num) : num := c * (b - a) + a.

(** [mapValue(n, start1, stop1, start2, stop2, withinBounds)] with the
    flag given. *)
Definition mapValueWith (n start1 stop1 start2 stop2 : num)
           (withinBounds : bool) : num :=
  let newval := (n - start1) / (stop1 - start1) * (stop2 - start2) + start2 in
  if negb withinBounds then newval
  else let '(l, h) := minmax start2 stop2 in clamp newval l h.

End MoreScalars.

(* ------------------------------------------------------------------ *)
(** ** More of the PathLite class *)

Section MorePathLite.
Context {num : Type} {N : Num num}.
Local Open Scope num_scope.

(** [get lineSegments() { return range(this._nSegments)
      .map(i => [this.vertices.at(i), this.vertices.at(i+1)]) }];
    an entry of a pair is [None] where [at] returns [null]. *)
Definition get_lineSegments (p : PathLite num)
  : outcome (list (option (Vec num) * option (Vec num))) * PathLite num :=
  let '(nSegments, p) := get_nSegments p in
  let '(vs, p) := get_vertices p in
  (obind (range nSegments) (fun idxs =>
   Ret (map (fun i => (at_ vs i, at_ vs (i + 1))) idxs)), p).

(** [get times() { return this.offsets.map(offset =>
      offset / this.length) }] *)
Definition get_times (p : PathLite num) : list num * PathLite num :=
  let '(offs, p) := get_offsets p in
  let '(len, p) := get_length p in
  (map (fun o => o / len) offs, p).

End MorePathLite.

(** A path whose caches are both up to date. *)
Definition clean {num : Type} (q : PathLite num) : Prop :=
  _vertices_dirty q = false /\ _length_dirty q = false.

(** [arr] increases strictly. *)
Definition increasing (arr : list R) : Prop :=
  forall i j, (i < j < length arr)%nat -> (nth i arr 0 < nth j arr 0)%R.

(** The point of the segment from [a] to [b] at the fraction [t] of the
    way, in exact arithmetic. *)
Definition along (a b : Vec R) (t : R) : Vec R :=
  mkVec (vx a + t * (vx b - vx a))%R (vy a + t * (vy b - vy a))%R
        (vz a + t * (vz b - vz a))%R.

(* ------------------------------------------------------------------ *)
(** ** Subdividing a path *)

Section Subdivide.
Context {num : Type} {N : Num num}.
Local Open Scope num_scope.

(** The [map] of [subdividePath] over the indices still to do:
    [let param = segmentIndex / (nSegments - (path.closed ? 0 : 1));
     return path.getPointAt(param * path.length)], the reads of [length]
    and [getPointAt] passing the path on. *)
Fixpoint subdivide_points (nSegments : Z) (idxs : list Z) (p : PathLite num)
  : outcome (list (Vec num)) * PathLite num :=
  match idxs with
  | [] => (Ret [], p)
  | segmentIndex :: rest =>
      let param :=
        ofZ segmentIndex
        / ofZ (nSegments - (if _closed p then 0 else 1))%Z in
      let '(len, p) := get_length p in
      match getPointAt (param * len) p with
      | (Throw e, p) => (Throw e, p)
      | (Ret v, p) =>
          let '(r, p) := subdivide_points nSegments rest p in
          (obind r (fun vs => Ret (v :: vs)), p)
      end
  end.

(** [subdividePath(path, nSegments)] on a PathLite:
    [path.vertices = newSegments; return path]. *)
Definition subdividePath (p : PathLite num) (nSegments : Z)
  : outcome (PathLite num) :=
  match range nSegments with
  | Throw e => Throw e
  | Ret idxs =>
      let '(r, p) := subdivide_points nSegments idxs p in
      obind r (fun newSegments =>
      Ret (set_vertices (map PVec newSegments) p))
  end.

End Subdivide.

(* ------------------------------------------------------------------ *)
(** * Properties *)

(** ** Concrete runs on doubles *)

(** C4: on the closed path (0,0),(10,0),(10,10),(0,10) the length is 40,
    [getPointAt(20)] is the point (10,10) and [getPointAt(5)] is the point
    (5,0), all computed in IEEE double arithmetic. *)
Theorem square_length_and_points :
  fst (get_length Scenarios.square) = 40%float
  /\ fst (getPointAt 20%float Scenarios.square)
     = Ret (mkVec 10%float 10%float 0%float)
  /\ fst (getPointAt 5%float Scenarios.square)
     = Ret (mkVec 5%float 0%float 0%float).
Proof. repeat split; vm_compute; reflexivity. Qed.

(** ** Paths without segments *)

Section NoSegments.
Context {num : Type} {N : Num num}.

Lemma nSegments_empty_open :
  fst (get_nSegments (new_PathLite (num := num) [])) = (-1)%Z.
Proof. reflexivity. Qed.

(** C3 (the failing input): on the empty open path, the path
    [new PathLite([])] builds, [_nSegments] is -1 and [range(-1)] raises
    RangeError before any location is looked at, whatever the query
    point. *)
Theorem nearest_on_empty_open_path_throws (q : PointLike num) :
  fst (getNearestLocation q (new_PathLite [])) = Throw RangeError.
Proof. destruct q; reflexivity. Qed.

(** With exactly zero segments the answer is [null]: the empty closed
    path and the open path of one vertex. *)
Lemma nearest_on_empty_closed_path (q : PointLike num) :
  fst (getNearestLocation q (set_closed true (new_PathLite []))) = Ret None.
Proof. destruct q; reflexivity. Qed.

Lemma nearest_on_single_vertex_open_path (q v : PointLike num) :
  fst (getNearestLocation q (new_PathLite [v])) = Ret None.
Proof. destruct q; reflexivity. Qed.

(** The empty path and the open path of one vertex have no segment to
    add up: their length is the initial value 0 of the sum. *)
Lemma length_empty (closed : bool) :
  fst (get_length (set_closed closed (new_PathLite (num := num) []))) = n0.
Proof. destruct closed; reflexivity. Qed.

Lemma length_single_vertex_open (v : PointLike num) :
  fst (get_length (new_PathLite [v])) = n0.
Proof. reflexivity. Qed.

End NoSegments.

(** ** Segment intersection on doubles *)

(** C2 (the failing input): the segments (0,0)-(1,0) and (1,0)-(1,1) share
    exactly the endpoint (1,0) and do not overlap otherwise, and
    [segmentsIntersect] answers 1, not 0: the general case
    [o1 != o2 && o3 != o4] already holds, since the shared endpoint makes
    [o1] and [o4] 0 while [o2] and [o3] are not. *)
Theorem segmentsIntersect_shared_endpoint :
  let v (x y : float) := mkVec x y 0%float in
  segmentsIntersect (v 0 0)%float (v 1 0)%float (v 1 0)%float (v 1 1)%float
  = 1%Z.
Proof. vm_compute. reflexivity. Qed.

(** ** The caches are never read stale *)

Section Caches.
Context {num : Type} {N : Num num}.

Lemma coherent_new (vertices : list (PointLike num)) :
  coherent (new_PathLite vertices).
Proof. split; simpl; intros H; discriminate H. Qed.

Lemma coherent_flagLengthDirty (p : PathLite num) :
  coherent p -> coherent (_flagLengthDirty p).
Proof. intros [Hv _]. split; simpl; [exact Hv | intros H; discriminate H]. Qed.

Lemma coherent_set_closed (value : bool) (p : PathLite num) :
  coherent p -> coherent (set_closed value p).
Proof. intros [Hv _]. split; simpl; [exact Hv | intros H; discriminate H]. Qed.

Lemma coherent_set_lengthMetric (value : option string) (p : PathLite num) :
  coherent p -> coherent (set_lengthMetric value p).
Proof. intros [Hv _]. split; simpl; [exact Hv | intros H; discriminate H]. Qed.

Lemma coherent_set_useZ (value : bool) (p : PathLite num) :
  coherent (set_useZ value p).
Proof. split; simpl; intros H; discriminate H. Qed.

Lemma coherent_set_vertices (value : list (PointLike num)) (p : PathLite num) :
  coherent (set_vertices value p).
Proof. split; simpl; intros H; discriminate H. Qed.

Lemma coherent_cleanVertices (p : PathLite num) :
  coherent p -> coherent (_cleanVertices p).
Proof.
  intros Hc. unfold _cleanVertices.
  destruct (_vertices_dirty p) eqn:Hd; [| exact Hc].
  destruct Hc as [_ Hl].
  split; simpl; [reflexivity |].
  intros H. destruct (Hl H) as [Hd' _]. rewrite Hd in Hd'. discriminate Hd'.
Qed.

Lemma cleanVertices_clean (p : PathLite num) :
  _vertices_dirty (_cleanVertices p) = false.
Proof.
  unfold _cleanVertices. destruct (_vertices_dirty p) eqn:Hd; [reflexivity | exact Hd].
Qed.

Lemma coherent_cleanLength (p : PathLite num) :
  coherent p -> coherent (_cleanLength p).
Proof.
  intros Hc. unfold _cleanLength.
  destruct (_length_dirty p) eqn:Hd; [| exact Hc].
  unfold get_vertices.
  pose proof (coherent_cleanVertices Hc) as [Hv _].
  pose proof (cleanVertices_clean p) as Hclean.
  specialize (Hv Hclean).
  unfold calcPathLength. simpl. split; simpl.
  - intros _. exact Hv.
  - intros _. rewrite Hclean. repeat split.
    rewrite Hv. unfold derived_segments.
    unfold _cleanVertices. destruct (_vertices_dirty p); reflexivity.
Qed.

Lemma cleanLength_clean (p : PathLite num) :
  _length_dirty (_cleanLength p) = false.
Proof.
  unfold _cleanLength. destruct (_length_dirty p) eqn:Hd; [| exact Hd].
  unfold get_vertices, calcPathLength. reflexivity.
Qed.

(** Cleaning leaves what the client assigned as it is. *)
Definition same_inputs (p q : PathLite num) : Prop :=
  _vertices_original q = _vertices_original p
  /\ _use_z q = _use_z p
  /\ _closed q = _closed p
  /\ _length_metric q = _length_metric p.

Lemma same_inputs_refl (p : PathLite num) : same_inputs p p.
Proof. repeat split. Qed.

Lemma same_inputs_trans (p q r : PathLite num) :
  same_inputs p q -> same_inputs q r -> same_inputs p r.
Proof.
  intros (A & B & C & D) (A' & B' & C' & D'). repeat split; congruence.
Qed.

Lemma same_inputs_cleanVertices (p : PathLite num) :
  same_inputs p (_cleanVertices p).
Proof.
  unfold _cleanVertices. destruct (_vertices_dirty p); repeat split.
Qed.

Lemma same_inputs_cleanLength (p : PathLite num) :
  same_inputs p (_cleanLength p).
Proof.
  unfold _cleanLength. destruct (_length_dirty p); [| apply same_inputs_refl].
  unfold get_vertices, calcPathLength. simpl.
  apply same_inputs_cleanVertices.
Qed.

(** What the three getters return on a coherent path. *)
Lemma get_vertices_coherent (p : PathLite num) :
  coherent p ->
  fst (get_vertices p) = derived_vertices (_vertices_original p) (_use_z p).
Proof.
  intros Hc. unfold get_vertices. simpl.
  destruct (coherent_cleanVertices Hc) as [Hv _].
  rewrite (Hv (cleanVertices_clean p)).
  destruct (same_inputs_cleanVertices p) as (-> & -> & _). reflexivity.
Qed.

Lemma get_length_coherent (p : PathLite num) :
  coherent p ->
  fst (get_length p)
  = derived_length (_vertices_original p) (_use_z p) (_closed p)
                   (_length_metric p).
Proof.
  intros Hc. unfold get_length. simpl.
  destruct (coherent_cleanLength Hc) as [_ Hl].
  destruct (Hl (cleanLength_clean p)) as (_ & Hs & Hlen & _).
  rewrite Hlen, Hs.
  destruct (same_inputs_cleanLength p) as (-> & -> & -> & ->). reflexivity.
Qed.

Lemma get_offsets_coherent (p : PathLite num) :
  coherent p ->
  fst (get_offsets p)
  = derived_offsets (_vertices_original p) (_use_z p) (_closed p)
                    (_length_metric p).
Proof.
  intros Hc. unfold get_offsets.
  pose proof (coherent_cleanLength Hc) as Hc'.
  pose proof (get_vertices_coherent Hc') as Hv.
  destruct Hc' as [_ Hl].
  destruct (Hl (cleanLength_clean p)) as (Hvd & Hs & _ & Hcum).
  unfold get_vertices in *. simpl in *.
  assert (Hid : _cleanVertices (_cleanLength p) = _cleanLength p).
  { unfold _cleanVertices at 1. rewrite Hvd. reflexivity. }
  rewrite Hid in *. rewrite Hv, Hcum, Hs.
  destruct (same_inputs_cleanLength p) as (-> & -> & -> & ->). reflexivity.
Qed.

End Caches.

Section CachesInvariant.
Context {num : Type} {N : Num num}.

Lemma coherent_getNearestLocation (pt : PointLike num) (p : PathLite num) :
  coherent p -> coherent (snd (getNearestLocation pt p)).
Proof.
  intros Hc. unfold getNearestLocation, get_nSegments, get_length, get_vertices.
  simpl.
  repeat match goal with
         | |- context [match ?x with _ => _ end] => destruct x; simpl
         end;
    repeat first [apply coherent_cleanVertices | apply coherent_cleanLength];
    exact Hc.
Qed.

Lemma coherent_getIndexInterpolatedAt (off : num) (p : PathLite num) :
  coherent p -> coherent (snd (_getIndexInterpolatedAt off p)).
Proof.
  intros Hc.
  unfold _getIndexInterpolatedAt, get_nSegments, get_length, get_vertices.
  simpl.
  repeat match goal with
         | |- context [match ?x with _ => _ end] => destruct x; simpl
         end;
    repeat first [apply coherent_cleanVertices | apply coherent_cleanLength];
    exact Hc.
Qed.

Lemma coherent_getPointAt (off : num) (p : PathLite num) :
  coherent p -> coherent (snd (getPointAt off p)).
Proof.
  intros Hc. unfold getPointAt.
  pose proof (coherent_getIndexInterpolatedAt off Hc) as Hc'.
  destruct (_getIndexInterpolatedAt off p) as [ii p']. simpl in *.
  apply coherent_cleanVertices, Hc'.
Qed.

Lemma coherent_run (o : PathOp num) (p : PathLite num) :
  coherent p -> coherent (run o p).
Proof.
  intros Hc. destruct o; simpl.
  - apply coherent_set_closed, Hc.
  - apply coherent_set_useZ.
  - apply coherent_set_lengthMetric, Hc.
  - apply coherent_set_vertices.
  - apply coherent_set_vertices.
  - apply coherent_set_vertices.
  - apply coherent_cleanVertices, Hc.
  - apply coherent_cleanLength, Hc.
  - unfold get_offsets, get_vertices. simpl.
    apply coherent_cleanVertices, coherent_cleanLength, Hc.
  - apply coherent_getNearestLocation, Hc.
  - apply coherent_getPointAt, Hc.
Qed.

Lemma coherent_after (vertices : list (PointLike num))
      (ops : list (PathOp num)) :
  coherent (after vertices ops).
Proof.
  unfold after. generalize (coherent_new vertices).
  generalize (new_PathLite vertices). induction ops as [| o ops IH]; intros p Hc.
  - exact Hc.
  - simpl. apply IH, coherent_run, Hc.
Qed.

(** The setters store what they are given and leave the other inputs. *)
Lemma setters_store (p : PathLite num) :
  (forall v, _closed (set_closed v p) = v
             /\ _vertices_original (set_closed v p) = _vertices_original p
             /\ _length_metric (set_closed v p) = _length_metric p
             /\ _use_z (set_closed v p) = _use_z p)
  /\ (forall v, _length_metric (set_lengthMetric v p) = v
                /\ _vertices_original (set_lengthMetric v p)
                   = _vertices_original p
                /\ _closed (set_lengthMetric v p) = _closed p
                /\ _use_z (set_lengthMetric v p) = _use_z p)
  /\ (forall v, _vertices_original (set_vertices v p) = map toVector v
                /\ _closed (set_vertices v p) = _closed p
                /\ _length_metric (set_vertices v p) = _length_metric p
                /\ _use_z (set_vertices v p) = _use_z p).
Proof. repeat split. Qed.

(** C1: whatever a client did to a path since its construction (property
    assignments, [reduce], [clearVertices], reads and queries, in any order),
    the next read of [vertices], [length] and [offsets] returns the value
    computed from the vertices, the flags and the metric the path holds at
    that moment; in particular the first read after an assignment to
    [vertices], [closed] or [lengthMetric] sees the assigned value. *)
Theorem reads_are_never_stale (vertices : list (PointLike num))
        (ops : list (PathOp num)) :
  let p := after vertices ops in
  fst (get_vertices p) = derived_vertices (_vertices_original p) (_use_z p)
  /\ fst (get_length p)
     = derived_length (_vertices_original p) (_use_z p) (_closed p)
                      (_length_metric p)
  /\ fst (get_offsets p)
     = derived_offsets (_vertices_original p) (_use_z p) (_closed p)
                       (_length_metric p).
Proof.
  intros p. pose proof (coherent_after vertices ops) as Hc. fold p in Hc.
  repeat split.
  - apply get_vertices_coherent, Hc.
  - apply get_length_coherent, Hc.
  - apply get_offsets_coherent, Hc.
Qed.

End CachesInvariant.

(** ** Offsets and segment lengths *)

Section OffsetsStructure.
Context {num : Type} {N : Num num}.

Lemma mapi_from_length {A B} (f : A -> Z -> B) (l : list A) (i : Z) :
  length (mapi_from i f l) = length l.
Proof.
  revert i. induction l as [| a l IH]; intros i; simpl; [| rewrite IH];
    reflexivity.
Qed.

Lemma mapi_length {A B} (f : A -> Z -> B) (l : list A) :
  length (mapi f l) = length l.
Proof. apply mapi_from_length. Qed.

Lemma mapi_from_Forall {A B} (P : B -> Prop) (f : A -> Z -> B) (l : list A)
      (i : Z) :
  (forall a k, P (f a k)) -> Forall P (mapi_from i f l).
Proof.
  intros Hf. revert i. induction l as [| a l IH]; intros i; simpl;
    constructor; auto.
Qed.

Lemma segmentLengths_length (samples : list (Vec num)) (closed : bool)
      (m : option string) :
  length (segmentLengths samples closed m)
  = if closed then length samples else (length samples - 1)%nat.
Proof.
  unfold segmentLengths. rewrite mapi_length. destruct closed; [reflexivity |].
  rewrite length_firstn. lia.
Qed.

Lemma cumulativeSum_from_length (l : list num) (p : num) :
  length (cumulativeSum_from p l) = length l.
Proof.
  revert p. induction l as [| c l IH]; intros p; simpl; [| rewrite IH];
    reflexivity.
Qed.

(** Each partial sum is the one before plus the segment in between, with
    the very additions the code performs. *)
Lemma cumulativeSum_from_step (l : list num) (p d : num) (i : nat) :
  (i < length l)%nat ->
  nth (S i) (p :: cumulativeSum_from p l) d
  = nadd (nth i (p :: cumulativeSum_from p l) d) (nth i l d).
Proof.
  revert p i. induction l as [| c l IH]; intros p i Hi; simpl in Hi; [lia |].
  destruct i as [| i]; [reflexivity |].
  change (nth (S (S i)) (p :: cumulativeSum_from p (c :: l)) d)
    with (nth (S i) (nadd p c :: cumulativeSum_from (nadd p c) l) d).
  rewrite IH by lia. reflexivity.
Qed.

(** The sum of a list is the last of its partial sums. *)
Lemma sum_from_last (l : list num) (p d : num) :
  fold_left nadd l p = nth (length l) (p :: cumulativeSum_from p l) d.
Proof.
  revert p. induction l as [| c l IH]; intros p; [reflexivity |].
  simpl fold_left. rewrite IH. reflexivity.
Qed.

Lemma nth_firstn {A} (l : list A) (n i : nat) (d : A) :
  (i < n)%nat -> nth i (firstn n l) d = nth i l d.
Proof.
  revert n i. induction l as [| a l IH]; intros n i Hi.
  - rewrite firstn_nil. reflexivity.
  - destruct n as [| n]; [lia |]. destruct i as [| i]; [reflexivity |].
    simpl. apply IH. lia.
Qed.

(** In every arithmetic, doubles included: the first offset is 0, every
    offset is the previous one plus the segment in between, and the total
    length is the last partial sum. *)
Lemma derived_offsets_structure (original : list (Vec num))
      (useZ closed : bool) (m : option string) (d : num) :
  let offs := derived_offsets original useZ closed m in
  let segs := derived_segments original useZ closed m in
  let n := length (derived_vertices original useZ) in
  length offs = n
  /\ length segs = (if closed then n else n - 1)%nat
  /\ ((0 < n)%nat -> nth 0 offs d = n0)
  /\ (forall i, (S i < n)%nat -> nth (S i) offs d = nadd (nth i offs d) (nth i segs d))
  /\ (closed = true -> (0 < n)%nat ->
      nadd (nth (n - 1) offs d) (nth (n - 1) segs d)
      = derived_length original useZ closed m)
  /\ (closed = false -> (0 < n)%nat ->
      nth (n - 1) offs d = derived_length original useZ closed m).
Proof.
  intros offs segs n.
  assert (Hsegs : length segs = (if closed then n else n - 1)%nat)
    by apply segmentLengths_length.
  assert (Hcum : length (n0 :: cumulativeSum segs) = S (length segs))
    by (simpl; unfold cumulativeSum; rewrite cumulativeSum_from_length;
        reflexivity).
  assert (Hoffs : length offs = n).
  { unfold offs, derived_offsets. fold segs. fold n.
    rewrite length_firstn, Hcum, Hsegs. destruct closed; lia. }
  split; [exact Hoffs |]. split; [exact Hsegs |].
  unfold offs, derived_offsets, derived_length. fold segs. fold n.
  split; [| split; [| split]].
  - intros Hn. rewrite nth_firstn by lia. reflexivity.
  - intros i Hi. rewrite !nth_firstn by lia.
    apply cumulativeSum_from_step. rewrite Hsegs. destruct closed; lia.
  - intros -> Hn. rewrite nth_firstn by lia. unfold sum.
    rewrite (sum_from_last segs n0 d), Hsegs.
    replace n with (S (n - 1)) at 3 by lia.
    symmetry. apply cumulativeSum_from_step. rewrite Hsegs. lia.
  - intros -> Hn. rewrite nth_firstn by lia. unfold sum.
    rewrite (sum_from_last segs n0 d), Hsegs. reflexivity.
Qed.

End OffsetsStructure.

(** ** Exact arithmetic: what the interface means on the reals *)

Section ExactFacts.
Import Exact.
Local Open Scope R_scope.

Lemma Reqb_true (a b : R) : Reqb a b = true <-> a = b.
Proof. unfold Reqb. destruct (Req_dec_T a b); split; congruence. Qed.

Lemma Rltb_true (a b : R) : Rltb a b = true <-> a < b.
Proof. unfold Rltb. destruct (Rlt_dec a b); split; intros; congruence || lra. Qed.

Lemma Rltb_false (a b : R) : Rltb a b = false <-> b <= a.
Proof. unfold Rltb. destruct (Rlt_dec a b); split; intros; congruence || lra. Qed.

Lemma Rleb_true (a b : R) : Rleb a b = true <-> a <= b.
Proof. unfold Rleb. destruct (Rle_dec a b); split; intros; congruence || lra. Qed.

Lemma Rleb_false (a b : R) : Rleb a b = false <-> b < a.
Proof. unfold Rleb. destruct (Rle_dec a b); split; intros; congruence || lra. Qed.

Lemma n0_exact : @n0 R _ = 0.
Proof. reflexivity. Qed.

Lemma n1_exact : @n1 R _ = 1.
Proof. reflexivity. Qed.

(** On the reals [a || 0] is [a], a number is never NaN and always
    finite. *)
Lemma or0_exact (a : R) : or0 a = a.
Proof.
  unfold or0, n0. simpl. unfold Reqb.
  destruct (Req_dec_T a a) as [_ | H]; [| contradiction].
  destruct (Req_dec_T a 0) as [H | _]; simpl; [symmetry; exact H | reflexivity].
Qed.

Lemma isNaN_exact (a : R) : isNaN a = false.
Proof.
  unfold isNaN. simpl. unfold Reqb. destruct (Req_dec_T a a); [reflexivity | contradiction].
Qed.

Lemma isFinite_exact (a : R) : isFinite a = true.
Proof.
  unfold isFinite, n0. simpl. apply Reqb_true. lra.
Qed.

Lemma Vector_exact (x y z : R) : Vector x y z = mkVec x y z.
Proof. unfold Vector. rewrite !or0_exact. reflexivity. Qed.

Lemma copy_exact (v : Vec R) : copy_ v = v.
Proof. destruct v. unfold copy_, copy. simpl. apply Vector_exact. Qed.

Lemma vadd_exact (a b : Vec R) :
  vadd a b = mkVec (vx a + vx b) (vy a + vy b) (vz a + vz b).
Proof. unfold vadd. rewrite copy_exact, !or0_exact. reflexivity. Qed.

Lemma vsub_exact (a b : Vec R) :
  vsub a b = mkVec (vx a - vx b) (vy a - vy b) (vz a - vz b).
Proof. unfold vsub. rewrite copy_exact, !or0_exact. reflexivity. Qed.

Lemma vmult_exact (a : Vec R) (s : R) :
  vmult a s = mkVec (vx a * s) (vy a * s) (vz a * s).
Proof. unfold vmult. rewrite copy_exact, isFinite_exact. reflexivity. Qed.

Lemma dot_exact (a b : Vec R) :
  dot a b = vx a * vx b + vy a * vy b + vz a * vz b.
Proof. unfold dot. rewrite !or0_exact. reflexivity. Qed.

Lemma mag_exact (a : Vec R) :
  mag a = sqrt (vx a * vx a + vy a * vy a + vz a * vz a).
Proof. reflexivity. Qed.

Lemma dist_exact (a v : Vec R) :
  dist a v None
  = sqrt ((vx v - vx a) * (vx v - vx a) + (vy v - vy a) * (vy v - vy a)
          + (vz v - vz a) * (vz v - vz a)).
Proof.
  unfold dist. change (copy v None) with (copy_ v).
  change (copy a None) with (copy_ a).
  rewrite !copy_exact, vsub_exact, mag_exact. reflexivity.
Qed.

Lemma mag_nonneg (a : Vec R) : 0 <= mag a.
Proof. rewrite mag_exact. apply sqrt_pos. Qed.

Lemma dist_nonneg (a b : Vec R) (m : option string) : 0 <= dist a b m.
Proof. unfold dist. apply mag_nonneg. Qed.

Lemma segmentLengths_nonneg (samples : list (Vec R)) (closed : bool)
      (m : option string) :
  Forall (fun s => 0 <= s) (segmentLengths samples closed m).
Proof.
  unfold segmentLengths, mapi. apply mapi_from_Forall. intros a k.
  destruct (at_ samples (k + 1)); [apply dist_nonneg | rewrite n0_exact; lra].
Qed.

End ExactFacts.

Section OffsetsExact.
Import Exact.
Local Open Scope R_scope.

Lemma get_length_segments_coherent {num} {N : Num num} (p : PathLite num) :
  coherent p ->
  _length_segments (snd (get_length p))
  = derived_segments (_vertices_original p) (_use_z p) (_closed p)
                     (_length_metric p).
Proof.
  intros Hc. unfold get_length. simpl.
  destruct (coherent_cleanLength Hc) as [_ Hl].
  destruct (Hl (cleanLength_clean p)) as (_ & Hs & _).
  rewrite Hs.
  destruct (same_inputs_cleanLength p) as (-> & -> & -> & ->). reflexivity.
Qed.

Lemma get_nSegments_coherent {num} {N : Num num} (p : PathLite num) :
  coherent p ->
  fst (get_nSegments p)
  = (Z.of_nat (length (derived_vertices (_vertices_original p) (_use_z p)))
     - (if _closed p then 0 else 1))%Z.
Proof.
  intros Hc. unfold get_nSegments.
  pose proof (get_vertices_coherent Hc) as Hv.
  unfold get_vertices in *. simpl in *. rewrite Hv.
  destruct (same_inputs_cleanVertices p) as (_ & _ & -> & _). reflexivity.
Qed.

(** Offsets never decrease, because no segment has a negative length. *)
Lemma offsets_monotone (offs segs : list R) (n : nat) :
  (forall i, (S i < n)%nat -> nth (S i) offs 0 = nth i offs 0 + nth i segs 0) ->
  (forall i, 0 <= nth i segs 0) ->
  forall i j, (i <= j < n)%nat -> nth i offs 0 <= nth j offs 0.
Proof.
  intros Hstep Hpos i j [Hij Hj]. induction Hij as [| j Hij IH]; [lra |].
  rewrite Hstep by exact Hj. specialize (IH ltac:(lia)). specialize (Hpos j). lra.
Qed.

Lemma nth_nonneg (l : list R) (i : nat) :
  Forall (fun s => 0 <= s) l -> 0 <= nth i l 0.
Proof.
  intros H. revert i. induction H as [| a l Ha _ IH]; intros [| i]; simpl;
    try lra; auto.
Qed.

(** In exact arithmetic, on a path with at least one segment: the first
    offset is 0; the offsets are non-decreasing; consecutive offsets differ
    by exactly the length of the segment between them; the last offset plus
    the length of its segment is the total length, where on a closed path
    the segment of the last vertex is the wrap-around segment back to the
    first vertex, and on an open path the last vertex starts no segment, so
    that its offset is the total length (the last segment, one vertex
    earlier, ends there). *)
Lemma offsets_invariants_exact (vertices : list (PointLike R))
        (ops : list (PathOp R)) :
  let p := after vertices ops in
  let offs := fst (get_offsets p) in
  let segs := _length_segments (snd (get_length p)) in
  let len := fst (get_length p) in
  let n := length (fst (get_vertices p)) in
  (1 <= fst (get_nSegments p))%Z ->
  length offs = n
  /\ Z.of_nat (length segs) = fst (get_nSegments p)
  /\ nth 0 offs 0 = 0
  /\ (forall i j, (i <= j < n)%nat -> nth i offs 0 <= nth j offs 0)
  /\ (forall i, (S i < n)%nat -> nth (S i) offs 0 - nth i offs 0 = nth i segs 0)
  /\ (if _closed p
      then nth (n - 1) offs 0 + nth (n - 1) segs 0 = len
      else nth (n - 1) offs 0 = len
           /\ nth (n - 2) offs 0 + nth (n - 2) segs 0 = len).
Proof.
  intros p offs segs len n Hseg.
  pose proof (coherent_after vertices ops) as Hc. fold p in Hc.
  unfold offs, segs, len, n in *. clear offs segs len n.
  rewrite (get_nSegments_coherent Hc) in *.
  rewrite (get_offsets_coherent Hc), (get_length_segments_coherent Hc),
    (get_length_coherent Hc), (get_vertices_coherent Hc).
  destruct (derived_offsets_structure (_vertices_original p) (_use_z p)
              (_closed p) (_length_metric p) 0)
    as (Hlen & Hsegs & H0 & Hstep & Hclosed & Hopen).
  set (offs := derived_offsets _ _ _ _) in *.
  set (segs := derived_segments _ _ _ _) in *.
  set (n := length (derived_vertices _ _)) in *.
  assert (Hpos : forall i, 0 <= nth i segs 0).
  { intros i. apply nth_nonneg. apply segmentLengths_nonneg. }
  assert (Hn : (0 < n)%nat) by (destruct (_closed p); lia).
  split; [exact Hlen |]. split; [rewrite Hsegs; destruct (_closed p); lia |].
  split; [apply H0, Hn |].
  split; [apply offsets_monotone with (segs := segs); assumption |].
  split.
  - intros i Hi. rewrite (Hstep i Hi). simpl. lra.
  - destruct (_closed p) eqn:Hcl.
    + apply Hclosed; [reflexivity | exact Hn].
    + split; [apply Hopen; [reflexivity | exact Hn] |].
      rewrite <- (Hopen eq_refl Hn).
      replace (n - 1)%nat with (S (n - 2)) by lia.
      symmetry. apply Hstep. lia.
Qed.




End OffsetsExact.

(** ** Circular indexing and sorting *)

Section ArrayFacts.
Context {A : Type}.

(** For a positive length, [wrap] is the non-negative remainder. *)
Lemma wrapIndex_mod (a r : Z) : (0 < r)%Z -> wrapIndex a r = (a mod r)%Z.
Proof.
  intros Hr. unfold wrapIndex.
  assert (H : (0 <= a + - (- Z.abs a / r) * r)%Z).
  { pose proof (Z.mul_div_le (- Z.abs a) r Hr). lia. }
  rewrite Z.rem_mod_nonneg by lia.
  apply Z_mod_plus_full.
Qed.

Lemma at_mod (l : list A) (v : Z) :
  l <> [] ->
  at_ l v = nth_error l (Z.to_nat (v mod Z.of_nat (length l))).
Proof.
  intros Hl. unfold at_. destruct l as [| a l]; [contradiction |].
  rewrite wrapIndex_mod by (simpl length; lia). reflexivity.
Qed.

(** Inside the array, [at] is plain indexing. *)
Lemma at_inside (l : list A) (i : nat) :
  (i < length l)%nat -> at_ l (Z.of_nat i) = nth_error l i.
Proof.
  intros Hi. rewrite at_mod by (destruct l; [simpl in Hi; lia | discriminate]).
  rewrite Z.mod_small by lia. rewrite Nat2Z.id. reflexivity.
Qed.

Lemma at_some (l : list A) (v : Z) : l <> [] -> exists a, at_ l v = Some a.
Proof.
  intros Hl. rewrite at_mod by exact Hl.
  assert (Hlen : (0 < Z.of_nat (length l))%Z)
    by (destruct l; [contradiction | simpl length; lia]).
  pose proof (Z.mod_pos_bound v _ Hlen) as Hb.
  destruct (nth_error l (Z.to_nat (v mod Z.of_nat (length l)))) eqn:E;
    [eexists; reflexivity |].
  apply nth_error_None in E. lia.
Qed.

Lemma at_In (l : list A) (v : Z) (a : A) : at_ l v = Some a -> In a l.
Proof.
  unfold at_. destruct l; [discriminate |]. apply nth_error_In.
Qed.

Lemma at_head (a : A) (l : list A) : at_ (a :: l) 0 = Some a.
Proof. apply (at_inside (a :: l) (i := 0)). simpl. lia. Qed.

(** One past the end is the first element, one before the start the last
    one: the indexing is circular. *)
Lemma at_length (l : list A) : at_ l (Z.of_nat (length l)) = nth_error l 0.
Proof.
  destruct l as [| a l]; [reflexivity |].
  rewrite at_mod by discriminate. rewrite Z.mod_same by (simpl length; lia).
  reflexivity.
Qed.



(** Sorting keeps the elements. *)
Lemma sort_insert_In (gt : A -> A -> bool) (a x : A) (l : list A) :
  In x (sort_insert gt a l) <-> x = a \/ In x l.
Proof.
  induction l as [| b l IH]; simpl.
  - intuition.
  - destruct (gt a b); simpl; rewrite ?IH; intuition.
Qed.

Lemma sortBy_In (gt : A -> A -> bool) (x : A) (l : list A) :
  In x (sortBy gt l) <-> In x l.
Proof.
  induction l as [| a l IH]; simpl; [tauto |].
  unfold sortBy in IH. rewrite sort_insert_In, IH. intuition.
Qed.

Lemma sortBy_nonempty (gt : A -> A -> bool) (l : list A) :
  l <> [] -> sortBy gt l <> [].
Proof.
  destruct l as [| a l]; [contradiction |]. intros _ H.
  assert (Hin : In a (sortBy gt (a :: l))) by (apply sortBy_In; left; reflexivity).
  rewrite H in Hin. exact Hin.
Qed.

(** The element a sort puts first is minimal for any key the comparison
    respects. *)
Lemma sortBy_head_min (gt : A -> A -> bool) (key : A -> R) :
  (forall a b, gt a b = true -> (key b <= key a)%R) ->
  (forall a b, gt a b = false -> (key a <= key b)%R) ->
  forall l h t, sortBy gt l = h :: t ->
                forall x, In x l -> (key h <= key x)%R.
Proof.
  intros Hgt Hle.
  assert (Hins : forall a l,
             (forall h t, l = h :: t -> forall x, In x l -> (key h <= key x)%R) ->
             forall h t, sort_insert gt a l = h :: t ->
                         forall x, x = a \/ In x l -> (key h <= key x)%R).
  { intros a l Hl h t E x Hx. destruct l as [| b l]; simpl in E.
    - injection E as <- <-. destruct Hx as [-> | []]. lra.
    - destruct (gt a b) eqn:G; injection E as <- <-.
      + destruct Hx as [-> | Hx]; [apply Hgt, G |].
        apply (Hl b l eq_refl), Hx.
      + destruct Hx as [-> | Hx]; [lra |].
        apply Rle_trans with (key b); [apply Hle, G |].
        apply (Hl b l eq_refl), Hx. }
  induction l as [| a l IH]; intros h t E x Hx; [destruct Hx |].
  simpl in E. refine (Hins a (sortBy gt l) _ h t E x _).
  - intros h' t' E' y Hy. apply (IH h' t' E'). apply sortBy_In in Hy. exact Hy.
  - destruct Hx as [-> | Hx]; [left; reflexivity | right; apply sortBy_In, Hx].
Qed.

End ArrayFacts.

(** ** The nearest location, in exact arithmetic *)

Section NearestExact.
Import Exact.
Local Open Scope R_scope.

Lemma sum_squares_zero (x y z : R) :
  x * x + y * y + z * z = 0 -> x = 0 /\ y = 0 /\ z = 0.
Proof. intros H. repeat split; nra. Qed.

(** [norm()] returns the zero vector for the zero vector and a unit vector
    otherwise. *)
Lemma norm_exact (v : Vec R) :
  exists (u : Vec R) (L : R),
    norm v = u /\ 0 <= L
    /\ vx v = L * vx u /\ vy v = L * vy u /\ vz v = L * vz u
    /\ (vx u * vx u + vy u * vy u + vz u * vz u = 1
        \/ (vx u = 0 /\ vy u = 0 /\ vz u = 0 /\ L = 0)).
Proof.
  destruct v as [x y z]. unfold norm, normalize.
  rewrite copy_exact, mag_exact. cbn [vx vy vz].
  set (S := x * x + y * y + z * z).
  assert (HS : 0 <= S) by (unfold S; nra).
  pose proof (sqrt_sqrt S HS) as HL. pose proof (sqrt_pos S) as HL0.
  set (L := sqrt S) in *.
  change (@neqb R exact L n0) with (Reqb L 0).
  unfold Reqb. destruct (Req_dec_T L 0) as [E | NE].
  - exists (mkVec x y z), 0. cbn [negb vx vy vz].
    rewrite E in HL. assert (HS0 : x * x + y * y + z * z = 0) by (fold S; lra).
    destruct (sum_squares_zero HS0) as (Hx & Hy & Hz).
    repeat split; lra.
  - exists (mkVec (x * (1 / L)) (y * (1 / L)) (z * (1 / L))), L.
    cbn [negb vx vy vz]. rewrite vmult_exact. cbn [vx vy vz].
    change (@n1 R exact) with 1. change (@ndiv R exact 1 L) with (1 / L).
    repeat split; try lra; try (field; exact NE).
    left. replace (x * (1 / L) * (x * (1 / L)) + y * (1 / L) * (y * (1 / L))
                   + z * (1 / L) * (z * (1 / L)))
            with (S / (L * L)) by (unfold S; field; exact NE).
    rewrite <- HL. field. exact NE.
Qed.

(** Normalizing what [norm()] returned changes nothing. *)
Lemma normalize_norm_exact (u : Vec R) :
  vx u * vx u + vy u * vy u + vz u * vz u = 1
  \/ (vx u = 0 /\ vy u = 0 /\ vz u = 0) ->
  normalize (copy_ u) = u.
Proof.
  intros H. rewrite copy_exact. unfold normalize. rewrite copy_exact, mag_exact.
  change (@neqb R exact ?a n0) with (Reqb a 0). unfold Reqb.
  destruct H as [H | (Hx & Hy & Hz)].
  - rewrite H, sqrt_1. destruct (Req_dec_T 1 0) as [E | _]; [lra |].
    cbn [negb]. rewrite vmult_exact. destruct u as [x y z]. cbn [vx vy vz].
    change (@n1 R exact) with 1. change (@ndiv R exact 1 1) with (1 / 1).
    f_equal; field.
  - rewrite Hx, Hy, Hz.
    replace (0 * 0 + 0 * 0 + 0 * 0) with 0 by ring. rewrite sqrt_0.
    destruct (Req_dec_T 0 0) as [_ | NE]; [reflexivity | contradiction].
Qed.

(** [project(b, false)]: the component of [w] along the direction of
    [v]. *)
Lemma project_exact (w v : Vec R) :
  exists (u : Vec R) (L : R),
    0 <= L
    /\ vx v = L * vx u /\ vy v = L * vy u /\ vz v = L * vz u
    /\ (vx u * vx u + vy u * vy u + vz u * vz u = 1
        \/ (vx u = 0 /\ vy u = 0 /\ vz u = 0 /\ L = 0))
    /\ project w v false
       = let s := vx u * vx w + vy u * vy w + vz u * vz w in
         mkVec (vx u * s) (vy u * s) (vz u * s).
Proof.
  destruct (norm_exact v) as (u & L & Hu & HL & Hx & Hy & Hz & Hunit).
  exists u, L. repeat (split; [assumption |]).
  unfold project, setMag. rewrite Hu, (copy_exact w).
  rewrite normalize_norm_exact by (destruct Hunit as [H | (A & B & C & _)]; auto).
  rewrite vmult_exact, dot_exact. unfold vset. cbn [vx vy vz].
  rewrite !or0_exact. reflexivity.
Qed.

Lemma sortBy_two (A : Type) (gt : A -> A -> bool) (a b : A) :
  sortBy gt [a; b] = if gt a b then [b; a] else [a; b].
Proof. reflexivity. Qed.

(** The distance [queryPointToSegmentAB] reports is at most the distance
    from the point to either end of the segment. *)
Lemma query_le_endpoints (p a b : Vec R) :
  snd (queryPointToSegmentAB p a b) <= dist p a None
  /\ snd (queryPointToSegmentAB p a b) <= dist p b None.
Proof.
  unfold queryPointToSegmentAB, queryPointToSegmentOV.
  destruct (projectsInside p a (vsub b a)).
  - cbn [snd].
    destruct (project_exact (vsub p a) (vsub b a))
      as (u & L & HL & Hx & Hy & Hz & Hunit & ->).
    rewrite !dist_exact. cbv zeta. rewrite vadd_exact.
    rewrite !vsub_exact in *. cbn [vx vy vz] in *.
    destruct p as [px py pz], a as [ax ay az], b as [bx by' bz],
             u as [ux uy uz]. cbn [vx vy vz] in *.
    set (s := ux * (px - ax) + uy * (py - ay) + uz * (pz - az)).
    split; apply sqrt_le_1_alt.
    + destruct Hunit as [HU | (-> & -> & -> & _)]; [| nra].
      assert (E : (ux * s + ax - px) * (ux * s + ax - px)
                  + (uy * s + ay - py) * (uy * s + ay - py)
                  + (uz * s + az - pz) * (uz * s + az - pz)
                  = (ax - px) * (ax - px) + (ay - py) * (ay - py)
                    + (az - pz) * (az - pz)
                    + s * s * (ux * ux + uy * uy + uz * uz - 2))
        by (unfold s; ring).
      rewrite E, HU. clearbody s.
      pose proof (Rle_0_sqr s) as Hsq. unfold Rsqr in Hsq. nra.
    + assert (Hbx : bx = ax + L * ux) by lra.
      assert (Hby : by' = ay + L * uy) by lra.
      assert (Hbz : bz = az + L * uz) by lra.
      subst bx by' bz.
      destruct Hunit as [HU | (-> & -> & -> & ->)]; [| nra].
      assert (E : (ax + L * ux - px) * (ax + L * ux - px)
                  + (ay + L * uy - py) * (ay + L * uy - py)
                  + (az + L * uz - pz) * (az + L * uz - pz)
                  - ((ux * s + ax - px) * (ux * s + ax - px)
                     + (uy * s + ay - py) * (uy * s + ay - py)
                     + (uz * s + az - pz) * (uz * s + az - pz))
                  = (L * L - s * s) * (ux * ux + uy * uy + uz * uz)
                    - 2 * L * s + 2 * s * s)
        by (unfold s; ring).
      rewrite HU in E. clear Hx Hy Hz.
      match goal with
      | |- ?X <= ?Y => set (lhs := X) in *; set (rhs := Y) in *
      end.
      clearbody lhs rhs s. clear HU.
      pose proof (Rle_0_sqr (L - s)) as Hsq. unfold Rsqr in Hsq. nra.
  - cbn [map]. rewrite sortBy_two. cbn [snd].
    assert (Hb : vadd a (vsub b a) = b).
    { rewrite vsub_exact, vadd_exact. destruct a, b. cbn [vx vy vz].
      f_equal; ring. }
    rewrite Hb, copy_exact.
    change (@nltb R exact n0 ?x) with (Rltb 0 x).
    change (@nsub R exact ?x ?y) with (x - y).
    destruct (Rltb 0 (dist p a None - dist p b None)) eqn:G; cbn [snd].
    + apply Rltb_true in G. lra.
    + apply Rltb_false in G. lra.
Qed.

End NearestExact.

Section CleanFacts.
Context {num : Type} {N : Num num}.

Lemma cleanVertices_idem (p : PathLite num) :
  _cleanVertices (_cleanVertices p) = _cleanVertices p.
Proof.
  unfold _cleanVertices at 1. rewrite cleanVertices_clean. reflexivity.
Qed.

Lemma cleanLength_idem (p : PathLite num) :
  _cleanLength (_cleanLength p) = _cleanLength p.
Proof.
  unfold _cleanLength at 1. rewrite cleanLength_clean. reflexivity.
Qed.

Lemma cleanVertices_cleanLength (p : PathLite num) :
  coherent p -> _cleanVertices (_cleanLength p) = _cleanLength p.
Proof.
  intros Hc. destruct (coherent_cleanLength Hc) as [_ Hl].
  destruct (Hl (cleanLength_clean p)) as (Hvd & _).
  unfold _cleanVertices at 1. rewrite Hvd. reflexivity.
Qed.

Lemma vertices_cleanVertices (p : PathLite num) :
  coherent p ->
  _vertices (_cleanVertices p)
  = derived_vertices (_vertices_original p) (_use_z p).
Proof. intros Hc. apply (get_vertices_coherent Hc). Qed.

Lemma vertices_cleanLength (p : PathLite num) :
  coherent p ->
  _vertices (_cleanLength p)
  = derived_vertices (_vertices_original p) (_use_z p).
Proof.
  intros Hc. rewrite <- (cleanVertices_cleanLength Hc).
  rewrite (vertices_cleanVertices (coherent_cleanLength Hc)).
  destruct (same_inputs_cleanLength p) as (-> & -> & _). reflexivity.
Qed.

Lemma closed_cleanVertices (p : PathLite num) :
  _closed (_cleanVertices p) = _closed p.
Proof. apply same_inputs_cleanVertices. Qed.

Lemma closed_cleanLength (p : PathLite num) :
  _closed (_cleanLength p) = _closed p.
Proof. apply same_inputs_cleanLength. Qed.

(** A [map] whose function never throws. *)
Lemma mapM_Ret {A B} (f : A -> outcome B) (g : A -> B) (l : list A) :
  (forall a, In a l -> f a = Ret (g a)) -> mapM f l = Ret (map g l).
Proof.
  induction l as [| a l IH]; intros H; [reflexivity |].
  simpl. rewrite (H a (or_introl eq_refl)). simpl.
  rewrite IH by (intros b Hb; apply H; right; exact Hb). reflexivity.
Qed.

Lemma range_nonneg (n : nat) :
  range (Z.of_nat n) = Ret (map Z.of_nat (seq 0 n)).
Proof.
  unfold range. destruct (Z.ltb_spec (Z.of_nat n) 0); [lia |].
  rewrite Nat2Z.id. reflexivity.
Qed.

End CleanFacts.

Section NearestLocation.
Import Exact.
Local Open Scope R_scope.

(** The locations [getNearestLocation] builds, one per segment. *)
Lemma candidates (vs : list (Vec R)) (pt : Vec R) (idxs : list Z) :
  vs <> [] ->
  exists locs,
    mapM (fun i =>
            obind (deref (at_ vs i)) (fun a =>
            obind (deref (at_ vs (i + 1))) (fun b =>
            let '(q, d) := queryPointToSegmentAB pt a b in
            Ret (mkLoc q d i None)))) idxs = Ret locs
    /\ Forall2 (fun i loc =>
                  index loc = i
                  /\ exists a b, at_ vs i = Some a /\ at_ vs (i + 1) = Some b
                                 /\ distance loc
                                    = snd (queryPointToSegmentAB pt a b))
               idxs locs.
Proof.
  intros Hvs. induction idxs as [| i idxs (locs & Hm & HF)].
  - exists []. split; [reflexivity | constructor].
  - destruct (at_some i Hvs) as (a & Ha).
    destruct (at_some (i + 1) Hvs) as (b & Hb).
    exists (mkLoc (fst (queryPointToSegmentAB pt a b))
                  (snd (queryPointToSegmentAB pt a b)) i None :: locs).
    split.
    + simpl. rewrite Ha, Hb. simpl.
      destruct (queryPointToSegmentAB pt a b) as [q d]. simpl.
      rewrite Hm. reflexivity.
    + constructor; [| exact HF]. split; [reflexivity |].
      exists a, b. repeat split; assumption.
Qed.

Lemma Forall2_In_left {A B} (P : A -> B -> Prop) (l : list A) (l' : list B)
      (a : A) :
  Forall2 P l l' -> In a l -> exists b, In b l' /\ P a b.
Proof.
  induction 1 as [| x y l l' Hxy _ IH]; intros Hin; [destruct Hin |].
  destruct Hin as [-> | Hin].
  - exists y. split; [left; reflexivity | exact Hxy].
  - destruct (IH Hin) as (b & Hb & Hab). exists b. split; [right |]; assumption.
Qed.

Lemma Forall2_In_right {A B} (P : A -> B -> Prop) (l : list A) (l' : list B)
      (b : B) :
  Forall2 P l l' -> In b l' -> exists a, In a l /\ P a b.
Proof.
  induction 1 as [| x y l l' Hxy _ IH]; intros Hin; [destruct Hin |].
  destruct Hin as [-> | Hin].
  - exists x. split; [left; reflexivity | exact Hxy].
  - destruct (IH Hin) as (a & Ha & Hab). exists a. split; [right |]; assumption.
Qed.

(** The sort of [getNearestLocation] is by distance first. *)
Lemma locationAfter_true (a b : CurveLocation R) :
  locationAfter a b = true -> distance b <= distance a.
Proof.
  unfold locationAfter.
  change (@neqb R exact ?x ?y) with (Reqb x y).
  change (@nltb R exact n0 ?x) with (Rltb 0 x).
  change (@nsub R exact ?x ?y) with (x - y).
  destruct (Reqb (distance a) (distance b)) eqn:E.
  - apply Reqb_true in E. lra.
  - intros H. apply Rltb_true in H. lra.
Qed.

Lemma locationAfter_false (a b : CurveLocation R) :
  locationAfter a b = false -> distance a <= distance b.
Proof.
  unfold locationAfter.
  change (@neqb R exact ?x ?y) with (Reqb x y).
  change (@nltb R exact n0 ?x) with (Rltb 0 x).
  change (@nsub R exact ?x ?y) with (x - y).
  destruct (Reqb (distance a) (distance b)) eqn:E.
  - apply Reqb_true in E. lra.
  - intros H. apply Rltb_false in H. lra.
Qed.

End NearestLocation.

Section NearestTheorem.
Import Exact.
Local Open Scope R_scope.

(** C7 (amended): on a path with at least one segment, in exact arithmetic,
    [getNearestLocation] returns a location (it neither throws nor returns
    [null]), and the distance of that location is at most the distance from
    the query point to every vertex of the path. *)
Theorem nearest_not_farther_than_vertices (vertices : list (PointLike R))
        (ops : list (PathOp R)) (q : PointLike R) :
  let p := after vertices ops in
  (1 <= fst (get_nSegments p))%Z ->
  exists cl,
    fst (getNearestLocation q p) = Ret (Some cl)
    /\ forall v, In v (fst (get_vertices p)) ->
                 distance cl <= dist (pointArg q) v None.
Proof.
  intros p Hseg.
  pose proof (coherent_after vertices ops) as Hc. fold p in Hc.
  rewrite (get_nSegments_coherent Hc) in Hseg.
  rewrite (get_vertices_coherent Hc).
  unfold getNearestLocation, get_nSegments, get_length, get_vertices.
  rewrite !cleanVertices_idem.
  rewrite (cleanVertices_cleanLength (coherent_cleanVertices Hc)).
  rewrite !cleanLength_idem.
  rewrite (vertices_cleanLength (coherent_cleanVertices Hc)).
  rewrite (vertices_cleanVertices Hc).
  rewrite !closed_cleanVertices.
  destruct (same_inputs_cleanVertices p) as (Ho & Hz & _). rewrite Ho, Hz.
  set (vs := derived_vertices (_vertices_original p) (_use_z p)) in *.
  set (pt := pointArg q).
  assert (Hvs : vs <> []) by (destruct vs; [simpl in Hseg; destruct (_closed p); lia | discriminate]).
  set (m := (length vs - (if _closed p then 0 else 1))%nat).
  assert (Hm : (1 <= m <= length vs)%nat) by (unfold m; destruct (_closed p); lia).
  replace (Z.of_nat (length vs) - (if _closed p then 0 else 1))%Z
    with (Z.of_nat m) by (unfold m; destruct (_closed p); lia).
  rewrite range_nonneg. cbn [obind].
  destruct (candidates pt (map Z.of_nat (seq 0 m)) Hvs) as (locs & -> & HF).
  assert (Hlocs : locs <> []).
  { destruct m as [| m']; [lia |]. inversion HF; discriminate. }
  destruct (sortBy locationAfter locs) as [| h t] eqn:Es;
    [exfalso; exact (sortBy_nonempty locationAfter Hlocs Es) |].
  change 0%Z with (Z.of_nat 0) at 1.
  rewrite (at_inside (h :: t) (i := 0)) by (simpl; lia). cbn [nth_error].
  assert (Hh : In h locs) by (apply (sortBy_In locationAfter); rewrite Es; left; reflexivity).
  destruct (Forall2_In_right h HF Hh) as (i & Hi & Hidx & _).
  apply in_map_iff in Hi. destruct Hi as (k & <- & Hk). apply in_seq in Hk.
  destruct (@at_some _ (n0 :: _length_segments_cumulative
                                (_cleanLength (_cleanVertices p)))
                     (index h) ltac:(discriminate)) as (o & ->).
  rewrite Hidx, Nat2Z.id.
  destruct (nth_error vs k) as [vk |] eqn:Ek;
    [| apply nth_error_None in Ek; lia].
  eexists. split; [reflexivity |]. cbn [distance].
  intros v Hv.
  assert (Hmin : forall loc, In loc locs -> distance h <= distance loc).
  { intros loc Hloc.
    exact (sortBy_head_min locationAfter distance locationAfter_true
             locationAfter_false locs Es loc Hloc). }
  apply In_nth_error in Hv. destruct Hv as (j & Hj).
  assert (Hjlen : (j < length vs)%nat) by (apply nth_error_Some; congruence).
  destruct (Nat.lt_ge_cases j m) as [Hjm | Hjm].
  - (* [v] starts segment [j] *)
    assert (Hin : In (Z.of_nat j) (map Z.of_nat (seq 0 m)))
      by (apply in_map, in_seq; lia).
    destruct (Forall2_In_left _ HF Hin) as (loc & Hloc & _ & a & b & Ha & _ & Hd).
    rewrite at_inside in Ha by exact Hjlen.
    assert (a = v) by congruence. subst a.
    apply Rle_trans with (distance loc); [apply Hmin, Hloc |].
    rewrite Hd. apply query_le_endpoints.
  - (* the path is open and [v] is its last vertex: it ends segment [j - 1] *)
    assert (Hj1 : (j = m /\ 1 <= j)%nat) by (unfold m in *; destruct (_closed p); lia).
    destruct Hj1 as [-> Hm1].
    assert (Hin : In (Z.of_nat (m - 1)) (map Z.of_nat (seq 0 m)))
      by (apply in_map, in_seq; lia).
    destruct (Forall2_In_left _ HF Hin) as (loc & Hloc & _ & a & b & _ & Hb & Hd).
    replace (Z.of_nat (m - 1) + 1)%Z with (Z.of_nat m) in Hb by lia.
    rewrite at_inside in Hb by exact Hjlen.
    assert (b = v) by congruence. subst b.
    apply Rle_trans with (distance loc); [apply Hmin, Hloc |].
    rewrite Hd. apply query_le_endpoints.
Qed.

(** The theorem at the open path (0,0),(1,0) and the query point (0,1). *)
Lemma nearest_not_farther_than_vertices_witness :
  let p := after [PVec (pt 0 0); PVec (pt 1 0)] [] in
  (1 <= fst (get_nSegments p))%Z
  /\ exists cl,
       fst (getNearestLocation (PVec (pt 0 1)) p) = Ret (Some cl)
       /\ forall v, In v (fst (get_vertices p)) ->
                    distance cl <= dist (pt 0 1) v None.
Proof.
  cbv zeta. split; [simpl; lia |].
  apply (nearest_not_farther_than_vertices
           [PVec (pt 0 0); PVec (pt 1 0)] [] (PVec (pt 0 1))).
  simpl; lia.
Defined.

End NearestTheorem.

(** ** Rounding: where doubles and exact arithmetic part *)


(** C7 (counterexample): on the open path (-2,-2),(0,1) the query point
    (0,1) is a vertex, at distance 0 from itself, and the location
    [getNearestLocation] returns for it has the distance
    6.28e-16, which is not [<= 0]: the projection onto the segment is
    rounded. *)
Lemma nearest_distance_is_rounded :
  let p := Scenarios.slanted in
  let q := Binary64.pt 0 1 in
  exists cl v,
    fst (getNearestLocation q p) = Ret (Some cl)
    /\ In v (fst (get_vertices p))
    /\ nleb (distance cl) (dist (pointArg q) v None) = false.
Proof.
  eexists. exists (mkVec 0%float 1%float 0%float).
  split; [vm_compute; reflexivity |].
  split; [vm_compute; right; left; reflexivity |].
  vm_compute. reflexivity.
Qed.

(** ** Reducing a path *)

Section SubseqFacts.
Context {A : Type}.

Lemma subseq_refl (l : list A) : subseq l l.
Proof. induction l; constructor; assumption. Qed.

Lemma subseq_trans (k l m : list A) : subseq k l -> subseq l m -> subseq k m.
Proof.
  intros Hkl Hlm. revert k Hkl.
  induction Hlm as [| a l m _ IH | a l m _ IH]; intros k Hkl.
  - exact Hkl.
  - constructor. apply IH, Hkl.
  - inversion Hkl; subst; constructor; apply IH; assumption.
Qed.

Lemma subseq_app_same (p k l : list A) : subseq k l -> subseq (p ++ k) (p ++ l).
Proof. intros H. induction p; simpl; [exact H | constructor; assumption]. Qed.



Lemma subseq_length (k l : list A) : subseq k l -> (length k <= length l)%nat.
Proof. induction 1; simpl; lia. Qed.


End SubseqFacts.

Section ReduceFacts.
Context {num : Type} {N : Num num}.

Lemma or0_n0 : or0 (n0 (num := num)) = n0.
Proof. unfold or0. destruct (_ && _); reflexivity. Qed.

Lemma or0_idem (a : num) : or0 (or0 a) = or0 a.
Proof.
  unfold or0. destruct (neqb a a && negb (neqb a n0)) eqn:E.
  - rewrite E. reflexivity.
  - clear E. destruct (_ && _); reflexivity.
Qed.

Lemma copy_copy (v : Vec num) : copy_ (copy_ v) = copy_ v.
Proof.
  destruct v. unfold copy_, copy, Vector. simpl. rewrite !or0_idem. reflexivity.
Qed.

Lemma workingCopy_true (v : Vec num) :
  workingCopy true v = mkVec (or0 (vx v)) (or0 (vy v)) (or0 (vz v)).
Proof. reflexivity. Qed.

(** Without [useZ] the working copy keeps x and y and has z = 0. *)
Lemma workingCopy_false (v : Vec num) :
  workingCopy false v = mkVec (or0 (vx v)) (or0 (vy v)) n0.
Proof.
  change (workingCopy false v)
    with (mkVec (or0 (or0 (vx v))) (or0 (or0 (vy v))) (or0 n0)).
  rewrite !or0_idem, or0_n0. reflexivity.
Qed.

Lemma copy_mkVec (x y z : num) :
  copy_ (mkVec x y z) = mkVec (or0 x) (or0 y) (or0 z).
Proof. reflexivity. Qed.

(** A working copy is its own copy and its own working copy. *)
Lemma copy_workingCopy (useZ : bool) (v : Vec num) :
  copy_ (workingCopy useZ v) = workingCopy useZ v.
Proof.
  destruct useZ; rewrite ?workingCopy_true, ?workingCopy_false, copy_mkVec,
    ?or0_idem, ?or0_n0; reflexivity.
Qed.

Lemma workingCopy_idem (useZ : bool) (v : Vec num) :
  workingCopy useZ (workingCopy useZ v) = workingCopy useZ v.
Proof.
  destruct useZ; rewrite ?workingCopy_true, ?workingCopy_false; cbn [vx vy vz];
    rewrite ?or0_idem; reflexivity.
Qed.

Lemma settled_derived (original : list (Vec num)) (useZ : bool) :
  settled useZ (derived_vertices original useZ).
Proof.
  unfold settled, derived_vertices. apply Forall_forall. intros v Hv.
  apply in_map_iff in Hv. destruct Hv as (w & <- & _).
  split; [apply copy_workingCopy | apply workingCopy_idem].
Qed.



Lemma settled_map_workingCopy (useZ : bool) (l : list (Vec num)) :
  settled useZ l -> map (workingCopy useZ) l = l.
Proof.
  induction 1 as [| v l [_ Hv] _ IH]; [reflexivity |].
  simpl. rewrite Hv, IH. reflexivity.
Qed.






End ReduceFacts.

Section ReduceTheorems.
Context {num : Type} {N : Num num}.










End ReduceTheorems.



(** ** Smoothing reads its neighbours circularly *)

Section Smoothing.
Context {num : Type} {N : Num num} {T : Trig num}.







End Smoothing.

Section SmoothingNeighbours.
Context {num : Type} {N : Num num} {T : Trig num}.
Local Open Scope num_scope.




End SmoothingNeighbours.

(** ** What a path shares with its callers *)

Section Sharing.
Context {num : Type} {N : Num num}.

Lemma set_nth_length {A} (i : nat) (x : A) (l : list A) :
  length (set_nth i x l) = length l.
Proof.
  revert i. induction l as [| a l IH]; intros [| i]; simpl;
    rewrite ?IH; reflexivity.
Qed.

Lemma nth_set_nth_other {A} (i j : nat) (x d : A) (l : list A) :
  i <> j -> nth j (set_nth i x l) d = nth j l d.
Proof.
  revert i j. induction l as [| a l IH]; intros [| i] [| j] Hij; simpl;
    try reflexivity; try contradiction.
  apply IH. lia.
Qed.

Lemma agree_from_refl (nv na : nat) (h : Heap num) : agree_from nv na h h.
Proof. repeat split. Qed.

Lemma agree_from_mutate (h h1 h2 : Heap num) (m : Mutation num) :
  touches_only h m ->
  agree_from (length (vectors h)) (length (arrays h)) h1 h2 ->
  agree_from (length (vectors h)) (length (arrays h)) h1 (mutate h2 m).
Proof.
  intros Hm (Hv & Ha & Hrv & Hra). destruct m as [l v | a els]; simpl in Hm.
  - repeat split; simpl; try assumption.
    + rewrite set_nth_length. exact Hv.
    + intros l' Hl'. rewrite <- (Hrv l' Hl'). unfold read_vector. simpl.
      apply nth_set_nth_other. lia.
  - repeat split; simpl; try assumption.
    + rewrite set_nth_length. exact Ha.
    + intros a' Ha'. rewrite <- (Hra a' Ha'). unfold read_array. simpl.
      apply nth_set_nth_other. lia.
Qed.

Lemma agree_from_mutations (h h1 : Heap num) (ms : list (Mutation num)) :
  Forall (touches_only h) ms ->
  agree_from (length (vectors h)) (length (arrays h)) h1
             (fold_left mutate ms h1).
Proof.
  intros Hms.
  assert (G : forall h2,
             agree_from (length (vectors h)) (length (arrays h)) h1 h2 ->
             agree_from (length (vectors h)) (length (arrays h)) h1
                        (fold_left mutate ms h2)).
  { induction Hms as [| m ms Hm _ IH]; intros h2 H2; [exact H2 |].
    simpl. apply IH. apply agree_from_mutate; assumption. }
  apply G, agree_from_refl.
Qed.

(** A new array holds what it was allocated with. *)
Lemma contents_alloc_array (vs : list (Vec num)) (h : Heap num) :
  contents (snd (alloc_array vs h)) (fst (alloc_array vs h)) = vs.
Proof.
  unfold contents, read_array, read_vector, alloc_array. simpl.
  rewrite app_nth2 by lia. rewrite Nat.sub_diag. simpl.
  apply nth_ext with (d := Vector0) (d' := Vector0).
  - rewrite length_map, length_seq. reflexivity.
  - intros i Hi. rewrite length_map, length_seq in Hi.
    rewrite (nth_indep _ Vector0 (nth (nth 0 [] 0%nat) (vectors h ++ vs) Vector0))
      by (rewrite length_map, length_seq; exact Hi).
    rewrite (map_nth (fun l => nth l (vectors h ++ vs) Vector0)).
    rewrite seq_nth by exact Hi.
    rewrite app_nth2 by lia. f_equal. lia.
Qed.

(** Reading a path whose two dirty flags are set rebuilds everything from
    the originals. *)
Lemma observe_dirty (o : PathObj num) (h : Heap num) :
  o_vertices_dirty o = true -> o_length_dirty o = true ->
  observe o h
  = let vs := map (workingCopy (o_use_z o))
                  (contents h (o_vertices_original o)) in
    (vs, fst (calcPathLength vs (o_closed o) (o_length_metric o))).
Proof.
  intros Hv Hl. unfold observe, obj_get_length, obj_cleanLength,
    obj_get_vertices, obj_cleanVertices.
  rewrite Hv.
  set (vs := map (workingCopy (o_use_z o)) (contents h (o_vertices_original o))).
  pose proof (contents_alloc_array vs h) as Hc.
  destruct (alloc_array vs h) as [a h1]. simpl in Hc. simpl.
  rewrite Hl. simpl. rewrite Hc. reflexivity.
Qed.

End Sharing.

Section SharingTheorems.
Context {num : Type} {N : Num num}.

(** The vertices setter copies: once [path.vertices = value] has run,
    nothing the caller does to the objects that existed before the call
    (the array [value] and its vectors among them) changes what the path
    returns. *)
Lemma setter_copies (h : Heap num) (o : PathObj num) (value : nat)
      (ms : list (Mutation num)) :
  Forall (touches_only h) ms ->
  let o1 := fst (obj_set_vertices value o h) in
  let h1 := snd (obj_set_vertices value o h) in
  observe o1 (fold_left mutate ms h1) = observe o1 h1
  /\ fst (observe o1 h1)
     = map (workingCopy (o_use_z o)) (map copy_ (contents h value)).
Proof.
  intros Hms o1 h1.
  pose proof (agree_from_mutations h1 Hms) as (_ & _ & Hrv & Hra).
  set (h2 := fold_left mutate ms h1) in *.
  assert (Hc1 : contents h1 (o_vertices_original o1)
                = map copy_ (contents h value)).
  { unfold o1, h1, obj_set_vertices.
    pose proof (contents_alloc_array (map copy_ (contents h value)) h) as Hc.
    destruct (alloc_array (map copy_ (contents h value)) h). exact Hc. }
  assert (Hc2 : contents h2 (o_vertices_original o1)
                = contents h1 (o_vertices_original o1)).
  { unfold contents. rewrite Hra by (unfold o1, obj_set_vertices; simpl; lia).
    apply map_ext_in. intros l Hl. apply Hrv.
    unfold o1, h1, obj_set_vertices, read_array in Hl. simpl in Hl.
    rewrite app_nth2 in Hl by lia. rewrite Nat.sub_diag in Hl. simpl in Hl.
    apply in_seq in Hl. lia. }
  assert (Hd : o_vertices_dirty o1 = true /\ o_length_dirty o1 = true)
    by (split; reflexivity).
  destruct Hd as [Hdv Hdl].
  rewrite (observe_dirty o1 h2 Hdv Hdl), (observe_dirty o1 h1 Hdv Hdl).
  cbv zeta. rewrite Hc2, Hc1.
  split; reflexivity.
Qed.

(** The vertices getter does not copy: on a path whose vertex cache is
    clean it returns the address of the cache, the same one on every
    call, and leaves the heap as it is. *)
Lemma getter_returns_cache (o : PathObj num) (h : Heap num) :
  o_vertices_dirty o = false ->
  obj_get_vertices o h = (o_vertices o, (o, h)).
Proof.
  intros Hd. unfold obj_get_vertices, obj_cleanVertices. rewrite Hd.
  reflexivity.
Qed.

(** C9 (amended): the setter copies what it is given, so later mutations of
    the caller's list and vectors are not seen by the path; the getter
    returns the path's own cache, so what the caller then writes into the
    heap (a vector of the cache included) is what the next read of the
    vertices returns. *)
Theorem vertices_copied_on_write_shared_on_read :
  (forall (h : Heap num) (o : PathObj num) (value : nat)
          (ms : list (Mutation num)),
      Forall (touches_only h) ms ->
      let o1 := fst (obj_set_vertices value o h) in
      let h1 := snd (obj_set_vertices value o h) in
      observe o1 (fold_left mutate ms h1) = observe o1 h1
      /\ fst (observe o1 h1)
         = map (workingCopy (o_use_z o)) (map copy_ (contents h value)))
  /\ (forall (o : PathObj num) (h : Heap num) (m : Mutation num),
         o_vertices_dirty o = false ->
         obj_get_vertices o h = (o_vertices o, (o, h))
         /\ fst (observe o (mutate h m)) = contents (mutate h m) (o_vertices o)).
Proof.
  split.
  - apply setter_copies.
  - intros o h m Hd. split; [apply (getter_returns_cache o h Hd) |].
    unfold observe. rewrite (getter_returns_cache o (mutate h m) Hd). reflexivity.
Qed.

End SharingTheorems.

(** The setter half at the caller's heap of the scenario, for the
    assignment [array[0].x = 7] after [new PathLite(array)]. *)
Lemma vertices_copied_on_write_shared_on_read_witness :
  let h := ObjectScenario.callerHeap in
  let o := mkObj 0 0 false false false None (@n0 float _) [] [] false in
  let ms := [WriteVector 0 (mkVec 7%float 0%float 0%float)] in
  Forall (touches_only h) ms
  /\ observe (fst (obj_set_vertices 0 o h))
             (fold_left mutate ms (snd (obj_set_vertices 0 o h)))
     = observe (fst (obj_set_vertices 0 o h)) (snd (obj_set_vertices 0 o h)).
Proof.
  cbv zeta.
  assert (H : Forall (touches_only ObjectScenario.callerHeap)
                     [WriteVector 0 (mkVec 7%float 0%float 0%float)])
    by (repeat constructor).
  split; [exact H |].
  exact (proj1 (proj1 vertices_copied_on_write_shared_on_read
                  ObjectScenario.callerHeap
                  (mkObj 0 0 false false false None (@n0 float _) [] [] false)
                  0%nat _ H)).
Defined.

(** C9 (counterexample): [path = new PathLite([(0,0),(1,0)])], then
    [path.length] (1) and [vs = path.vertices], then [vs[1].x = 5]: the
    path now returns the vertices (0,0),(5,0), not (0,0),(1,0), and still
    the length 1. *)
Lemma getter_vector_is_shared :
  let '(vs, (o, h)) := ObjectScenario.afterReads in
  let '(o', h') := ObjectScenario.afterWrite in
  In (nth 1 (read_array h vs) 0%nat) (read_array h vs)
  /\ fst (observe o h) = [mkVec 0 0 0; mkVec 1 0 0]%float
  /\ fst (observe o' h') = [mkVec 0 0 0; mkVec 5 0 0]%float
  /\ fst (observe o' h') <> fst (observe o h)
  /\ snd (observe o' h') = 1%float.
Proof.
  vm_compute. repeat split; auto. intros H. discriminate H.
Qed.

(** ** The convex-hull walk, in exact arithmetic *)

Section WrapExact.
Import Exact.
Local Open Scope R_scope.

Lemma Rfloor_between (t : R) (k : Z) : IZR k <= t < IZR k + 1 -> Rfloor t = k.
Proof.
  intros H. unfold Rfloor. symmetry. apply Int_part_spec. lra.
Qed.

Lemma Rceil_between (t : R) (k : Z) : IZR k - 1 < t <= IZR k -> Rceil t = k.
Proof.
  intros H. unfold Rceil.
  rewrite <- (Int_part_spec (- t) (- k)); [lia |].
  rewrite opp_IZR. lra.
Qed.

Lemma div_between (a r lo hi : R) :
  0 < r -> lo * r <= a < hi * r -> lo <= a / r < hi.
Proof.
  intros Hr H. assert (E : a = a / r * r) by (field; lra).
  set (q := a / r) in *. clearbody q. subst a. split; nra.
Qed.

(** [a % r] when the quotient is in [k, k+1), k >= 0. *)
Lemma Rmod_between (a r : R) (k : Z) :
  0 < r -> (0 <= k)%Z -> IZR k * r <= a < (IZR k + 1) * r ->
  Rmod a r = a - r * IZR k.
Proof.
  intros Hr Hk H. unfold Rmod.
  pose proof (@div_between a r (IZR k) (IZR k + 1) Hr H) as Ht. apply IZR_le in Hk.
  destruct (Rle_dec 0 (a / r)) as [_ | n]; [| lra].
  rewrite (@Rfloor_between (a / r) k Ht). reflexivity.
Qed.

(** [wrap] leaves a value of [0, r) as it is. *)
Lemma wrap_inside (a r : R) : 0 <= a < r -> wrap a r = a.
Proof.
  intros H. assert (Hr : 0 < r) by lra. unfold wrap.
  change (@nabs R exact ?x) with (Rabs x).
  change (@ndiv R exact ?x ?y) with (x / y).
  change (@nceil R exact ?x) with (Rceil x).
  change (@ofZ R exact ?x) with (IZR x).
  change (@nmul R exact ?x ?y) with (x * y).
  change (@nadd R exact ?x ?y) with (x + y).
  change (@nmod R exact ?x ?y) with (Rmod x y).
  assert (Ht : 0 <= a / r < 1) by (apply div_between; lra).
  rewrite Rabs_pos_eq by lra.
  destruct (Req_dec a 0) as [-> | Ha].
  - replace (0 / r) with 0 by (field; lra).
    rewrite (@Rceil_between 0 0) by (simpl; lra).
    rewrite (@Rmod_between _ r 0 Hr) by (simpl; lia || lra). simpl. lra.
  - assert (Hpos : 0 < a / r).
    { destruct (Req_dec (a / r) 0) as [E | E]; [| lra].
      exfalso. apply Ha. replace a with (a / r * r) by (field; lra).
      rewrite E. lra. }
    rewrite (@Rceil_between (a / r) 1) by (simpl; lra).
    rewrite (@Rmod_between _ r 1 Hr) by (simpl; lia || lra). simpl. lra.
Qed.

End WrapExact.

(** The operations of the interface, read on the reals. *)
Ltac on_reals :=
  cbn [ofZ nadd nsub nmul ndiv nsqrt nabs neqb nltb nleb nfloor nceil nmod
       Exact.exact nPI nsin ncos nacos natan2 Exact.exactTrig n0 n1] in *.

Section HullExact.
Import Exact.
Local Open Scope R_scope.





Lemma EPSILON_exact : @EPSILON R _ = 1 / 4503599627370496.
Proof. reflexivity. Qed.

Lemma EPSILON_small : 0 < @EPSILON R _ < 1 / 4.
Proof. rewrite EPSILON_exact. lra. Qed.











Lemma or1_zero : or1 (0 : R) = 1.
Proof.
  unfold or1. on_reals. unfold Reqb.
  destruct (Req_dec_T 0 0); [| contradiction]. reflexivity.
Qed.









(** [norm()] of the three directions. *)
Lemma norm_unit (v : Vec R) :
  vx v * vx v + vy v * vy v + vz v * vz v = 1 -> norm v = v.
Proof.
  intros H. unfold norm. rewrite <- (copy_exact v) at 1.
  apply normalize_norm_exact. left. exact H.
Qed.











End HullExact.

Section HullWalk.
Import Exact.
Local Open Scope R_scope.




End HullWalk.

Section HullOrientation.
Import Exact.
Local Open Scope R_scope.






End HullOrientation.

(** ** Segment intersection, in exact arithmetic *)

Section IntersectExact.
Import Exact.
Local Open Scope R_scope.

(** The determinant whose sign [tripletOrientation] returns. *)
Lemma tripletOrientation_cases (p q r : Vec R) :
  let val := (vy q - vy p) * (vx r - vx q) - (vx q - vx p) * (vy r - vy q) in
  (val = 0 /\ tripletOrientation p q r = 0%Z)
  \/ (0 < val /\ tripletOrientation p q r = 1%Z)
  \/ (val < 0 /\ tripletOrientation p q r = 2%Z).
Proof.
  cbv zeta. unfold tripletOrientation. on_reals. unfold Reqb, Rltb.
  destruct (Req_dec_T _ 0) as [E | NE]; [left; split; [exact E | reflexivity] |].
  destruct (Rlt_dec 0 _) as [L | NL]; right; [left | right]; split;
    try reflexivity; lra.
Qed.

(** Two segments that share the end [q1 = p2] and are not colinear: the
    answer is 1, as for a crossing. *)
Lemma segmentsIntersect_corner (p1 q1 q2 : Vec R) :
  tripletOrientation p1 q1 q2 <> 0%Z ->
  segmentsIntersect p1 q1 q1 q2 = 1%Z.
Proof.
  intros H. unfold segmentsIntersect.
  destruct (tripletOrientation_cases p1 q1 q1) as [[_ E1] | [[L _] | [L _]]];
    [| cbv zeta in L; lra | cbv zeta in L; lra].
  destruct (tripletOrientation_cases q1 q2 q1) as [[_ E4] | [[L _] | [L _]]];
    [| cbv zeta in L; lra | cbv zeta in L; lra].
  assert (E3 : tripletOrientation q1 q2 p1 = tripletOrientation p1 q1 q2).
  { destruct (tripletOrientation_cases q1 q2 p1) as [[V ->] | [[V ->] | [V ->]]];
      destruct (tripletOrientation_cases p1 q1 q2) as [[W ->] | [[W ->] | [W ->]]];
      try reflexivity; cbv zeta in V, W; lra. }
  rewrite E1, E4, E3.
  destruct (tripletOrientation p1 q1 q2) as [| [| |] | ?] eqn:E;
    try contradiction; reflexivity.
Qed.

(** A proper crossing: the segments are not parallel and meet in a point
    interior to both.  The answer is 1. *)
Lemma segmentsIntersect_crossing (p1 q1 p2 q2 : Vec R) (s t : R) :
  0 < s < 1 -> 0 < t < 1 ->
  vx p1 + s * (vx q1 - vx p1) = vx p2 + t * (vx q2 - vx p2) ->
  vy p1 + s * (vy q1 - vy p1) = vy p2 + t * (vy q2 - vy p2) ->
  (vx q1 - vx p1) * (vy q2 - vy p2) - (vy q1 - vy p1) * (vx q2 - vx p2) <> 0 ->
  segmentsIntersect p1 q1 p2 q2 = 1%Z.
Proof.
  intros Hs Ht Ex Ey HX. unfold segmentsIntersect.
  destruct p1 as [ax ay az], q1 as [bx by' bz], p2 as [cx cy cz],
           q2 as [dx dy dz]. cbn [vx vy] in *.
  set (X := (bx - ax) * (dy - cy) - (by' - ay) * (dx - cx)) in *.
  assert (V1 : (by' - ay) * (cx - bx) - (bx - ax) * (cy - by') = t * X).
  { replace (cx - bx) with ((s - 1) * (bx - ax) - t * (dx - cx)) by lra.
    replace (cy - by') with ((s - 1) * (by' - ay) - t * (dy - cy)) by lra.
    unfold X. ring. }
  assert (V2 : (by' - ay) * (dx - bx) - (bx - ax) * (dy - by') = - (1 - t) * X).
  { replace (dx - bx) with ((s - 1) * (bx - ax) + (1 - t) * (dx - cx)) by lra.
    replace (dy - by') with ((s - 1) * (by' - ay) + (1 - t) * (dy - cy)) by lra.
    unfold X. ring. }
  assert (V3 : (dy - cy) * (ax - dx) - (dx - cx) * (ay - dy) = - s * X).
  { replace (ax - dx) with (- s * (bx - ax) - (1 - t) * (dx - cx)) by lra.
    replace (ay - dy) with (- s * (by' - ay) - (1 - t) * (dy - cy)) by lra.
    unfold X. ring. }
  assert (V4 : (dy - cy) * (bx - dx) - (dx - cx) * (by' - dy) = (1 - s) * X).
  { replace (bx - dx) with ((1 - s) * (bx - ax) - (1 - t) * (dx - cx)) by lra.
    replace (by' - dy) with ((1 - s) * (by' - ay) - (1 - t) * (dy - cy)) by lra.
    unfold X. ring. }
  assert (O12 : tripletOrientation (mkVec ax ay az) (mkVec bx by' bz)
                                   (mkVec cx cy cz)
                <> tripletOrientation (mkVec ax ay az) (mkVec bx by' bz)
                                      (mkVec dx dy dz)).
  { destruct (tripletOrientation_cases (mkVec ax ay az) (mkVec bx by' bz)
                                       (mkVec cx cy cz))
      as [[V ->] | [[V ->] | [V ->]]];
      destruct (tripletOrientation_cases (mkVec ax ay az) (mkVec bx by' bz)
                                         (mkVec dx dy dz))
        as [[W ->] | [[W ->] | [W ->]]];
      cbv zeta in V, W; cbn [vx vy] in V, W; rewrite V1 in V; rewrite V2 in W;
      try discriminate; exfalso; clear V1 V2 V3 V4 Ex Ey; nra. }
  assert (O34 : tripletOrientation (mkVec cx cy cz) (mkVec dx dy dz)
                                   (mkVec ax ay az)
                <> tripletOrientation (mkVec cx cy cz) (mkVec dx dy dz)
                                      (mkVec bx by' bz)).
  { destruct (tripletOrientation_cases (mkVec cx cy cz) (mkVec dx dy dz)
                                       (mkVec ax ay az))
      as [[V ->] | [[V ->] | [V ->]]];
      destruct (tripletOrientation_cases (mkVec cx cy cz) (mkVec dx dy dz)
                                         (mkVec bx by' bz))
        as [[W ->] | [[W ->] | [W ->]]];
      cbv zeta in V, W; cbn [vx vy] in V, W; rewrite V3 in V; rewrite V4 in W;
      try discriminate; exfalso; clear V1 V2 V3 V4 Ex Ey; nra. }
  apply Z.eqb_neq in O12, O34. rewrite O12, O34. reflexivity.
Qed.

Lemma pointOnSegment_exact (p q r : Vec R) :
  pointOnSegment p q r = true ->
  (vx p <= vx q <= vx r \/ vx r <= vx q <= vx p)
  /\ (vy p <= vy q <= vy r \/ vy r <= vy q <= vy p).
Proof.
  unfold pointOnSegment, nmin, nmax. rewrite !isNaN_exact. on_reals.
  rewrite !andb_true_iff, !Rleb_true. unfold Rltb.
  repeat destruct (Rlt_dec _ _); lra.
Qed.

Lemma ratio_between (u v : R) :
  u * v <= 0 -> u <> v -> 0 <= u / (u - v) <= 1.
Proof.
  intros Huv Hne.
  assert (E : u / (u - v) * (u - v) = u) by (field; lra).
  destruct (Rlt_dec v u) as [L | NL].
  - assert (0 <= u) by nra. assert (v <= 0) by nra. split; nra.
  - assert (u <= 0) by nra. assert (0 <= v) by nra. split; nra.
Qed.

(** A point colinear with [a], [b] and inside their bounding box lies on the
    segment from [a] to [b]. *)
Lemma colinear_inside (a b c : Vec R) :
  tripletOrientation a b c = 0%Z -> pointOnSegment a c b = true ->
  exists s, 0 <= s <= 1
    /\ vx c = vx a + s * (vx b - vx a) /\ vy c = vy a + s * (vy b - vy a).
Proof.
  intros Ho Hb. apply pointOnSegment_exact in Hb. destruct Hb as [Bx By].
  destruct (tripletOrientation_cases a b c) as [[V _] | [[_ E] | [_ E]]];
    [| congruence | congruence].
  cbv zeta in V. destruct a as [ax ay az], b as [bx by' bz], c as [cx cy cz].
  cbn [vx vy] in *.
  destruct (Req_dec_T bx ax) as [Ex | Nx].
  - destruct (Req_dec_T by' ay) as [Ey | Ny].
    + exists 0. split; [lra |]. split; lra.
    + exists ((cy - ay) / (by' - ay)).
      assert (E : (cy - ay) / (by' - ay) * (by' - ay) = cy - ay) by (field; lra).
      split; [| split].
      * destruct (Rlt_dec ay by'); split; nra.
      * subst bx. assert (cx = ax) by lra. subst cx. lra.
      * lra.
  - exists ((cx - ax) / (bx - ax)).
    assert (E : (cx - ax) / (bx - ax) * (bx - ax) = cx - ax) by (field; lra).
    split; [| split].
    + destruct (Rlt_dec ax bx); split; nra.
    + lra.
    + apply Rmult_eq_reg_r with (bx - ax); [| lra].
      replace ((ay + (cx - ax) / (bx - ax) * (by' - ay)) * (bx - ax))
        with (ay * (bx - ax) + (cx - ax) * (by' - ay)) by (field; lra).
      lra.
Qed.

Lemma orientations_differ (a b c a' b' c' : Vec R) :
  tripletOrientation a b c <> tripletOrientation a' b' c' ->
  let val := (vy b - vy a) * (vx c - vx b) - (vx b - vx a) * (vy c - vy b) in
  let val' :=
    (vy b' - vy a') * (vx c' - vx b') - (vx b' - vx a') * (vy c' - vy b') in
  val * val' <= 0 /\ val <> val'.
Proof.
  intros H. cbv zeta.
  destruct (tripletOrientation_cases a b c) as [[V E] | [[V E] | [V E]]];
    destruct (tripletOrientation_cases a' b' c') as [[W F] | [[W F] | [W F]]];
    cbv zeta in V, W; rewrite E, F in H; try congruence; split; nra.
Qed.

(** Whenever the answer is not -1 the two segments have a common point. *)
Lemma segmentsIntersect_meets (p1 q1 p2 q2 : Vec R) :
  segmentsIntersect p1 q1 p2 q2 <> (-1)%Z ->
  exists s t, 0 <= s <= 1 /\ 0 <= t <= 1
    /\ vx p1 + s * (vx q1 - vx p1) = vx p2 + t * (vx q2 - vx p2)
    /\ vy p1 + s * (vy q1 - vy p1) = vy p2 + t * (vy q2 - vy p2).
Proof.
  unfold segmentsIntersect.
  destruct (negb (tripletOrientation p1 q1 p2 =? tripletOrientation p1 q1 q2)%Z
            && negb (tripletOrientation p2 q2 p1
                     =? tripletOrientation p2 q2 q1)%Z) eqn:G.
  - intros _. apply andb_true_iff in G. destruct G as [G1 G2].
    apply negb_true_iff in G1, G2. apply Z.eqb_neq in G1, G2.
    apply orientations_differ in G1, G2. cbv zeta in G1, G2.
    destruct G1 as [P12 N12], G2 as [P34 N34].
    destruct p1 as [ax ay az], q1 as [bx by' bz], p2 as [cx cy cz],
             q2 as [dx dy dz]. cbn [vx vy] in *.
    set (v1 := (by' - ay) * (cx - bx) - (bx - ax) * (cy - by')) in *.
    set (v2 := (by' - ay) * (dx - bx) - (bx - ax) * (dy - by')) in *.
    set (v3 := (dy - cy) * (ax - dx) - (dx - cx) * (ay - dy)) in *.
    set (v4 := (dy - cy) * (bx - dx) - (dx - cx) * (by' - dy)) in *.
    exists (v3 / (v3 - v4)), (v1 / (v1 - v2)).
    split; [apply ratio_between; assumption |].
    split; [apply ratio_between; assumption |].
    assert (D12 : v1 - v2 <> 0) by lra.
    assert (D34 : v3 - v4 <> 0) by lra.
    clear P12 P34 N12 N34. unfold v1, v2, v3, v4 in *.
    split; field; split; assumption.
  - destruct (_ || _) eqn:S; [intros _ | intros H; contradiction H; reflexivity].
    repeat rewrite orb_true_iff in S. repeat rewrite andb_true_iff in S.
    repeat rewrite Z.eqb_eq in S.
    destruct S as [[[[O B] | [O B]] | [O B]] | [O B]];
      destruct (colinear_inside _ _ _ O B) as (u & Hu & Ux & Uy).
    + exists u, 0. repeat split; lra.
    + exists u, 1. repeat split; lra.
    + exists 0, u. repeat split; lra.
    + exists 1, u. repeat split; lra.
Qed.

(** Disjoint segments: the answer is -1. *)
Lemma segmentsIntersect_disjoint (p1 q1 p2 q2 : Vec R) :
  (forall s t, 0 <= s <= 1 -> 0 <= t <= 1 ->
     vx p1 + s * (vx q1 - vx p1) = vx p2 + t * (vx q2 - vx p2) ->
     vy p1 + s * (vy q1 - vy p1) = vy p2 + t * (vy q2 - vy p2) -> False) ->
  segmentsIntersect p1 q1 p2 q2 = (-1)%Z.
Proof.
  intros H. destruct (Z.eq_dec (segmentsIntersect p1 q1 p2 q2) (-1)) as [E | N];
    [exact E |].
  destruct (segmentsIntersect_meets _ _ _ _ N) as (s & t & Hs & Ht & Ex & Ey).
  exfalso. exact (H s t Hs Ht Ex Ey).
Qed.

End IntersectExact.

(** ** A closed path with a single vertex, in exact arithmetic *)

Section SingleVertexExact.
Import Exact.
Local Open Scope R_scope.

(** The only segment of a closed one-vertex path joins the vertex to itself:
    the path has one segment and its length is 0. *)
Lemma length_single_vertex_closed (v : Vec R) :
  fst (get_length (set_closed true (new_PathLite [PVec v]))) = 0
  /\ fst (get_nSegments (set_closed true (new_PathLite [PVec v]))) = 1%Z.
Proof.
  split; [| reflexivity].
  unfold get_length, _cleanLength, set_closed, new_PathLite. cbn.
  match goal with |- 0 + sqrt ?e = 0 => replace e with 0 by ring end.
  rewrite sqrt_0. ring.
Qed.

End SingleVertexExact.

(** ** Point in polygon *)

Section PolygonParity.
Context {num : Type} {N : Num num}.

Lemma pointInPolygon_loop_crossings (x y : num) (vs : list (Vec num))
      (vj : Vec num) (inside : bool) :
  pointInPolygon_loop x y vs vj inside = xorb inside (crossings x y vj vs).
Proof.
  revert vj inside. induction vs as [| vi rest IH]; intros vj inside; simpl.
  - now rewrite xorb_false_r.
  - rewrite IH. destruct (crossesRay x y vi vj), inside,
      (crossings x y vi rest); reflexivity.
Qed.

Lemma last_cons_default {A} (a d : A) (l : list A) :
  last (a :: l) d = last l a.
Proof.
  revert a d. induction l as [| b l IH]; intros a d; [reflexivity |].
  change (last (a :: b :: l) d) with (last (b :: l) d).
  now rewrite (IH b d), (IH b a).
Qed.

Lemma last_nonempty_default {A} (d d' : A) (l : list A) :
  l <> [] -> last l d = last l d'.
Proof.
  destruct l as [| a l]; [congruence | intros _].
  now rewrite !last_cons_default.
Qed.

Lemma last_app_nonempty {A} (d : A) (a b : list A) :
  b <> [] -> last (a ++ b) d = last b d.
Proof.
  intros Hb. induction a as [| x a IH]; [reflexivity |].
  simpl app. rewrite last_cons_default, <- IH.
  apply last_nonempty_default.
  intros E. apply app_eq_nil in E. destruct E; contradiction.
Qed.

Lemma crossings_app (x y : num) (vj : Vec num) (a b : list (Vec num)) :
  crossings x y vj (a ++ b)
  = xorb (crossings x y vj a) (crossings x y (last a vj) b).
Proof.
  revert vj. induction a as [| v a IH]; intros vj.
  - simpl. now destruct (crossings x y vj b).
  - simpl app. cbn [crossings]. rewrite IH, last_cons_default.
    now rewrite xorb_assoc.
Qed.

(** [pointInPolygon] reads the polygon as a cycle of edges: starting the
    vertex list at another vertex of the same cycle gives the same answer,
    in every arithmetic. *)
Theorem pointInPolygon_rotation (pnt : Vec num) (a b : list (Vec num)) :
  pointInPolygon pnt (b ++ a) = pointInPolygon pnt (a ++ b).
Proof.
  destruct a as [| a0 a']; [now rewrite app_nil_r |].
  destruct b as [| b0 b']; [now rewrite app_nil_r |].
  unfold pointInPolygon. rewrite !pointInPolygon_loop_crossings.
  rewrite !crossings_app.
  rewrite (@last_app_nonempty _ Vector0 (b0 :: b') (a0 :: a')) by discriminate.
  rewrite (@last_app_nonempty _ Vector0 (a0 :: a') (b0 :: b')) by discriminate.
  rewrite (@last_nonempty_default _ (last (a0 :: a') Vector0) Vector0
             (b0 :: b')) by discriminate.
  rewrite (@last_nonempty_default _ (last (b0 :: b') Vector0) Vector0
             (a0 :: a')) by discriminate.
  apply f_equal. apply xorb_comm.
Qed.

End PolygonParity.

Section PolygonExact.
Import Exact.
Local Open Scope R_scope.

Lemma crossesRay_exact (x y : R) (vi vj : Vec R) :
  crossesRay x y vi vj
  = xorb (Rltb y (vy vi)) (Rltb y (vy vj))
    && Rltb x ((vx vj - vx vi) * (y - vy vi) / (vy vj - vy vi) + vx vi).
Proof. unfold crossesRay. rewrite !or0_exact. reflexivity. Qed.

(** In exact arithmetic the edge test does not depend on the direction of
    the edge. *)
Lemma crossesRay_sym (x y : R) (vi vj : Vec R) :
  crossesRay x y vi vj = crossesRay x y vj vi.
Proof.
  rewrite !crossesRay_exact.
  rewrite (xorb_comm (Rltb y (vy vj))).
  destruct (xorb (Rltb y (vy vi)) (Rltb y (vy vj))) eqn:E; [| reflexivity].
  assert (Hne : vy vi <> vy vj).
  { intros H. rewrite H in E. now rewrite xorb_nilpotent in E. }
  cbn [andb]. f_equal. field. split; lra.
Qed.

(** The parity along a chain, the chain given with its first vertex. *)
Lemma crossings_rev (x y : R) (m : list (Vec R)) :
  match rev m with
  | [] => false
  | u :: l => crossings x y u l
  end
  = match m with
    | [] => false
    | u :: l => crossings x y u l
    end.
Proof.
  induction m as [| u l IH]; [reflexivity |].
  cbn [rev]. destruct l as [| v1 l2]; [reflexivity |].
  destruct (rev (v1 :: l2)) as [| h t] eqn:E.
  { apply (f_equal (@length _)) in E. rewrite length_rev in E. discriminate. }
  cbn [app]. rewrite crossings_app, IH. cbn [crossings].
  assert (Hl : last t h = v1).
  { assert (H : last (rev (v1 :: l2)) h = v1).
    { cbn [rev]. apply last_last. }
    rewrite E, last_cons_default in H. exact H. }
  rewrite Hl, xorb_false_r, (crossesRay_sym x y u v1). apply xorb_comm.
Qed.

(** In exact arithmetic the winding direction of the polygon does not
    matter: the reversed vertex list gives the same answer. *)
Theorem pointInPolygon_reversal (pnt : Vec R) (vs : list (Vec R)) :
  pointInPolygon pnt (rev vs) = pointInPolygon pnt vs.
Proof.
  unfold pointInPolygon. rewrite !pointInPolygon_loop_crossings.
  f_equal. set (x := or0 (vx pnt)). set (y := or0 (vy pnt)).
  destruct vs as [| v1 l]; [reflexivity |].
  pose proof (crossings_rev x y (last (v1 :: l) Vector0 :: v1 :: l)) as H.
  cbn [rev] in H. cbn [rev].
  destruct (rev l ++ [v1]) as [| h t] eqn:E.
  { apply app_eq_nil in E. destruct E; discriminate. }
  assert (Hh : h = last (v1 :: l) Vector0).
  { rewrite last_cons_default. rewrite <- (rev_involutive l) at 1.
    destruct (rev l) as [| r0 rl] eqn:Er.
    - cbn in E. injection E as <- _. reflexivity.
    - cbn [app] in E. injection E as <- _. cbn [rev]. now rewrite last_last. }
  assert (Hlast : last (h :: t) Vector0 = v1).
  { rewrite <- E. apply last_last. }
  rewrite Hlast. cbn [app] in H. rewrite crossings_app in H.
  cbn [crossings] in H. rewrite xorb_false_r in H.
  cbn [crossings].
  assert (Hlt : last t h = v1).
  { rewrite <- last_cons_default with (d := Vector0). exact Hlast. }
  rewrite Hlt in H. rewrite <- Hh in H.
  rewrite <- Hh, <- H. apply xorb_comm.
Qed.

(** For an axis-parallel rectangle the answer is the half-open test:
    points on the left and the bottom edge count as inside, points on the
    right and the top edge as outside. *)
Theorem pointInPolygon_rectangle (x0 y0 x1 y1 x y : R) :
  x0 < x1 -> y0 < y1 ->
  (pointInPolygon (mkVec x y 0)
     [mkVec x0 y0 0; mkVec x1 y0 0; mkVec x1 y1 0; mkVec x0 y1 0] = true
   <-> x0 <= x < x1 /\ y0 <= y < y1).
Proof.
  intros Hx Hy. unfold pointInPolygon. rewrite pointInPolygon_loop_crossings.
  cbn [last crossings]. rewrite !crossesRay_exact, !or0_exact. cbn [vx vy].
  replace ((x0 - x0) * (y - y0) / (y1 - y0) + x0) with x0 by (field; lra).
  replace ((x1 - x1) * (y - y1) / (y0 - y1) + x1) with x1 by (field; lra).
  rewrite !xorb_nilpotent. cbn [andb xorb].
  unfold Rltb.
  destruct (Rlt_dec y y0), (Rlt_dec y y1), (Rlt_dec x x0), (Rlt_dec x x1);
    cbn; split; intros; try discriminate; try lra; try reflexivity.
Qed.

Lemma pointInPolygon_rectangle_witness :
  0 < 2 /\ 0 < 1
  /\ (pointInPolygon (mkVec 0 0 0)
        [mkVec 0 0 0; mkVec 2 0 0; mkVec 2 1 0; mkVec 0 1 0] = true
      <-> 0 <= 0 < 2 /\ 0 <= 0 < 1).
Proof.
  split; [lra |]. split; [lra |].
  apply (@pointInPolygon_rectangle 0 0 2 1 0 0); lra.
Defined.

End PolygonExact.

(** ** Segment intersection: the full picture in exact arithmetic *)

Section IntersectComplete.
Import Exact.
Local Open Scope R_scope.

Lemma tripletOrientation_zero (p q r : Vec R) :
  (vy q - vy p) * (vx r - vx q) - (vx q - vx p) * (vy r - vy q) = 0 ->
  tripletOrientation p q r = 0%Z.
Proof.
  intros H.
  destruct (tripletOrientation_cases p q r) as [[_ E] | [[V _] | [V _]]];
    [exact E | cbv zeta in V; lra | cbv zeta in V; lra].
Qed.

Lemma pointOnSegment_param (p q r : Vec R) (k : R) :
  0 <= k <= 1 ->
  vx q = vx p + k * (vx r - vx p) -> vy q = vy p + k * (vy r - vy p) ->
  pointOnSegment p q r = true.
Proof.
  intros Hk Hx Hy. unfold pointOnSegment, nmin, nmax.
  rewrite !isNaN_exact. on_reals.
  rewrite !andb_true_iff. unfold Rltb.
  destruct (Rlt_dec (vx p) (vx r)), (Rlt_dec (vx r) (vx p)),
           (Rlt_dec (vy p) (vy r)), (Rlt_dec (vy r) (vy p));
    repeat split; apply Rleb_true; nra.
Qed.

(** The four determinants of [segmentsIntersect] when the segments meet at
    the parameters [s] and [t]. *)
Lemma meeting_determinants (ax ay bx by' cx cy dx dy s t : R) :
  ax + s * (bx - ax) = cx + t * (dx - cx) ->
  ay + s * (by' - ay) = cy + t * (dy - cy) ->
  let X := (bx - ax) * (dy - cy) - (by' - ay) * (dx - cx) in
  (by' - ay) * (cx - bx) - (bx - ax) * (cy - by') = t * X
  /\ (by' - ay) * (dx - bx) - (bx - ax) * (dy - by') = - (1 - t) * X
  /\ (dy - cy) * (ax - dx) - (dx - cx) * (ay - dy) = - s * X
  /\ (dy - cy) * (bx - dx) - (dx - cx) * (by' - dy) = (1 - s) * X.
Proof.
  intros Ex Ey X. unfold X. repeat split.
  - replace (cx - bx) with ((s - 1) * (bx - ax) - t * (dx - cx)) by lra.
    replace (cy - by') with ((s - 1) * (by' - ay) - t * (dy - cy)) by lra.
    ring.
  - replace (dx - bx) with ((s - 1) * (bx - ax) + (1 - t) * (dx - cx)) by lra.
    replace (dy - by') with ((s - 1) * (by' - ay) + (1 - t) * (dy - cy)) by lra.
    ring.
  - replace (ax - dx) with (- s * (bx - ax) - (1 - t) * (dx - cx)) by lra.
    replace (ay - dy) with (- s * (by' - ay) - (1 - t) * (dy - cy)) by lra.
    ring.
  - replace (bx - dx) with ((1 - s) * (bx - ax) - (1 - t) * (dx - cx)) by lra.
    replace (by' - dy) with ((1 - s) * (by' - ay) - (1 - t) * (dy - cy)) by lra.
    ring.
Qed.

Lemma orientations_split (p q r r' : Vec R) (u X : R) :
  0 <= u <= 1 -> X <> 0 ->
  (vy q - vy p) * (vx r - vx q) - (vx q - vx p) * (vy r - vy q) = u * X ->
  (vy q - vy p) * (vx r' - vx q) - (vx q - vx p) * (vy r' - vy q)
  = - (1 - u) * X ->
  tripletOrientation p q r <> tripletOrientation p q r'.
Proof.
  intros Hu HX V W.
  destruct (tripletOrientation_cases p q r) as [[V' ->] | [[V' ->] | [V' ->]]];
    destruct (tripletOrientation_cases p q r') as [[W' ->] | [[W' ->] | [W' ->]]];
    cbv zeta in V', W'; rewrite V in V'; rewrite W in W';
    try discriminate; exfalso; clear V W; nra.
Qed.

(** Non-parallel segments with a common point: the answer is 1, also when
    the common point is an end of one or of both segments. *)
Lemma segmentsIntersect_transversal (p1 q1 p2 q2 : Vec R) (s t : R) :
  meetAt p1 q1 p2 q2 s t -> directionsCross p1 q1 p2 q2 <> 0 ->
  segmentsIntersect p1 q1 p2 q2 = 1%Z.
Proof.
  intros (Hs & Ht & Ex & Ey) HX. unfold directionsCross in HX.
  destruct (meeting_determinants Ex Ey) as (V1 & V2 & V3 & V4).
  unfold segmentsIntersect.
  assert (O12 : tripletOrientation p1 q1 p2 <> tripletOrientation p1 q1 q2).
  { eapply orientations_split; [exact Ht | exact HX | exact V1 | exact V2]. }
  assert (O34 : tripletOrientation p2 q2 p1 <> tripletOrientation p2 q2 q1).
  { apply (@orientations_split p2 q2 p1 q1 s
             (- ((vx q1 - vx p1) * (vy q2 - vy p2)
                 - (vy q1 - vy p1) * (vx q2 - vx p2)))); [exact Hs | lra | |].
    - rewrite V3. ring.
    - rewrite V4. ring. }
  apply Z.eqb_neq in O12, O34. rewrite O12, O34. reflexivity.
Qed.

(** Three points on a line: [c] and [d] at the parameters [al] and
    [al + k] of the line through [a] and [b]; when the parameter ranges
    overlap, an end of one segment lies on the other. *)
Lemma colinear_overlap (a b c d : Vec R) (k al s t : R) :
  vx c = vx a + al * (vx b - vx a) -> vy c = vy a + al * (vy b - vy a) ->
  vx d = vx a + (al + k) * (vx b - vx a) ->
  vy d = vy a + (al + k) * (vy b - vy a) ->
  0 <= s <= 1 -> 0 <= t <= 1 -> s = al + t * k ->
  pointOnSegment a c b = true \/ pointOnSegment a d b = true
  \/ pointOnSegment c a d = true.
Proof.
  intros Cx Cy Dx Dy Hs Ht E.
  destruct (Rle_dec 0 al) as [A0 | A0]; [destruct (Rle_dec al 1) as [A1 | A1] |].
  - left. apply (@pointOnSegment_param a c b al); [lra | exact Cx | exact Cy].
  - (* 1 < al *)
    destruct (Rle_dec (al + k) 1) as [B1 | B1].
    + destruct (Rle_dec 0 (al + k)) as [B0 | B0].
      * right; left.
        apply (@pointOnSegment_param a d b (al + k)); [lra | exact Dx | exact Dy].
      * right; right.
        assert (Hk : k < 0) by lra.
        apply (@pointOnSegment_param c a d (- al / k)).
        -- assert (E' : - al / k * k = - al) by (field; lra).
           split; nra.
        -- rewrite Dx, Cx.
           replace (vx a + (al + k) * (vx b - vx a)
                    - (vx a + al * (vx b - vx a)))
             with (k * (vx b - vx a)) by ring.
           field. lra.
        -- rewrite Dy, Cy.
           replace (vy a + (al + k) * (vy b - vy a)
                    - (vy a + al * (vy b - vy a)))
             with (k * (vy b - vy a)) by ring.
           field. lra.
    + exfalso.
      assert (H1 : 0 <= t * (al + k - 1)) by (apply Rmult_le_pos; lra).
      destruct (Req_dec_T t 1) as [T1 | T1]; [subst t; lra |].
      assert (H2 : 0 < (1 - t) * (al - 1)) by (apply Rmult_lt_0_compat; lra).
      lra.
  - (* al < 0 *)
    destruct (Rle_dec 0 (al + k)) as [B0 | B0].
    + destruct (Rle_dec (al + k) 1) as [B1 | B1].
      * right; left.
        apply (@pointOnSegment_param a d b (al + k)); [lra | exact Dx | exact Dy].
      * right; right.
        assert (Hk : 0 < k) by lra.
        apply (@pointOnSegment_param c a d (- al / k)).
        -- assert (E' : - al / k * k = - al) by (field; lra).
           split; nra.
        -- rewrite Dx, Cx.
           replace (vx a + (al + k) * (vx b - vx a)
                    - (vx a + al * (vx b - vx a)))
             with (k * (vx b - vx a)) by ring.
           field. lra.
        -- rewrite Dy, Cy.
           replace (vy a + (al + k) * (vy b - vy a)
                    - (vy a + al * (vy b - vy a)))
             with (k * (vy b - vy a)) by ring.
           field. lra.
    + exfalso.
      assert (H1 : 0 <= t * (- (al + k))) by (apply Rmult_le_pos; lra).
      destruct (Req_dec_T t 1) as [T1 | T1]; [subst t; lra |].
      assert (H2 : 0 < (1 - t) * (- al)) by (apply Rmult_lt_0_compat; lra).
      lra.
Qed.

(** Parallel segments with a common point: the answer is 0. *)
Lemma segmentsIntersect_parallel_contact (p1 q1 p2 q2 : Vec R) (s t : R) :
  meetAt p1 q1 p2 q2 s t -> directionsCross p1 q1 p2 q2 = 0 ->
  segmentsIntersect p1 q1 p2 q2 = 0%Z.
Proof.
  intros (Hs & Ht & Ex & Ey) HX. unfold directionsCross in HX.
  destruct (meeting_determinants Ex Ey) as (V1 & V2 & V3 & V4).
  rewrite HX in V1, V2, V3, V4.
  rewrite Rmult_0_r in V1, V2, V3, V4.
  unfold segmentsIntersect.
  rewrite (tripletOrientation_zero p1 q1 p2 V1),
          (tripletOrientation_zero p1 q1 q2 V2),
          (tripletOrientation_zero p2 q2 p1 V3),
          (tripletOrientation_zero p2 q2 q1 V4).
  cbn [Z.eqb negb andb].
  assert (H : pointOnSegment p1 p2 q1 = true \/ pointOnSegment p1 q2 q1 = true
              \/ pointOnSegment p2 p1 q2 = true).
  { destruct (Req_dec_T (vx q1) (vx p1)) as [Ax | Ax].
    - destruct (Req_dec_T (vy q1) (vy p1)) as [Ay | Ay].
      + right; right. apply (@pointOnSegment_param p2 p1 q2 t); [exact Ht | |].
        * rewrite Ax in Ex. lra.
        * rewrite Ay in Ey. lra.
      + set (k := (vy q2 - vy p2) / (vy q1 - vy p1)).
        assert (Ek : k * (vy q1 - vy p1) = vy q2 - vy p2)
          by (unfold k; field; lra).
        assert (Ekx : vx q2 - vx p2 = 0).
        { rewrite Ax in HX.
          assert (Hm : (vy q1 - vy p1) * (vx q2 - vx p2) = 0) by lra.
          apply Rmult_integral in Hm. destruct Hm; lra. }
        apply (@colinear_overlap p1 q1 p2 q2 k (s - t * k) s t);
          try lra; try nra.
    - set (k := (vx q2 - vx p2) / (vx q1 - vx p1)).
      assert (Ek : k * (vx q1 - vx p1) = vx q2 - vx p2)
        by (unfold k; field; lra).
      assert (Eky : k * (vy q1 - vy p1) = vy q2 - vy p2).
      { apply Rmult_eq_reg_r with (vx q1 - vx p1); [| lra].
        replace (k * (vy q1 - vy p1) * (vx q1 - vx p1))
          with (k * (vx q1 - vx p1) * (vy q1 - vy p1)) by ring.
        rewrite Ek. lra. }
      apply (@colinear_overlap p1 q1 p2 q2 k (s - t * k) s t);
        try lra; try nra. }
  destruct H as [H | [H | H]]; rewrite H; cbn;
    repeat (rewrite ?orb_true_r; cbn); reflexivity.
Qed.

Lemma segmentsIntersect_values {num : Type} {N : Num num}
      (p1 q1 p2 q2 : Vec num) :
  segmentsIntersect p1 q1 p2 q2 = 1%Z \/ segmentsIntersect p1 q1 p2 q2 = 0%Z
  \/ segmentsIntersect p1 q1 p2 q2 = (-1)%Z.
Proof.
  unfold segmentsIntersect.
  destruct (_ && _); [now left |].
  destruct (_ || _); [right; now left | right; now right].
Qed.

Lemma segmentsIntersect_one_iff (p1 q1 p2 q2 : Vec R) :
  segmentsIntersect p1 q1 p2 q2 = 1%Z
  <-> (exists s t, meetAt p1 q1 p2 q2 s t)
      /\ directionsCross p1 q1 p2 q2 <> 0.
Proof.
  split.
  - intros E.
    assert (M : exists s t, meetAt p1 q1 p2 q2 s t).
    { destruct (@segmentsIntersect_meets p1 q1 p2 q2) as (s & t & H);
        [rewrite E; discriminate |].
      exists s, t. repeat split; tauto. }
    split; [exact M |]. intros X0. destruct M as (s & t & Hm).
    rewrite (segmentsIntersect_parallel_contact Hm X0) in E. discriminate.
  - intros [(s & t & Hm) X0]. exact (segmentsIntersect_transversal Hm X0).
Qed.

(** In exact arithmetic [segmentsIntersect] answers -1 exactly when the
    segments have no point in common, 1 exactly when they have one and are
    not parallel, and 0 exactly when they have one and are parallel. *)
Theorem segmentsIntersect_characterised (p1 q1 p2 q2 : Vec R) :
  let meet := exists s t, meetAt p1 q1 p2 q2 s t in
  (segmentsIntersect p1 q1 p2 q2 = 1%Z
   <-> meet /\ directionsCross p1 q1 p2 q2 <> 0)
  /\ (segmentsIntersect p1 q1 p2 q2 = 0%Z
      <-> meet /\ directionsCross p1 q1 p2 q2 = 0)
  /\ (segmentsIntersect p1 q1 p2 q2 = (-1)%Z <-> ~ meet).
Proof.
  cbv zeta.
  assert (M : segmentsIntersect p1 q1 p2 q2 <> (-1)%Z ->
              exists s t, meetAt p1 q1 p2 q2 s t).
  { intros H. destruct (segmentsIntersect_meets _ _ _ _ H)
      as (s & t & Hs & Ht & Ex & Ey).
    exists s, t. repeat split; tauto. }
  assert (A : forall s t, meetAt p1 q1 p2 q2 s t ->
              directionsCross p1 q1 p2 q2 <> 0 ->
              segmentsIntersect p1 q1 p2 q2 = 1%Z)
    by (intros s t; apply segmentsIntersect_transversal).
  assert (B : forall s t, meetAt p1 q1 p2 q2 s t ->
              directionsCross p1 q1 p2 q2 = 0 ->
              segmentsIntersect p1 q1 p2 q2 = 0%Z)
    by (intros s t; apply segmentsIntersect_parallel_contact).
  assert (V := segmentsIntersect_values p1 q1 p2 q2).
  assert (M' : segmentsIntersect p1 q1 p2 q2 = (-1)%Z ->
               ~ exists s t, meetAt p1 q1 p2 q2 s t).
  { intros E (s & t & Hm).
    destruct (Req_dec_T (directionsCross p1 q1 p2 q2) 0) as [X0 | X0].
    - rewrite (B s t Hm X0) in E. discriminate.
    - rewrite (A s t Hm X0) in E. discriminate. }
  split; [| split].
  - split.
    + intros E. split; [apply M; rewrite E; discriminate |].
      intros X0. destruct M as (s & t & Hm); [rewrite E; discriminate |].
      rewrite (B s t Hm X0) in E. discriminate.
    + intros [(s & t & Hm) X0]. exact (A s t Hm X0).
  - split.
    + intros E. split; [apply M; rewrite E; discriminate |].
      destruct (Req_dec_T (directionsCross p1 q1 p2 q2) 0) as [X0 | X0];
        [exact X0 |].
      destruct M as (s & t & Hm); [rewrite E; discriminate |].
      rewrite (A s t Hm X0) in E. discriminate.
    + intros [(s & t & Hm) X0]. exact (B s t Hm X0).
  - split; [exact M' |].
    intros Hn. destruct V as [E | [E | E]]; [| | exact E];
      exfalso; apply Hn, M; rewrite E; discriminate.
Qed.

End IntersectComplete.

Section IntersectSymmetry.
Context {num : Type} {N : Num num}.

(** [segmentsIntersect] treats its two segments alike: exchanging them
    gives the same answer, in every arithmetic. *)
Theorem segmentsIntersect_symmetric (p1 q1 p2 q2 : Vec num) :
  segmentsIntersect p2 q2 p1 q1 = segmentsIntersect p1 q1 p2 q2.
Proof.
  unfold segmentsIntersect.
  destruct (tripletOrientation p1 q1 p2 =? tripletOrientation p1 q1 q2)%Z,
           (tripletOrientation p2 q2 p1 =? tripletOrientation p2 q2 q1)%Z;
    cbn [negb andb]; try reflexivity;
    destruct (tripletOrientation p1 q1 p2 =? 0)%Z,
             (tripletOrientation p1 q1 q2 =? 0)%Z,
             (tripletOrientation p2 q2 p1 =? 0)%Z,
             (tripletOrientation p2 q2 q1 =? 0)%Z,
             (pointOnSegment p1 p2 q1), (pointOnSegment p1 q2 q1),
             (pointOnSegment p2 p1 q2), (pointOnSegment p2 q1 q2);
    reflexivity.
Qed.

End IntersectSymmetry.

Section IntersectionPoint.
Import Exact.
Local Open Scope R_scope.

(** What [getSegmentsIntersection] computes, in exact arithmetic. *)
Lemma getSegmentsIntersection_exact (a b p q : Vec R) :
  let X := directionsCross a b p q in
  let ua := ((vx q - vx p) * (vy a - vy p) - (vy q - vy p) * (vx a - vx p)) / X in
  let ub := ((vx b - vx a) * (vy a - vy p) - (vy b - vy a) * (vx a - vx p)) / X in
  (getSegmentsIntersection a b p q
   = Some (mkVec (vx a + ua * (vx b - vx a)) (vy a + ua * (vy b - vy a)) 0)
   /\ X <> 0 /\ 0 <= ua <= 1 /\ 0 <= ub <= 1)
  \/ (getSegmentsIntersection a b p q = None
      /\ (X = 0 \/ ~ (0 <= ua <= 1 /\ 0 <= ub <= 1))).
Proof.
  cbv zeta. unfold getSegmentsIntersection, directionsCross. on_reals.
  replace ((vy q - vy p) * (vx b - vx a) - (vx q - vx p) * (vy b - vy a))
    with ((vx b - vx a) * (vy q - vy p) - (vy b - vy a) * (vx q - vx p))
    by ring.
  set (X := (vx b - vx a) * (vy q - vy p) - (vy b - vy a) * (vx q - vx p)).
  unfold Reqb, Rltb.
  destruct (Req_dec_T (vx a) (vx b)) as [E1 | E1];
    [destruct (Req_dec_T (vy a) (vy b)) as [E2 | E2] |].
  - right. split; [reflexivity |]. left. unfold X. rewrite E1, E2. ring.
  - cbn [andb orb].
    destruct (Req_dec_T (vx p) (vx q)) as [E3 | E3];
      [destruct (Req_dec_T (vy p) (vy q)) as [E4 | E4] |].
    + right. split; [reflexivity |]. left. unfold X. rewrite E3, E4. ring.
    + cbn [andb orb]. destruct (Req_dec_T X 0) as [X0 | X0];
        [right; split; [reflexivity | now left] |].
      repeat destruct (Rlt_dec _ _); cbn [orb];
        try (right; split; [reflexivity | right; lra]).
      left. rewrite Vector_exact. repeat split; try reflexivity; try lra.
    + cbn [andb orb]. destruct (Req_dec_T X 0) as [X0 | X0];
        [right; split; [reflexivity | now left] |].
      repeat destruct (Rlt_dec _ _); cbn [orb];
        try (right; split; [reflexivity | right; lra]).
      left. rewrite Vector_exact. repeat split; try reflexivity; try lra.
  - cbn [andb orb].
    destruct (Req_dec_T (vx p) (vx q)) as [E3 | E3];
      [destruct (Req_dec_T (vy p) (vy q)) as [E4 | E4] |].
    + right. split; [reflexivity |]. left. unfold X. rewrite E3, E4. ring.
    + cbn [andb orb]. destruct (Req_dec_T X 0) as [X0 | X0];
        [right; split; [reflexivity | now left] |].
      repeat destruct (Rlt_dec _ _); cbn [orb];
        try (right; split; [reflexivity | right; lra]).
      left. rewrite Vector_exact. repeat split; try reflexivity; try lra.
    + cbn [andb orb]. destruct (Req_dec_T X 0) as [X0 | X0];
        [right; split; [reflexivity | now left] |].
      repeat destruct (Rlt_dec _ _); cbn [orb];
        try (right; split; [reflexivity | right; lra]).
      left. rewrite Vector_exact. repeat split; try reflexivity; try lra.
Qed.

(** The parameters of the common point of two non-parallel segments are
    the two quotients [getSegmentsIntersection] computes. *)
Lemma meeting_parameters (a b p q : Vec R) (s t : R) :
  vx a + s * (vx b - vx a) = vx p + t * (vx q - vx p) ->
  vy a + s * (vy b - vy a) = vy p + t * (vy q - vy p) ->
  directionsCross a b p q <> 0 ->
  s = ((vx q - vx p) * (vy a - vy p) - (vy q - vy p) * (vx a - vx p))
      / directionsCross a b p q
  /\ t = ((vx b - vx a) * (vy a - vy p) - (vy b - vy a) * (vx a - vx p))
         / directionsCross a b p q.
Proof.
  intros Ex Ey HX. unfold directionsCross in *.
  split.
  - apply Rmult_eq_reg_r with
      ((vx b - vx a) * (vy q - vy p) - (vy b - vy a) * (vx q - vx p));
      [| exact HX].
    unfold Rdiv. rewrite Rmult_assoc, Rinv_l, Rmult_1_r by exact HX.
    replace (vx a - vx p) with (t * (vx q - vx p) - s * (vx b - vx a)) by lra.
    replace (vy a - vy p) with (t * (vy q - vy p) - s * (vy b - vy a)) by lra.
    ring.
  - apply Rmult_eq_reg_r with
      ((vx b - vx a) * (vy q - vy p) - (vy b - vy a) * (vx q - vx p));
      [| exact HX].
    unfold Rdiv. rewrite Rmult_assoc, Rinv_l, Rmult_1_r by exact HX.
    replace (vx a - vx p) with (t * (vx q - vx p) - s * (vx b - vx a)) by lra.
    replace (vy a - vy p) with (t * (vy q - vy p) - s * (vy b - vy a)) by lra.
    ring.
Qed.

(** In exact arithmetic [getSegmentsIntersection] returns a point exactly
    when [segmentsIntersect] answers 1, and the point it returns lies on
    both segments (its z is 0).  Parallel segments never give a point,
    even when they overlap. *)
Theorem getSegmentsIntersection_agrees (a b p q : Vec R) :
  (getSegmentsIntersection a b p q <> None
   <-> segmentsIntersect a b p q = 1%Z)
  /\ (forall P, getSegmentsIntersection a b p q = Some P ->
        exists s t, meetAt a b p q s t
          /\ P = mkVec (vx a + s * (vx b - vx a)) (vy a + s * (vy b - vy a)) 0
          /\ P = mkVec (vx p + t * (vx q - vx p)) (vy p + t * (vy q - vy p)) 0).
Proof.
  pose proof (getSegmentsIntersection_exact a b p q) as G. cbv zeta in G.
  set (X := directionsCross a b p q) in *.
  set (ua := ((vx q - vx p) * (vy a - vy p) - (vy q - vy p) * (vx a - vx p)) / X)
    in *.
  set (ub := ((vx b - vx a) * (vy a - vy p) - (vy b - vy a) * (vx a - vx p)) / X)
    in *.
  assert (Meet : X <> 0 ->
                 vx a + ua * (vx b - vx a) = vx p + ub * (vx q - vx p)
                 /\ vy a + ua * (vy b - vy a) = vy p + ub * (vy q - vy p)).
  { intros HX. unfold ua, ub, X, directionsCross in *. split; field; exact HX. }
  pose proof (segmentsIntersect_one_iff a b p q) as C1. fold X in C1.
  split.
  - split.
    + intros Hn. destruct G as [(E & HX & Ha & Hb) | (E & _)];
        [| contradiction].
      apply C1. split; [| exact HX].
      exists ua, ub. destruct (Meet HX) as [Mx My].
      repeat split; tauto.
    + intros E1. apply C1 in E1. destruct E1 as [(s & t & Hs & Ht & Ex & Ey) HX].
      destruct (meeting_parameters Ex Ey HX) as [Es Et].
      fold X in Es, Et. fold ua in Es. fold ub in Et.
      destruct G as [(E & _) | (E & [X0 | Hout])].
      * rewrite E. discriminate.
      * contradiction.
      * exfalso. apply Hout. rewrite <- Es, <- Et. tauto.
  - intros P HP. destruct G as [(E & HX & Ha & Hb) | (E & _)];
      [| rewrite E in HP; discriminate].
    rewrite E in HP. injection HP as <-.
    destruct (Meet HX) as [Mx My].
    exists ua, ub. split; [repeat split; tauto |].
    split; [reflexivity |]. now rewrite Mx, My.
Qed.

End IntersectionPoint.

(** ** The array helpers *)

Section RangeFacts.

Lemma range1_nonneg (n : nat) :
  range1 (Z.of_nat n) = Ret (map Z.of_nat (seq 0 n)).
Proof.
  unfold range1. destruct (Z.ltb_spec (Z.of_nat n) 0); [lia |].
  now rewrite Nat2Z.id.
Qed.

Lemma range_tuples_cons (d : Z) (ds : list Z) :
  range_tuples (d :: ds) = obind (range_tuples ds) (range_turn d).
Proof.
  unfold range_tuples. cbn [rev]. rewrite fold_left_app. reflexivity.
Qed.

Lemma In_seqZ (i : Z) (n : nat) :
  In i (map Z.of_nat (seq 0 n)) <-> (0 <= i < Z.of_nat n)%Z.
Proof.
  rewrite in_map_iff. split.
  - intros (k & <- & Hk). apply in_seq in Hk. lia.
  - intros H. exists (Z.to_nat i). split; [lia |]. apply in_seq. lia.
Qed.

Lemma concat_map_length {X Y} (f : X -> list Y) (l : list X) (m : nat) :
  (forall x, length (f x) = m) -> length (concat (map f l)) = (length l * m)%nat.
Proof.
  intros H. induction l as [| x l IH]; [reflexivity |].
  cbn [map concat]. rewrite length_app, H, IH. reflexivity.
Qed.

Lemma lexlt_cons_sorted (out : list (list Z)) (i : Z) :
  StronglySorted lexlt out ->
  StronglySorted lexlt (map (fun j => i :: j) out).
Proof.
  induction 1 as [| t out Hs IH Hall]; [constructor |].
  cbn [map]. constructor; [exact IH |].
  apply Forall_map. eapply Forall_impl; [| exact Hall].
  intros u Hu. cbn. right. split; [reflexivity | exact Hu].
Qed.

Lemma range_rows_sorted (out : list (list Z)) (k : nat) (n : nat) :
  StronglySorted lexlt out ->
  StronglySorted lexlt
    (concat (map (fun i => map (fun j => i :: j) out)
                 (map Z.of_nat (seq k n)))).
Proof.
  intros Hs. revert k. induction n as [| n IH]; intros k; [constructor |].
  cbn [seq map concat].
  assert (Hrest : forall t, In t (concat (map (fun i => map (fun j => i :: j) out)
                                              (map Z.of_nat (seq (S k) n)))) ->
                            exists i u, t = i :: u /\ (Z.of_nat k < i)%Z).
  { intros t Ht. apply in_concat in Ht. destruct Ht as (row & Hrow & Ht).
    apply in_map_iff in Hrow. destruct Hrow as (i & <- & Hi).
    apply in_map_iff in Ht. destruct Ht as (u & <- & _).
    apply in_map_iff in Hi. destruct Hi as (m & <- & Hm).
    apply in_seq in Hm. exists (Z.of_nat m), u. split; [reflexivity | lia]. }
  generalize (lexlt_cons_sorted (Z.of_nat k) Hs).
  generalize (IH (S k)).
  set (rest := concat _) in *. clearbody rest.
  assert (Hhead : Forall (fun t => exists u, t = Z.of_nat k :: u)
                         (map (fun j => Z.of_nat k :: j) out)).
  { apply Forall_map. apply Forall_forall. intros u _. now exists u. }
  revert Hhead. generalize (map (fun j => Z.of_nat k :: j) out) as row.
  intros row Hhead Hrest_sorted Hrow.
  induction Hrow as [| t row Hrow IHrow Hall]; [exact Hrest_sorted |].
  cbn [app]. inversion Hhead as [| ? ? [u ->] Hhead']; subst.
  constructor; [apply IHrow; exact Hhead' |].
  apply Forall_app. split; [exact Hall |].
  apply Forall_forall. intros t Ht. destruct (Hrest t Ht) as (i & u' & -> & Hi).
  cbn. left. exact Hi.
Qed.

(** [range(d1, ..., dk)] lists every index tuple [(i1, ..., ik)] with
    [0 <= ij < dj], in lexicographic order ([d1 * ... * dk] tuples); a
    negative dimension raises RangeError. *)
Theorem range_enumerates (dims : list Z) :
  (Forall (fun d => (0 <= d)%Z) dims ->
   exists out,
     range_tuples dims = Ret out
     /\ Z.of_nat (length out) = fold_right Z.mul 1%Z dims
     /\ StronglySorted lexlt out
     /\ forall t, In t out <-> Forall2 (fun i d => (0 <= i < d)%Z) t dims)
  /\ (Exists (fun d => (d < 0)%Z) dims -> range_tuples dims = Throw RangeError).
Proof.
  split.
  - induction dims as [| d ds IH]; intros Hd.
    + exists [[]]. repeat split.
      * repeat constructor.
      * intros [<- | []]. constructor.
      * intros H. inversion H. now left.
    + inversion Hd as [| ? ? Hd0 Hds]; subst.
      destruct (IH Hds) as (out & E & Hlen & Hsort & Hin).
      rewrite range_tuples_cons, E. cbn [obind]. unfold range_turn.
      assert (Er : range1 d = Ret (map Z.of_nat (seq 0 (Z.to_nat d)))).
      { unfold range1. destruct (Z.ltb_spec d 0); [lia | reflexivity]. }
      rewrite Er. cbn [obind].
      eexists. split; [reflexivity |]. repeat split.
      * rewrite (@concat_map_length _ _ _ _ (length out))
          by (intros; apply length_map).
        rewrite length_map, length_seq. cbn [fold_right].
        rewrite <- Hlen. lia.
      * apply range_rows_sorted. exact Hsort.
      * intros Ht. apply in_concat in Ht. destruct Ht as (row & Hrow & Ht).
        apply in_map_iff in Hrow. destruct Hrow as (i & <- & Hi).
        apply in_map_iff in Ht. destruct Ht as (u & <- & Hu).
        constructor; [| now apply Hin].
        apply In_seqZ in Hi. lia.
      * intros Ht. inversion Ht as [| i ? u ? Hi Hu]; subst.
        apply in_concat. exists (map (fun j => i :: j) out). split.
        -- apply in_map_iff. exists i. split; [reflexivity |].
           apply In_seqZ. lia.
        -- apply in_map_iff. exists u. split; [reflexivity | now apply Hin].
  - induction dims as [| d ds IH]; intros Hex; [inversion Hex |].
    rewrite range_tuples_cons.
    destruct (Exists_dec (fun d => (d < 0)%Z) ds) as [Hds | Hds].
    { intros x. destruct (Z_lt_dec x 0); [now left | now right]. }
    + rewrite (IH Hds). reflexivity.
    + inversion Hex as [? ? Hd | ? ? Hds']; subst; [| contradiction].
      destruct (range_tuples ds) as [out | e] eqn:E.
      * cbn [obind]. unfold range_turn, range1.
        destruct (Z.ltb_spec d 0); [reflexivity | lia].
      * cbn [obind]. f_equal.
        (* the only error the loop raises is RangeError *)
        clear -E. revert e E. induction ds as [| d' ds' IH']; intros e E.
        -- discriminate.
        -- rewrite range_tuples_cons in E.
           destruct (range_tuples ds') as [out' | e'] eqn:E'.
           ++ cbn [obind] in E. unfold range_turn, range1 in E.
              destruct (d' <? 0)%Z; cbn [obind] in E; congruence.
           ++ cbn [obind] in E. injection E as <-. now apply IH'.
Qed.

(** With one dimension the flattened result is the list [0 .. n-1] that
    [range(n)] returns. *)
Lemma range_flat_one (n : Z) : range_flat [n] = range n.
Proof.
  unfold range_flat, range_tuples, range_turn, range1, range. cbn.
  destruct (n <? 0)%Z; [reflexivity |]. cbn. f_equal.
  induction (seq 0 (Z.to_nat n)) as [| k l IH]; [reflexivity |].
  cbn. now rewrite IH.
Qed.

End RangeFacts.

Section AtFacts.
Context {A : Type}.










End AtFacts.

Section Choose2Facts.
Context {A : Type}.

Lemma choose2_from (pre l : list A) :
  concat (mapi_from (Z.of_nat (length pre))
            (fun v i => map (fun w => (v, w))
                            (skipn (Z.to_nat (i + 1)) (pre ++ l)))
            l)
  = pairs_after l.
Proof.
  revert pre. induction l as [| v t IH]; intros pre; [reflexivity |].
  cbn [mapi_from concat pairs_after]. f_equal.
  - f_equal. replace (Z.to_nat (Z.of_nat (length pre) + 1)) with (length pre + 1)%nat
      by lia.
    replace (pre ++ v :: t) with ((pre ++ [v]) ++ t)
      by (rewrite <- app_assoc; reflexivity).
    rewrite skipn_app.
    rewrite skipn_all2 by (rewrite length_app; cbn; lia).
    rewrite length_app. cbn [length app].
    replace (length pre + 1 - (length pre + 1))%nat with 0%nat by lia.
    reflexivity.
  - specialize (IH (pre ++ [v])).
    rewrite length_app in IH. cbn [length] in IH.
    replace (Z.of_nat (length pre + 1)) with (Z.of_nat (length pre) + 1)%Z in IH
      by lia.
    rewrite <- app_assoc in IH. exact IH.
Qed.

Lemma choose2_pairs_after (l : list A) : choose2 l = pairs_after l.
Proof. exact (choose2_from [] l). Qed.

Lemma pairs_after_length (l : list A) :
  (2 * length (pairs_after l) = length l * (length l - 1))%nat.
Proof.
  induction l as [| v t IH]; [reflexivity |].
  cbn [pairs_after length]. rewrite length_app, length_map.
  replace (S (length t) - 1)%nat with (length t) by lia.
  destruct (length t) as [| m] eqn:E; [lia |].
  replace (S m - 1)%nat with m in IH by lia. nia.
Qed.

Lemma pairs_after_In (l : list A) (v w : A) :
  In (v, w) (pairs_after l)
  <-> exists i j, (i < j)%nat /\ nth_error l i = Some v
                  /\ nth_error l j = Some w.
Proof.
  induction l as [| a t IH].
  - split; [intros [] |]. intros (i & j & _ & H & _). destruct i; discriminate.
  - cbn [pairs_after]. rewrite in_app_iff, in_map_iff, IH. split.
    + intros [(w' & E & Hw) | (i & j & Hij & Hi & Hj)].
      * injection E as <- <-. apply In_nth_error in Hw. destruct Hw as [j Hj].
        exists 0%nat, (S j). repeat split; [lia | exact Hj].
      * exists (S i), (S j). repeat split; [lia | exact Hi | exact Hj].
    + intros (i & j & Hij & Hi & Hj). destruct j as [| j]; [lia |].
      cbn [nth_error] in Hj. destruct i as [| i].
      * left. cbn in Hi. injection Hi as <-. exists w. split; [reflexivity |].
        eapply nth_error_In. exact Hj.
      * right. exists i, j. repeat split; [lia | exact Hi | exact Hj].
Qed.

(** [choose2] returns every pair of two positions [i < j] of the list, the
    earlier element first: [n (n - 1) / 2] pairs for [n] values, and no pair
    of an element with itself or in the reverse order of positions. *)
Theorem choose2_all_pairs (l : list A) :
  (2 * length (choose2 l) = length l * (length l - 1))%nat
  /\ forall v w,
       In (v, w) (choose2 l)
       <-> exists i j, (i < j)%nat /\ nth_error l i = Some v
                       /\ nth_error l j = Some w.
Proof.
  rewrite choose2_pairs_after. split.
  - apply pairs_after_length.
  - apply pairs_after_In.
Qed.

End Choose2Facts.

Section PrefixSums.
Context {num : Type} {N : Num num}.

Lemma cumulativeSum_from_nth (l : list num) (p d : num) (i : nat) :
  (i < length l)%nat ->
  nth i (cumulativeSum_from p l) d = fold_left nadd (firstn (S i) l) p.
Proof.
  revert p i. induction l as [| c t IH]; intros p i Hi; [cbn in Hi; lia |].
  destruct i as [| i]; [reflexivity |].
  cbn [cumulativeSum_from nth]. rewrite IH by (cbn in Hi; lia). reflexivity.
Qed.

(** [cumulativeSum()] has one entry per element, the entry at [i] is the
    sum of the elements up to [i] added in the order [sum()] adds them, and
    so its last entry is [sum()] itself, bit for bit in every arithmetic. *)
Theorem cumulativeSum_prefix_sums (l : list num) (d : num) :
  length (cumulativeSum l) = length l
  /\ (forall i, (i < length l)%nat ->
        nth i (cumulativeSum l) d = sum (firstn (S i) l))
  /\ nth (length l - 1) (cumulativeSum l) (sum l) = sum l.
Proof.
  unfold cumulativeSum, sum. repeat split.
  - apply cumulativeSum_from_length.
  - intros i Hi. now apply cumulativeSum_from_nth.
  - destruct l as [| c t] eqn:E; [reflexivity |]. rewrite <- E.
    rewrite cumulativeSum_from_nth by (subst l; cbn; lia).
    replace (S (length l - 1)) with (length l) by (subst l; cbn; lia).
    now rewrite firstn_all.
Qed.

End PrefixSums.

Section ArgExact.
Import Exact.
Local Open Scope R_scope.

Lemma sortBy_hd_error {A} (gt : A -> A -> bool) (a : A) (l : list A) :
  hd_error (sortBy gt (a :: l))
  = match hd_error (sortBy gt l) with
    | None => Some a
    | Some h => if gt a h then Some h else Some a
    end.
Proof.
  unfold sortBy. cbn [fold_right].
  destruct (fold_right (sort_insert gt) [] l) as [| h t]; [reflexivity |].
  cbn [sort_insert hd_error]. destruct (gt a h); reflexivity.
Qed.

Lemma at_zero_hd_error {A} (l : list A) : at_ l 0 = hd_error l.
Proof. destruct l; [reflexivity | apply at_head]. Qed.

Lemma argmin_from (l : list R) (k : Z) :
  l <> [] ->
  exists i,
    hd_error (sortBy (fun a b : R * Z => Rltb 0 (fst a - fst b))
                     (mapi_from k (fun item idx => (item, idx)) l))
    = Some (nth i l 0, (k + Z.of_nat i)%Z)
    /\ (i < length l)%nat
    /\ (forall j, (j < length l)%nat -> nth i l 0 <= nth j l 0)
    /\ (forall j, (j < i)%nat -> nth i l 0 < nth j l 0).
Proof.
  revert k. induction l as [| a t IH]; intros k Hl; [congruence |].
  cbn [mapi_from]. rewrite sortBy_hd_error.
  assert (Ht : t = [] \/ t <> []) by (destruct t; [left | right]; congruence).
  destruct Ht as [-> | Ht].
  - exists 0%nat. cbn. replace (k + 0)%Z with k by lia.
    repeat split; [lia | | intros; lia].
    intros j Hj. replace j with 0%nat by lia. lra.
  - destruct (IH (k + 1)%Z Ht) as (i & E & Hi & Hmin & Hfirst).
    rewrite E. cbn [fst]. unfold Rltb.
    destruct (Rlt_dec 0 (a - nth i t 0)) as [Hlt | Hge].
    + exists (S i). cbn [nth length]. repeat split.
      * do 2 f_equal. lia.
      * lia.
      * intros [| j] Hj; [lra | apply Hmin; lia].
      * intros [| j] Hj; [lra | apply Hfirst; lia].
    + exists 0%nat. cbn [nth length]. repeat split.
      * do 2 f_equal. lia.
      * lia.
      * intros [| j] Hj; [lra |].
        assert (Hj' : (j < length t)%nat) by lia.
        specialize (Hmin j Hj'). lra.
      * intros; lia.
Qed.

Lemma argmax_from (l : list R) (k : Z) :
  l <> [] ->
  exists i,
    hd_error (sortBy (fun a b : R * Z => Rltb 0 (fst b - fst a))
                     (mapi_from k (fun item idx => (item, idx)) l))
    = Some (nth i l 0, (k + Z.of_nat i)%Z)
    /\ (i < length l)%nat
    /\ (forall j, (j < length l)%nat -> nth j l 0 <= nth i l 0)
    /\ (forall j, (j < i)%nat -> nth j l 0 < nth i l 0).
Proof.
  revert k. induction l as [| a t IH]; intros k Hl; [congruence |].
  cbn [mapi_from]. rewrite sortBy_hd_error.
  assert (Ht : t = [] \/ t <> []) by (destruct t; [left | right]; congruence).
  destruct Ht as [-> | Ht].
  - exists 0%nat. cbn. replace (k + 0)%Z with k by lia.
    repeat split; [lia | | intros; lia].
    intros j Hj. replace j with 0%nat by lia. lra.
  - destruct (IH (k + 1)%Z Ht) as (i & E & Hi & Hmax & Hfirst).
    rewrite E. cbn [fst]. unfold Rltb.
    destruct (Rlt_dec 0 (nth i t 0 - a)) as [Hlt | Hge].
    + exists (S i). cbn [nth length]. repeat split.
      * do 2 f_equal. lia.
      * lia.
      * intros [| j] Hj; [lra | apply Hmax; lia].
      * intros [| j] Hj; [lra | apply Hfirst; lia].
    + exists 0%nat. cbn [nth length]. repeat split.
      * do 2 f_equal. lia.
      * lia.
      * intros [| j] Hj; [lra |].
        assert (Hj' : (j < length t)%nat) by lia.
        specialize (Hmax j Hj'). lra.
      * intros; lia.
Qed.

(** In exact arithmetic [argMin()] is the index of the first smallest
    element and [argMax()] the index of the first largest one; on the empty
    array both are [null]. *)
Theorem argMin_argMax_first_extremes (l : list R) :
  (l = [] -> argMin l = None /\ argMax l = None)
  /\ (l <> [] ->
      (exists i, argMin l = Some (Z.of_nat i) /\ (i < length l)%nat
         /\ (forall j, (j < length l)%nat -> nth i l 0 <= nth j l 0)
         /\ (forall j, (j < i)%nat -> nth i l 0 < nth j l 0))
      /\ (exists i, argMax l = Some (Z.of_nat i) /\ (i < length l)%nat
            /\ (forall j, (j < length l)%nat -> nth j l 0 <= nth i l 0)
            /\ (forall j, (j < i)%nat -> nth j l 0 < nth i l 0))).
Proof.
  split; [intros ->; split; reflexivity |].
  intros Hl. split.
  - destruct (argmin_from 0 Hl) as (i & E & Hi & Hmin & Hfirst).
    exists i. split; [| tauto].
    unfold argMin, argAt, mapi. rewrite at_zero_hd_error.
    on_reals. change (@n0 R exact) with 0. rewrite E. reflexivity.
  - destruct (argmax_from 0 Hl) as (i & E & Hi & Hmax & Hfirst).
    exists i. split; [| tauto].
    unfold argMax, argAt, mapi. rewrite at_zero_hd_error.
    on_reals. change (@n0 R exact) with 0. rewrite E. reflexivity.
Qed.

End ArgExact.

(** ** The scalar helpers in exact arithmetic *)

Section ScalarsExact.
Import Exact.
Local Open Scope R_scope.

Lemma nmin_exact (a b : R) : nmin a b = Rmin a b.
Proof.
  unfold nmin. rewrite !isNaN_exact. on_reals. unfold Rltb, Rmin.
  destruct (Rlt_dec b a), (Rle_dec a b); try reflexivity; lra.
Qed.

Lemma nmax_exact (a b : R) : nmax a b = Rmax a b.
Proof.
  unfold nmax. rewrite !isNaN_exact. on_reals. unfold Rltb, Rmax.
  destruct (Rlt_dec a b), (Rle_dec a b); try reflexivity; lra.
Qed.

Lemma clamp_exact (a l h : R) :
  clamp a l h = Rmax (Rmin a (Rmax l h)) (Rmin l h).
Proof.
  unfold clamp. on_reals. unfold Rltb.
  destruct (Rlt_dec h l); rewrite nmax_exact, nmin_exact;
    unfold Rmax, Rmin; repeat destruct (Rle_dec _ _); lra.
Qed.

(** [clamp] takes its bounds in either order: the result lies between the
    smaller and the larger bound, a value between them is returned as it
    is, and clamping twice changes nothing. *)
Theorem clamp_between (a l h : R) :
  Rmin l h <= clamp a l h <= Rmax l h
  /\ clamp a h l = clamp a l h
  /\ (Rmin l h <= a <= Rmax l h -> clamp a l h = a)
  /\ clamp (clamp a l h) l h = clamp a l h.
Proof.
  rewrite !clamp_exact. unfold Rmax, Rmin.
  repeat split; repeat destruct (Rle_dec _ _); try lra; intros; lra.
Qed.

Lemma Int_part_bounds (x : R) : IZR (Int_part x) <= x < IZR (Int_part x) + 1.
Proof. destruct (base_Int_part x). lra. Qed.

Lemma Rceil_bounds (x : R) : IZR (Rceil x) - 1 < x <= IZR (Rceil x).
Proof.
  unfold Rceil. rewrite opp_IZR. destruct (base_Int_part (- x)). lra.
Qed.

Lemma Rmod_floor (a r : R) :
  0 < r -> 0 <= a -> Rmod a r = a - r * IZR (Int_part (a / r)).
Proof.
  intros Hr Ha.
  assert (Hq := Int_part_bounds (a / r)).
  assert (E : a / r * r = a) by (field; lra).
  assert (H0 : 0 <= a / r).
  { apply Rmult_le_reg_r with r; [exact Hr |]. rewrite E. lra. }
  assert (Hk : (0 <= Int_part (a / r))%Z).
  { apply le_IZR. apply Rnot_lt_le. intros Hneg.
    assert (IZR (Int_part (a / r)) <= -1).
    { apply IZR_le. apply lt_IZR in Hneg. lia. }
    lra. }
  apply Rmod_between; [exact Hr | exact Hk |].
  split; nra.
Qed.

Lemma Int_part_add (x : R) (m : Z) :
  Int_part (x + IZR m) = (Int_part x + m)%Z.
Proof.
  apply Rfloor_between. rewrite plus_IZR.
  pose proof (Int_part_bounds x). lra.
Qed.

(** [wrap(a, r)] for a positive range is [a] minus [r] times the integer
    part of [a / r]. *)
Lemma wrap_floor (a r : R) :
  0 < r -> wrap a r = a - r * IZR (Int_part (a / r)).
Proof.
  intros Hr. unfold wrap. on_reals.
  set (m := Rceil (Rabs (a / r))).
  assert (Hm := Rceil_bounds (Rabs (a / r))). fold m in Hm.
  assert (E : a / r * r = a) by (field; lra).
  assert (Habs : - Rabs (a / r) <= a / r) by
    (pose proof (Rle_abs (- (a / r))); rewrite Rabs_Ropp in *; lra).
  assert (Hnn : 0 <= a + IZR m * r) by nra.
  rewrite Rmod_floor by assumption.
  replace ((a + IZR m * r) / r) with (a / r + IZR m) by (field; lra).
  rewrite Int_part_add, plus_IZR. ring.
Qed.

Lemma mod_floor (a b : R) :
  0 < b -> mod_ a b = a - b * IZR (Int_part (a / b)).
Proof.
  intros Hb. unfold mod_. on_reals. unfold Rfloor.
  set (q := Int_part (a / b)).
  assert (Hq := Int_part_bounds (a / b)). fold q in Hq.
  assert (E : a / b * b = a) by (field; lra).
  rewrite <- abs_IZR.
  assert (Hge : IZR q <= IZR (Z.abs q)) by (apply IZR_le; lia).
  assert (Hge' : - IZR q <= IZR (Z.abs q)).
  { rewrite <- opp_IZR. apply IZR_le. lia. }
  assert (Hnn : 0 <= a + IZR (Z.abs q) * b) by nra.
  rewrite Rmod_floor by assumption.
  replace ((a + IZR (Z.abs q) * b) / b) with (a / b + IZR (Z.abs q))
    by (field; lra).
  rewrite Int_part_add, plus_IZR. fold q. ring.
Qed.

Lemma wrap_facts (a r : R) :
  0 < r ->
  0 <= wrap a r < r
  /\ (exists k : Z, wrap a r = a + IZR k * r)
  /\ wrap (wrap a r) r = wrap a r
  /\ mod_ a r = wrap a r.
Proof.
  intros Hr.
  assert (Hq := Int_part_bounds (a / r)).
  assert (E : a / r * r = a) by (field; lra).
  assert (Hw : 0 <= wrap a r < r) by (rewrite wrap_floor by exact Hr; nra).
  repeat split; try apply Hw.
  - exists (- Int_part (a / r))%Z. rewrite wrap_floor, opp_IZR by exact Hr.
    ring.
  - apply wrap_inside. exact Hw.
  - rewrite wrap_floor, mod_floor by exact Hr. reflexivity.
Qed.

(** For a positive range [r], [wrap(a, r)] lies in [0, r), differs from
    [a] by a whole multiple of [r], leaves a value of [0, r) as it is, and
    is the same as [mod(a, r)]. *)
Theorem wrap_into_range (a r : R) :
  0 < r ->
  0 <= wrap a r < r
  /\ (exists k : Z, wrap a r = a + IZR k * r)
  /\ wrap (wrap a r) r = wrap a r
  /\ mod_ a r = wrap a r.
Proof. exact (@wrap_facts a r). Qed.

Lemma wrap_into_range_witness :
  0 < 1
  /\ 0 <= wrap (-1 / 2) 1 < 1
  /\ (exists k : Z, wrap (-1 / 2) 1 = -1 / 2 + IZR k * 1)
  /\ wrap (wrap (-1 / 2) 1) 1 = wrap (-1 / 2) 1
  /\ mod_ (-1 / 2) 1 = wrap (-1 / 2) 1.
Proof.
  split; [lra |]. apply (@wrap_into_range (-1 / 2) 1). lra.
Defined.

End ScalarsExact.

Section WrappedDiffExact.
Import Exact.
Local Open Scope R_scope.

Lemma xor_spec (a b : bool) : xor a b = xorb a b.
Proof. destruct a, b; reflexivity. Qed.

(** [minWrappedDiff] on the wrapped arguments. *)
Lemma minWrappedDiff_exact (a b r : R) :
  0 < r ->
  let a' := wrap a r in
  let b' := wrap b r in
  minWrappedDiff a b r
  = if Rlt_dec (r / 2) (Rabs (a' - b'))
    then if Rlt_dec a' b' then a' - b' + r else a' - b' - r
    else a' - b'.
Proof.
  intros Hr a' b'. unfold minWrappedDiff, prepareWrappedComparison, minmax.
  fold a' b'. rewrite nmin_exact, nmax_exact, xor_spec. on_reals.
  unfold Rltb, Reqb, Rmin, Rmax, Rabs.
  destruct (Rle_dec a' b') as [Hab | Hab];
    destruct (Rlt_dec (r / 2) _) as [Hq | Hq];
    destruct (Req_dec_T a' _) as [He | He];
    destruct (Rcase_abs (a' - b')) as [Hn | Hn];
    destruct (Rlt_dec (r / 2) _) as [Hq' | Hq'];
    try destruct (Rlt_dec a' b') as [Hlt | Hlt];
    cbn [xorb]; try lra.
Qed.

(** For a positive range [r], [minWrappedDiff(a, b, r)] is the
    representative of [a - b] modulo [r] of the smallest absolute value: it
    lies in [-r/2, r/2] and differs from [a - b] by a whole multiple of
    [r]; exchanging [a] and [b] changes its sign, so [absWrappedDiff] is
    symmetric. *)
Theorem minWrappedDiff_shortest (a b r : R) :
  0 < r ->
  - (r / 2) <= minWrappedDiff a b r <= r / 2
  /\ (exists k : Z, minWrappedDiff a b r = a - b + IZR k * r)
  /\ minWrappedDiff b a r = - minWrappedDiff a b r
  /\ absWrappedDiff b a r = absWrappedDiff a b r
  /\ 0 <= absWrappedDiff a b r <= r / 2.
Proof.
  intros Hr.
  destruct (wrap_facts a Hr) as (Ha & (ka & Eka) & _).
  destruct (wrap_facts b Hr) as (Hb & (kb & Ekb) & _).
  pose proof (minWrappedDiff_exact a b Hr) as Eab.
  pose proof (minWrappedDiff_exact b a Hr) as Eba.
  cbv zeta in Eab, Eba.
  set (a' := wrap a r) in *. set (b' := wrap b r) in *.
  clearbody a' b'.
  assert (Hrange : - (r / 2) <= minWrappedDiff a b r <= r / 2).
  { rewrite Eab. clear Eab Eba. unfold Rabs.
    destruct (Rcase_abs (a' - b'));
      destruct (Rlt_dec (r / 2) _) as [Hq | Hq];
      try destruct (Rlt_dec a' b'); lra. }
  assert (Hanti : minWrappedDiff b a r = - minWrappedDiff a b r).
  { rewrite Eab, Eba. clear Eab Eba Hrange. unfold Rabs.
    destruct (Rcase_abs (a' - b')); destruct (Rcase_abs (b' - a'));
      destruct (Rlt_dec (r / 2) _) as [Hq | Hq];
      destruct (Rlt_dec (r / 2) _) as [Hq' | Hq'];
      try destruct (Rlt_dec a' b'); try destruct (Rlt_dec b' a'); lra. }
  repeat split; try apply Hrange.
  - rewrite Eab. clear Eab Eba Hrange Hanti.
    destruct (Rlt_dec (r / 2) _); [destruct (Rlt_dec a' b') |].
    + exists (ka - kb + 1)%Z. rewrite plus_IZR, minus_IZR. lra.
    + exists (ka - kb - 1)%Z. rewrite !minus_IZR. lra.
    + exists (ka - kb)%Z. rewrite minus_IZR. lra.
  - exact Hanti.
  - unfold absWrappedDiff. on_reals. rewrite Hanti. apply Rabs_Ropp.
  - unfold absWrappedDiff. on_reals. apply Rabs_pos.
  - unfold absWrappedDiff. on_reals. apply Rabs_le. lra.
Qed.

Lemma minWrappedDiff_shortest_witness :
  0 < 1
  /\ - (1 / 2) <= minWrappedDiff (3 / 4) 0 1 <= 1 / 2
  /\ (exists k : Z, minWrappedDiff (3 / 4) 0 1 = 3 / 4 - 0 + IZR k * 1)
  /\ minWrappedDiff 0 (3 / 4) 1 = - minWrappedDiff (3 / 4) 0 1
  /\ absWrappedDiff 0 (3 / 4) 1 = absWrappedDiff (3 / 4) 0 1
  /\ 0 <= absWrappedDiff (3 / 4) 0 1 <= 1 / 2.
Proof.
  split; [lra |]. apply (@minWrappedDiff_shortest (3 / 4) 0 1). lra.
Defined.

End WrappedDiffExact.

Section MapValueExact.
Import Exact.
Local Open Scope R_scope.

Lemma mapValueWith_true (n s1 e1 s2 e2 : R) :
  mapValueWith n s1 e1 s2 e2 true = mapValue n s1 e1 s2 e2.
Proof. reflexivity. Qed.

Lemma mapValueWith_exact (n s1 e1 s2 e2 : R) :
  mapValueWith n s1 e1 s2 e2 false = (n - s1) / (e1 - s1) * (e2 - s2) + s2
  /\ mapValueWith n s1 e1 s2 e2 true
     = Rmax (Rmin ((n - s1) / (e1 - s1) * (e2 - s2) + s2) (Rmax s2 e2))
            (Rmin s2 e2).
Proof.
  split; [reflexivity |].
  unfold mapValueWith, minmax. cbn [negb].
  rewrite clamp_exact, nmin_exact, nmax_exact. on_reals.
  unfold Rmax, Rmin. repeat destruct (Rle_dec _ _); lra.
Qed.

(** [mapValue] maps the range from [start1] to [stop1] affinely onto the
    range from [start2] to [stop2]: the ends go to the ends, mapping back
    with the ranges exchanged returns the input, and with [withinBounds]
    the result is kept between [start2] and [stop2] and is unchanged for an
    input between [start1] and [stop1]. *)
Theorem mapValue_affine (n s1 e1 s2 e2 : R) :
  s1 <> e1 ->
  mapValueWith s1 s1 e1 s2 e2 false = s2
  /\ mapValueWith e1 s1 e1 s2 e2 false = e2
  /\ (s2 <> e2 ->
      mapValueWith (mapValueWith n s1 e1 s2 e2 false) s2 e2 s1 e1 false = n)
  /\ Rmin s2 e2 <= mapValueWith n s1 e1 s2 e2 true <= Rmax s2 e2
  /\ (Rmin s1 e1 <= n <= Rmax s1 e1 ->
      mapValueWith n s1 e1 s2 e2 true = mapValueWith n s1 e1 s2 e2 false).
Proof.
  intros H1.
  destruct (mapValueWith_exact n s1 e1 s2 e2) as [Ef Et].
  repeat split.
  - destruct (mapValueWith_exact s1 s1 e1 s2 e2) as [-> _]. field. lra.
  - destruct (mapValueWith_exact e1 s1 e1 s2 e2) as [-> _]. field. lra.
  - intros H2. rewrite Ef.
    destruct (mapValueWith_exact ((n - s1) / (e1 - s1) * (e2 - s2) + s2)
                                 s2 e2 s1 e1) as [-> _].
    field. split; lra.
  - rewrite Et. unfold Rmax, Rmin. repeat destruct (Rle_dec _ _); lra.
  - rewrite Et. unfold Rmax, Rmin. repeat destruct (Rle_dec _ _); lra.
  - intros Hn. rewrite Et, Ef.
    set (t := (n - s1) / (e1 - s1)).
    assert (Et' : t * (e1 - s1) = n - s1) by (unfold t; field; lra).
    assert (Ht : 0 <= t <= 1).
    { revert Hn. unfold Rmax, Rmin. destruct (Rle_dec s1 e1); intros Hn;
        split; nra. }
    unfold Rmax, Rmin. repeat destruct (Rle_dec _ _); nra.
Qed.

Lemma mapValue_affine_witness :
  0 <> 10
  /\ mapValueWith 0 0 10 1 3 false = 1
  /\ mapValueWith 10 0 10 1 3 false = 3
  /\ (1 <> 3 ->
      mapValueWith (mapValueWith 5 0 10 1 3 false) 1 3 0 10 false = 5)
  /\ Rmin 1 3 <= mapValueWith 5 0 10 1 3 true <= Rmax 1 3
  /\ (Rmin 0 10 <= 5 <= Rmax 0 10 ->
      mapValueWith 5 0 10 1 3 true = mapValueWith 5 0 10 1 3 false).
Proof.
  split; [lra |]. apply (@mapValue_affine 5 0 10 1 3). lra.
Defined.

(** [lerpValue(a, b, c)] and the unclamped [mapValue] from the range
    [a .. b] to [0 .. 1] are inverse to each other, and [lerpValue] is [a]
    at 0 and [b] at 1. *)
Theorem lerpValue_inverts_mapValue (a b c : R) :
  a <> b ->
  mapValueWith (lerpValue a b c) a b 0 1 false = c
  /\ lerpValue a b (mapValueWith c a b 0 1 false) = c
  /\ lerpValue a b 0 = a
  /\ lerpValue a b 1 = b.
Proof.
  intros H. repeat split.
  - destruct (mapValueWith_exact (lerpValue a b c) a b 0 1) as [-> _].
    unfold lerpValue. on_reals. field. lra.
  - destruct (mapValueWith_exact c a b 0 1) as [-> _].
    unfold lerpValue. on_reals. field. lra.
  - unfold lerpValue. on_reals. ring.
  - unfold lerpValue. on_reals. ring.
Qed.

Lemma lerpValue_inverts_mapValue_witness :
  2 <> 6
  /\ mapValueWith (lerpValue 2 6 (1 / 4)) 2 6 0 1 false = 1 / 4
  /\ lerpValue 2 6 (mapValueWith (1 / 4) 2 6 0 1 false) = 1 / 4
  /\ lerpValue 2 6 0 = 2
  /\ lerpValue 2 6 1 = 6.
Proof.
  split; [lra |]. apply (@lerpValue_inverts_mapValue 2 6 (1 / 4)). lra.
Defined.

Lemma logistic_exact (x : R) :
  logistic x
  = if Rle_dec x 0 then 0
    else if Rle_dec 1 x then 1 else (1 - cos (PI * x)) / 2.
Proof.
  unfold logistic.
  change (mapValue x n0 n1 n0 n1) with (mapValueWith x 0 1 0 1 true).
  destruct (mapValueWith_exact x 0 1 0 1) as [_ ->]. on_reals.
  change (@n0 R exact) with 0. change (@n1 R exact) with 1.
  replace ((x - 0) / (1 - 0) * (1 - 0) + 0) with x by field.
  unfold Rleb, Rmax, Rmin.
  repeat destruct (Rle_dec _ _); try lra; try reflexivity.
Qed.

(** [logistic] is an easing curve: 0 up to 0, 1 from 1 on, in between
    [(1 - cos(pi a)) / 2], which stays within [0, 1], never decreases, is
    1/2 at 1/2 and is symmetric about that point. *)
Theorem logistic_easing (x y : R) :
  0 <= logistic x <= 1
  /\ (x <= 0 -> logistic x = 0)
  /\ (1 <= x -> logistic x = 1)
  /\ (0 < x < 1 -> logistic x = (1 - cos (PI * x)) / 2)
  /\ logistic (1 / 2) = 1 / 2
  /\ logistic (1 - x) = 1 - logistic x
  /\ (x <= y -> logistic x <= logistic y).
Proof.
  pose proof PI_RGT_0 as HPI.
  assert (Hb : forall z, 0 <= logistic z <= 1).
  { intros z. rewrite logistic_exact.
    destruct (Rle_dec z 0); [lra |]. destruct (Rle_dec 1 z); [lra |].
    pose proof (COS_bound (PI * z)). lra. }
  repeat split; try apply Hb.
  - intros H. rewrite logistic_exact. destruct (Rle_dec x 0); [reflexivity | lra].
  - intros H. rewrite logistic_exact.
    destruct (Rle_dec x 0); [lra |]. destruct (Rle_dec 1 x); [reflexivity | lra].
  - intros H. rewrite logistic_exact.
    destruct (Rle_dec x 0); [lra |]. destruct (Rle_dec 1 x); [lra | reflexivity].
  - rewrite logistic_exact.
    destruct (Rle_dec (1 / 2) 0); [lra |]. destruct (Rle_dec 1 (1 / 2)); [lra |].
    replace (PI * (1 / 2)) with (PI / 2) by field. rewrite cos_PI2. field.
  - rewrite !logistic_exact.
    destruct (Rle_dec (1 - x) 0), (Rle_dec x 0), (Rle_dec 1 (1 - x)),
             (Rle_dec 1 x); try lra.
    replace (PI * (1 - x)) with (- (PI * x) + PI) by ring.
    rewrite neg_cos, cos_neg. field.
  - intros Hxy. rewrite !logistic_exact.
    destruct (Rle_dec x 0), (Rle_dec y 0), (Rle_dec 1 x), (Rle_dec 1 y);
      try lra.
    + pose proof (COS_bound (PI * y)). lra.
    + pose proof (COS_bound (PI * x)). lra.
    + assert (cos (PI * y) <= cos (PI * x)); [| lra].
      apply cos_decr_1; nra.
Qed.

End MapValueExact.

(** ** More facts about a path, in every arithmetic *)

Section PathStructure.
Context {num : Type} {N : Num num}.

Lemma get_vertices_again (p : PathLite num) :
  get_vertices (snd (get_vertices p))
  = (fst (get_vertices p), snd (get_vertices p)).
Proof.
  unfold get_vertices. cbn [fst snd]. now rewrite cleanVertices_idem.
Qed.

Lemma get_nSegments_unfold (p : PathLite num) :
  get_nSegments p
  = ((Z.of_nat (length (fst (get_vertices p)))
      - (if _closed p then 0 else 1))%Z,
     snd (get_vertices p)).
Proof.
  unfold get_nSegments, get_vertices. cbn [fst snd].
  now rewrite closed_cleanVertices.
Qed.

Lemma get_lineSegments_unfold (p : PathLite num) :
  fst (get_lineSegments p)
  = obind (range (Z.of_nat (length (fst (get_vertices p)))
                  - (if _closed p then 0 else 1))%Z)
          (fun idxs =>
             Ret (map (fun i => (at_ (fst (get_vertices p)) i,
                                 at_ (fst (get_vertices p)) (i + 1))) idxs)).
Proof.
  unfold get_lineSegments. rewrite get_nSegments_unfold.
  rewrite get_vertices_again. reflexivity.
Qed.

(** [lineSegments] lists the segments in order, one per vertex of a closed
    path and one less for an open path: segment [i] joins vertex [i] to the
    next vertex, the last segment of a closed path going back to the first
    vertex.  On the empty open path [range(-1)] raises RangeError. *)
Theorem lineSegments_chain (p : PathLite num) :
  let vs := fst (get_vertices p) in
  let n := length vs in
  (vs = [] -> _closed p = false ->
   fst (get_lineSegments p) = Throw RangeError)
  /\ (vs = [] -> _closed p = true -> fst (get_lineSegments p) = Ret [])
  /\ (vs <> [] ->
      exists segs,
        fst (get_lineSegments p) = Ret segs
        /\ length segs = (if _closed p then n else n - 1)%nat
        /\ forall i, (i < length segs)%nat ->
             exists a b, nth_error segs i = Some (Some a, Some b)
                         /\ nth_error vs i = Some a
                         /\ nth_error vs (S i mod n) = Some b).
Proof.
  intros vs n. rewrite get_lineSegments_unfold. fold vs. fold n.
  repeat split.
  - intros E ->. unfold n. rewrite E. reflexivity.
  - intros E ->. unfold n. rewrite E. reflexivity.
  - intros Hvs.
    assert (Hn : (0 < n)%nat).
    { unfold n. destruct vs; [congruence | cbn; lia]. }
    set (m := (if _closed p then n else n - 1)%nat).
    assert (Em : (Z.of_nat n - (if _closed p then 0 else 1))%Z = Z.of_nat m).
    { unfold m. destruct (_closed p); lia. }
    assert (Hm : (m <= n)%nat) by (unfold m; destruct (_closed p); lia).
    rewrite Em, range_nonneg. cbn [obind].
    eexists. split; [reflexivity |].
    rewrite length_map, length_map, length_seq. split; [reflexivity |].
    intros i Hi.
    assert (Hi' : (i < n)%nat) by lia.
    destruct (nth_error vs i) as [a |] eqn:Ea;
      [| apply nth_error_None in Ea; fold n in Ea; lia].
    assert (Hmod : (S i mod n < n)%nat) by (apply Nat.mod_upper_bound; lia).
    destruct (nth_error vs (S i mod n)) as [b |] eqn:Eb;
      [| apply nth_error_None in Eb; fold n in Eb; lia].
    exists a, b. repeat split.
    rewrite nth_error_map, nth_error_map, nth_error_seq.
    destruct (Nat.ltb_spec i m) as [_ | H]; [| lia]. cbn [option_map Nat.add].
    do 2 f_equal.
    + rewrite at_inside by exact Hi'. exact Ea.
    + rewrite (at_mod _ Hvs). fold n. rewrite <- Eb. f_equal.
      replace (Z.of_nat i + 1)%Z with (Z.of_nat (S i)) by lia.
      rewrite <- Nat2Z.inj_mod. apply Nat2Z.id.
Qed.

End PathStructure.

Section ClosingSegment.
Context {num : Type} {N : Num num}.

Lemma mapi_from_app {A B} (f : A -> Z -> B) (l k : list A) (i : Z) :
  mapi_from i f (l ++ k)
  = mapi_from i f l ++ mapi_from (i + Z.of_nat (length l)) f k.
Proof.
  revert i. induction l as [| a l IH]; intros i.
  - cbn. now replace (i + 0)%Z with i by lia.
  - cbn [app mapi_from length]. rewrite IH. do 2 f_equal.
    f_equal. lia.
Qed.

Lemma mapi_from_ext {A B} (f g : A -> Z -> B) (l : list A) (i : Z) :
  (forall a k, f a k = g a k) -> mapi_from i f l = mapi_from i g l.
Proof.
  intros H. revert i. induction l as [| a l IH]; intros i; [reflexivity |].
  cbn. now rewrite H, IH.
Qed.

Lemma get_length_after_set_closed (c : bool) (p : PathLite num) :
  fst (get_length (set_closed c p))
  = sum (segmentLengths (fst (get_vertices p)) c (_length_metric p)).
Proof.
  unfold get_length, _cleanLength, set_closed, _flagLengthDirty.
  cbn [_length_dirty fst snd].
  unfold get_vertices, _cleanVertices. cbn.
  destruct (_vertices_dirty p); reflexivity.
Qed.

(** Closing a path adds exactly the segment from the last vertex back to
    the first: the closed length is the open length plus that distance,
    with the very additions the code performs. *)
Theorem closed_length_adds_closing_segment (p : PathLite num) (a : Vec num)
        (rest : list (Vec num)) :
  fst (get_vertices p) = a :: rest ->
  fst (get_length (set_closed true p))
  = nadd (fst (get_length (set_closed false p)))
         (dist (last rest a) a (_length_metric p)).
Proof.
  intros E. rewrite !get_length_after_set_closed, E.
  set (vs := a :: rest). set (m := _length_metric p).
  assert (Hvs : vs <> []) by discriminate.
  unfold segmentLengths.
  assert (Esplit : vs = firstn (length vs - 1) vs ++ [last rest a]).
  { rewrite Nat.sub_1_r, <- removelast_firstn_len.
    rewrite <- (last_cons_default a a rest).
    apply app_removelast_last. exact Hvs. }
  set (f := fun (sample : Vec num) (sampleIndex : Z) =>
              match at_ vs (sampleIndex + 1) with
              | Some next => dist sample next m
              | None => n0
              end).
  change (sum (mapi f vs)
          = nadd (sum (mapi f (firstn (length vs - 1) vs)))
                 (dist (last rest a) a m)).
  rewrite Esplit at 1. unfold mapi. rewrite mapi_from_app.
  unfold sum. rewrite fold_left_app. cbn [mapi_from fold_left]. f_equal.
  unfold f. rewrite length_firstn.
  replace (0 + Z.of_nat (Nat.min (length vs - 1) (length vs)) + 1)%Z
    with (Z.of_nat (length vs)).
  2:{ assert (0 < length vs)%nat by (unfold vs; cbn; lia). lia. }
  rewrite at_length. reflexivity.
Qed.

End ClosingSegment.

Lemma closed_length_adds_closing_segment_witness :
  let p := Scenarios.square in
  fst (get_vertices p)
  = mkVec 0%float 0%float 0%float
    :: [mkVec 10%float 0%float 0%float; mkVec 10%float 10%float 0%float;
        mkVec 0%float 10%float 0%float]
  /\ fst (get_length (set_closed true p))
     = nadd (fst (get_length (set_closed false p)))
            (dist (mkVec 0%float 10%float 0%float)
                  (mkVec 0%float 0%float 0%float) (_length_metric p)).
Proof.
  split; [vm_compute; reflexivity |].
  apply (@closed_length_adds_closing_segment float _ Scenarios.square
           (mkVec 0%float 0%float 0%float)
           [mkVec 10%float 0%float 0%float; mkVec 10%float 10%float 0%float;
            mkVec 0%float 10%float 0%float]).
  vm_compute. reflexivity.
Defined.

Section UseZ.
Context {num : Type} {N : Num num}.

(** Without [useZ] the path drops the z of its vertices; with [useZ] it
    keeps the z the constructor stored. *)
Theorem useZ_decides_z (p : PathLite num) :
  Forall (fun v => vz v = n0) (fst (get_vertices (set_useZ false p)))
  /\ map vz (fst (get_vertices (set_useZ true p)))
     = map (fun v => or0 (vz v)) (_vertices_original p)
  /\ length (fst (get_vertices (set_useZ false p)))
     = length (_vertices_original p).
Proof.
  unfold get_vertices, _cleanVertices, set_useZ, _flagVerticesDirty,
    _flagLengthDirty. cbn.
  repeat split.
  - apply Forall_map. apply Forall_forall. intros v _.
    now rewrite workingCopy_false.
  - rewrite map_map. apply map_ext. intros v. now rewrite workingCopy_true.
  - apply length_map.
Qed.

End UseZ.

Section SmoothingTotal.
Context {num : Type} {N : Num num} {T : Trig num}.

Lemma smooth_fold_total (vs : list (Vec num)) (weights : option (list num))
      (i : Z) (ows : list (Z * num)) (acc : Vec num * num) :
  vs <> [] ->
  exists r, fold_left (smooth_accumulate vs weights i) ows (Ret acc) = Ret r.
Proof.
  intros Hvs. revert acc. induction ows as [| ow ows IH]; intros acc.
  - exists acc. reflexivity.
  - cbn [fold_left]. unfold smooth_accumulate at 2. cbn [obind].
    destruct acc as [pnt weightSum]. unfold thisPoint.
    destruct (at_some (i + fst ow) Hvs) as [x ->]. cbn [deref obind].
    apply IH.
Qed.

Lemma smoothVertex_total (vs : list (Vec num)) (weights : option (list num))
      (offs : list Z) (ws : list num) (i : Z) :
  vs <> [] -> exists v, smoothVertex vs weights offs ws i = Ret v.
Proof.
  intros Hvs. unfold smoothVertex.
  destruct (smooth_fold_total weights i (combine offs ws) (Vector0, n0) Hvs)
    as [[avg w] ->].
  cbn [obind]. eexists. reflexivity.
Qed.

Lemma mapM_total {A B} (f : A -> outcome B) (l : list A) :
  (forall a, In a l -> exists b, f a = Ret b) ->
  exists bs, mapM f l = Ret bs /\ length bs = length l.
Proof.
  induction l as [| a l IH]; intros H.
  - exists []. split; reflexivity.
  - destruct (H a (or_introl eq_refl)) as [b Eb].
    destruct IH as (bs & Ebs & Hlen); [intros x Hx; apply H; now right |].
    exists (b :: bs). cbn [mapM]. rewrite Eb, Ebs. cbn. split; [reflexivity | lia].
Qed.

Lemma range_of_nonneg (n : Z) :
  (0 <= n)%Z -> range n = Ret (map Z.of_nat (seq 0 (Z.to_nat n))).
Proof.
  intros H. unfold range. destruct (Z.ltb_spec n 0); [lia | reflexivity].
Qed.

Lemma smoothPass_total (offs : list Z) (ws : list num)
      (weights : option (list num)) (p : PathLite num) :
  exists p', smoothPass offs ws weights p = Ret p'
             /\ length (fst (get_vertices p')) = length (fst (get_vertices p))
             /\ _closed p' = _closed p.
Proof.
  unfold smoothPass.
  destruct (get_vertices p) as [vs p1] eqn:E.
  assert (E1 : vs = fst (get_vertices p)) by now rewrite E.
  assert (Ec : _closed p1 = _closed p).
  { replace p1 with (snd (get_vertices p)) by now rewrite E.
    apply closed_cleanVertices. }
  rewrite range_nonneg. cbn [obind].
  destruct (@mapM_total _ _ (smoothVertex vs weights offs ws)
              (map Z.of_nat (seq 0 (length vs)))) as (news & En & Hlen).
  { intros i Hi. destruct vs as [| v vs'].
    - cbn in Hi. contradiction.
    - apply smoothVertex_total. discriminate. }
  rewrite En. cbn [obind]. eexists. split; [reflexivity |].
  split.
  - unfold get_vertices, _cleanVertices, set_vertices, _flagVerticesDirty,
      _flagLengthDirty. cbn. rewrite !length_map, Hlen, length_map, length_seq.
    reflexivity.
  - exact Ec.
Qed.

(** [smoothPath] with a radius and an iteration count that are not
    negative never fails, keeps the number of vertices and leaves the
    closed flag alone; a negative radius or a negative iteration count
    raises RangeError ([range] of a negative number). *)
Theorem smoothPath_total (p : PathLite num) (radius nIterations : Z)
        (weights : option (list num)) :
  ((radius < 0 \/ nIterations < 0)%Z ->
   smoothPath p radius nIterations weights = Throw RangeError)
  /\ ((0 <= radius)%Z -> (0 <= nIterations)%Z ->
      exists p', smoothPath p radius nIterations weights = Ret p'
                 /\ length (fst (get_vertices p'))
                    = length (fst (get_vertices p))
                 /\ _closed p' = _closed p).
Proof.
  split.
  - intros H. unfold smoothPath, indexOffsets, range.
    destruct (Z.ltb_spec radius 0) as [Hr | Hr]; [reflexivity |].
    cbn [obind].
    destruct (Z.ltb_spec nIterations 0) as [Hn | Hn]; [reflexivity | lia].
  - intros Hr Hn. unfold smoothPath, indexOffsets.
    rewrite (range_of_nonneg Hr). cbn [obind].
    rewrite (range_of_nonneg Hn). cbn [obind].
    set (offs := (0%Z :: _)).
    set (ws := indexOffsetWeights _ offs).
    induction (map Z.of_nat (seq 0 (Z.to_nat nIterations))) as [| k its IH]
      using rev_ind.
    + exists p. repeat split; reflexivity.
    + rewrite fold_left_app. cbn [fold_left].
      destruct IH as (p1 & -> & Hlen & Hc). cbn [obind].
      destruct (smoothPass_total offs ws weights p1) as (p2 & -> & Hlen2 & Hc2).
      exists p2. repeat split; congruence.
Qed.

End SmoothingTotal.

(** ** The hull walk keeps the order of its input *)

Section HullStructure.
Context {num : Type} {N : Num num} {T : Trig num}.

Lemma mapi_from_In {A B} (f : A -> Z -> B) (l : list A) (i : Z) (b : B) :
  In b (mapi_from i f l) ->
  exists k a, (k < length l)%nat /\ nth_error l k = Some a
              /\ b = f a (i + Z.of_nat k)%Z.
Proof.
  revert i. induction l as [| a l IH]; intros i; [intros [] |].
  cbn [mapi_from]. intros [<- | H].
  - exists 0%nat, a. cbn. repeat split; [lia | f_equal; lia].
  - destruct (IH _ H) as (k & a' & Hk & Ha & ->).
    exists (S k), a'. cbn [length nth_error].
    repeat split; [lia | exact Ha | f_equal; lia].
Qed.

(** [argAt] on an array that is not empty returns an index of the
    array. *)
Lemma argAt_in_range {A} (gt : A -> A -> bool) (l : list A) :
  l <> [] ->
  exists k, argAt gt l = Some (Z.of_nat k) /\ (k < length l)%nat.
Proof.
  intros Hl. unfold argAt.
  set (keyed := mapi (fun item idx => (item, idx)) l).
  assert (Hk : keyed <> []).
  { unfold keyed, mapi. destruct l; [congruence | discriminate]. }
  pose proof (sortBy_nonempty (fun a b => gt (fst a) (fst b)) Hk) as Hs.
  destruct (at_some 0 Hs) as [first E]. rewrite E.
  apply at_In in E. apply sortBy_In in E. unfold keyed, mapi in E.
  apply mapi_from_In in E. destruct E as (k & a & Hlt & _ & ->).
  exists k. cbn [snd]. split; [reflexivity | exact Hlt].
Qed.

Lemma subseq_skipn {A} (l : list A) (k : nat) (x : A) :
  nth_error l k = Some x -> subseq (x :: skipn (S k) l) l.
Proof.
  revert k. induction l as [| a l IH]; intros k H; [destruct k; discriminate |].
  destruct k as [| k].
  - cbn in H. injection H as ->. cbn [skipn]. apply subseq_refl.
  - cbn [nth_error] in H. cbn [skipn]. apply subseq_skip. now apply IH.
Qed.

Lemma last_skipn {A} (l : list A) (k : nat) (x d : A) :
  nth_error l k = Some x -> last (x :: skipn (S k) l) d = last l d.
Proof.
  revert k. induction l as [| a l IH]; intros k H; [destruct k; discriminate |].
  destruct k as [| k].
  - cbn in H. injection H as ->. reflexivity.
  - cbn [nth_error] in H.
    change (skipn (S (S k)) (a :: l)) with (skipn (S k) l).
    rewrite (IH k H).
    destruct l; [destruct k; discriminate |]. reflexivity.
Qed.

(** The loop of [calcConvexHull]: it appends to the hull a sub-sequence of
    the samples, in their order, and what it leaves over follows that
    sub-sequence in the samples. *)
Lemma calcConvexHull_loop_spec (fuel : nat) (hull samples : list (Vec num)) :
  hull <> [] -> (length samples <= fuel)%nat ->
  exists picked rest,
    calcConvexHull_loop fuel hull samples = Ret (hull ++ picked, rest)
    /\ subseq (picked ++ rest) samples
    /\ (length rest <= 1)%nat
    /\ (forall d, samples <> [] -> last (picked ++ rest) d = last samples d).
Proof.
  revert hull samples. induction fuel as [| fuel IH]; intros hull samples Hh Hf.
  - exists [], samples. cbn. rewrite app_nil_r.
    repeat split; [apply subseq_refl | lia].
  - cbn [calcConvexHull_loop].
    destruct (Nat.ltb_spec 1 (length samples)) as [Hlen | Hlen].
    + destruct (at_some (-1) Hh) as [lastHull ->]. cbn [deref obind].
      set (keyed := map _ samples).
      assert (Hk : keyed <> []).
      { unfold keyed. destruct samples; [cbn in Hlen; lia | discriminate]. }
      destruct (argAt_in_range hullAfter Hk) as (k & -> & Hklt).
      cbn [deref obind]. rewrite Nat2Z.id.
      unfold keyed in Hklt. rewrite length_map in Hklt.
      destruct (nth_error samples k) as [chosen |] eqn:Ek;
        [| apply nth_error_None in Ek; lia].
      cbn [deref obind].
      replace (Z.to_nat (Z.of_nat k + 1)) with (S k) by lia.
      destruct (IH (hull ++ [chosen]) (skipn (S k) samples))
        as (picked & rest & E & Hsub & Hrest & Hlast).
      { intros H. apply app_eq_nil in H. destruct H; discriminate. }
      { rewrite length_skipn. lia. }
      rewrite E. exists (chosen :: picked), rest.
      rewrite <- app_assoc. cbn [app]. repeat split.
      * eapply subseq_trans; [| apply (@subseq_skipn _ _ _ _ Ek)].
        apply subseq_keep. exact Hsub.
      * exact Hrest.
      * intros d _. rewrite <- (@last_skipn _ _ _ _ d Ek).
        destruct (skipn (S k) samples) as [| s0 ss] eqn:Es.
        -- inversion Hsub as [Hp | |]. 
           destruct picked; [| discriminate]. destruct rest; [| discriminate].
           reflexivity.
        -- rewrite !last_cons_default.
           rewrite (Hlast chosen) by discriminate.
           apply last_cons_default.
    + exists [], samples. rewrite app_nil_r.
      repeat split; [apply subseq_refl | lia].
Qed.

(** [calcConvexHull] never fails on a list of Vectors, whatever the
    arithmetic: it returns a sub-sequence of the samples in their order
    that starts with the first sample and ends with the last one. *)
Theorem calcConvexHull_keeps_order (samplesRaw : list (Vec num)) :
  exists hull,
    calcConvexHull samplesRaw = Ret hull
    /\ subseq hull samplesRaw
    /\ hd_error hull = hd_error samplesRaw
    /\ forall d, last hull d = last samplesRaw d.
Proof.
  unfold calcConvexHull. destruct samplesRaw as [| s0 samples].
  - exists []. cbn. repeat split. constructor.
  - cbn [firstn skipn].
    destruct (@calcConvexHull_loop_spec (length samples) [s0] samples)
      as (picked & rest & -> & Hsub & Hrest & Hlast);
      [discriminate | lia |].
    cbn [obind].
    assert (Hres : s0 :: picked ++ rest
                   = match rest with
                     | [] => [s0] ++ picked
                     | s :: _ => ([s0] ++ picked) ++ [s]
                     end).
    { destruct rest as [| s r]; [now rewrite app_nil_r |].
      destruct r; [| cbn in Hrest; lia]. reflexivity. }
    exists (s0 :: picked ++ rest). split.
    { rewrite Hres. destruct rest; reflexivity. }
    repeat split.
    + apply subseq_keep. exact Hsub.
    + intros d. rewrite !last_cons_default.
      destruct samples as [| s1 ss].
      * inversion Hsub as [Hp | |].
        destruct picked; [| discriminate]. destruct rest; [| discriminate].
        reflexivity.
      * apply Hlast. discriminate.
Qed.

End HullStructure.

(** ** Reading a path whose caches are up to date *)

Section CleanPaths.
Context {num : Type} {N : Num num}.

Lemma clean_fix (q : PathLite num) :
  clean q -> _cleanVertices q = q /\ _cleanLength q = q.
Proof.
  intros [Hv Hl]. unfold _cleanVertices, _cleanLength. now rewrite Hv, Hl.
Qed.

Lemma cleanLength_is_clean (p : PathLite num) :
  coherent p -> clean (_cleanLength p).
Proof.
  intros Hc. split; [| apply cleanLength_clean].
  destruct (coherent_cleanLength Hc) as [_ H].
  apply H, cleanLength_clean.
Qed.

(** What a read finds in a coherent path after [_cleanLength]. *)
Lemma cleanLength_fields (p : PathLite num) :
  coherent p ->
  let q := _cleanLength p in
  let vs := derived_vertices (_vertices_original p) (_use_z p) in
  let segs := derived_segments (_vertices_original p) (_use_z p) (_closed p)
                               (_length_metric p) in
  _vertices q = vs /\ _length_segments q = segs /\ _length q = sum segs
  /\ _length_segments_cumulative q = cumulativeSum segs
  /\ _closed q = _closed p.
Proof.
  intros Hc q vs segs.
  pose proof (coherent_cleanLength Hc) as [Hv Hl]. fold q in Hv, Hl.
  destruct (cleanLength_is_clean Hc) as [Dv Dl]. fold q in Dv, Dl.
  destruct (same_inputs_cleanLength p) as (Ho & Hz & Hcl & Hm). fold q in Ho, Hz, Hcl, Hm.
  destruct (Hl Dl) as (_ & Hs & Hlen & Hcum).
  rewrite Ho, Hz, Hcl, Hm in Hs. rewrite Ho, Hz in Hv.
  repeat split; [exact (Hv Dv) | exact Hs | now rewrite Hlen, Hs
                 | now rewrite Hcum, Hs | exact Hcl].
Qed.

Lemma getPointAt_cleanLength (off : num) (p : PathLite num) :
  fst (getPointAt off p) = fst (getPointAt off (_cleanLength p)).
Proof.
  unfold getPointAt, _getIndexInterpolatedAt. now rewrite cleanLength_idem.
Qed.

(** [getPointAt] on a path whose caches are up to date. *)
Lemma getPointAt_clean (off : num) (q : PathLite num) :
  clean q ->
  fst (getPointAt off q)
  = let nSegments := (Z.of_nat (length (_vertices q))
                      - (if _closed q then 0 else 1))%Z in
    let ii := clamp (indexInterpolated (n0 :: _length_segments_cumulative q)
                                       (clamp off n0 (_length q)))
                    n0 (ofZ nSegments) in
    let ii := if _closed q then nmod ii (ofZ nSegments) else ii in
    obind (deref (at_ (_vertices q) (nfloor ii))) (fun a =>
    obind (deref (at_ (_vertices q) (nceil ii))) (fun b =>
    Ret (lerp a b (nsub ii (ofZ (nfloor ii)))))).
Proof.
  intros Hq. destruct (clean_fix Hq) as [Ev El].
  unfold getPointAt, _getIndexInterpolatedAt, get_length, get_nSegments,
    get_vertices.
  rewrite !El, !Ev. cbv zeta.
  destruct (_closed q); rewrite ?Ev; reflexivity.
Qed.

End CleanPaths.

(** ** Interpolated indices, in exact arithmetic *)

Section IndexInterpolatedExact.
Import Exact.
Local Open Scope R_scope.

(** Where the loop of [indexInterpolated] stops. *)
Lemma indexInterpolated_loop_spec (arr : list R) (v : R) (fuel i : nat) :
  (length arr <= S (i + fuel))%nat ->
  let r := indexInterpolated_loop fuel arr v i in
  (i <= r)%nat
  /\ (forall j, (i <= j < r)%nat ->
        (j + 2 < length arr)%nat /\ nth (j + 1) arr 0 < v)
  /\ ((r + 2 < length arr)%nat -> v <= nth (r + 1) arr 0).
Proof.
  revert i. induction fuel as [| fuel IH]; intros i Hf; cbn zeta.
  - cbn. split; [| split]; [lia | intros; lia | intros; lia].
  - cbn [indexInterpolated_loop]. on_reals. change (@n0 R exact) with 0.
    destruct (Nat.ltb_spec (i + 2) (length arr)) as [Hl | Hl]; cbn [andb].
    + unfold Rltb. destruct (Rlt_dec (nth (i + 1) arr 0) v) as [Hv | Hv].
      * destruct (IH (S i)) as (H1 & H2 & H3); [lia |].
        split; [| split]; [lia | | exact H3].
        intros j Hj. destruct (Nat.eq_dec j i) as [-> | Hne];
          [split; [exact Hl | exact Hv] | apply H2; lia].
      * split; [| split]; [lia | intros; lia | intros _; lra].
    + split; [| split]; [lia | intros; lia | intros; lia].
Qed.

(** On a strictly increasing array [indexInterpolated] finds the entries:
    the value at index [k] is mapped back to [k]. *)
Lemma indexInterpolated_at_entry (arr : list R) (k : nat) :
  increasing arr -> (2 <= length arr)%nat -> (k < length arr)%nat ->
  indexInterpolated arr (nth k arr 0) = INR k.
Proof.
  intros Hinc Hlen Hk. unfold indexInterpolated.
  destruct (Nat.ltb_spec (length arr) 2) as [H | _]; [lia |].
  pose proof (@indexInterpolated_loop_spec arr (nth k arr 0) (length arr) 0)
    as Hspec.
  cbn zeta in Hspec. destruct Hspec as (_ & Hbefore & Hstop); [lia |].
  set (r := indexInterpolated_loop (length arr) arr (nth k arr 0) 0) in *.
  assert (Hr2 : (r + 2 <= length arr)%nat).
  { destruct (Nat.eq_dec r 0) as [-> | Hr0]; [lia |].
    destruct (Hbefore (r - 1)%nat) as [H _]; lia. }
  on_reals. change (@n0 R exact) with 0.
  unfold clamp01. rewrite clamp_exact. change (@n0 R exact) with 0.
  change (@n1 R exact) with 1.
  destruct (Nat.eq_dec k 0) as [-> | Hk0].
  - assert (Hr : r = 0%nat).
    { destruct (Nat.eq_dec r 0) as [E | Hr0]; [exact E | exfalso].
      destruct (Hbefore 0%nat) as [_ H]; [lia |].
      assert (nth 0 arr 0 < nth 1 arr 0) by (apply Hinc; lia).
      cbn [Nat.add] in H. lra. }
    rewrite Hr. cbn [Nat.add Z.of_nat INR].
    replace ((nth 0 arr 0 - nth 0 arr 0) / (nth 1 arr 0 - nth 0 arr 0))
      with 0 by (unfold Rdiv; ring).
    unfold Rmax, Rmin. repeat destruct (Rle_dec _ _); lra.
  - assert (Hr : r = (k - 1)%nat).
    { destruct (Nat.lt_trichotomy r (k - 1)) as [Hlt | [E | Hgt]];
        [exfalso | exact E | exfalso].
      - assert (H : nth k arr 0 <= nth (r + 1) arr 0) by (apply Hstop; lia).
        assert (nth (r + 1) arr 0 < nth k arr 0) by (apply Hinc; lia). lra.
      - destruct (Hbefore (k - 1)%nat) as [_ H]; [lia |].
        replace (k - 1 + 1)%nat with k in H by lia. lra. }
    rewrite Hr. replace (k - 1 + 1)%nat with k by lia.
    assert (Hstep : nth (k - 1) arr 0 < nth k arr 0) by (apply Hinc; lia).
    replace ((nth k arr 0 - nth (k - 1) arr 0)
             / (nth k arr 0 - nth (k - 1) arr 0)) with 1 by (field; lra).
    rewrite <- INR_IZR_INZ.
    assert (EK : INR k = INR (k - 1) + 1).
    { rewrite <- S_INR. f_equal. lia. }
    rewrite EK. unfold Rmax, Rmin. repeat destruct (Rle_dec _ _); lra.
Qed.

(** Offsets built from positive segment lengths increase strictly. *)
Lemma cumulative_increasing (segs : list R) :
  Forall (fun s => 0 < s) segs -> increasing (0 :: cumulativeSum segs).
Proof.
  intros Hpos.
  assert (Hstep : forall i, (i < length segs)%nat ->
            nth (S i) (0 :: cumulativeSum segs) 0
            = nth i (0 :: cumulativeSum segs) 0 + nth i segs 0).
  { intros i Hi. unfold cumulativeSum. change (@n0 R exact) with 0.
    exact (cumulativeSum_from_step segs 0 0 Hi). }
  assert (Hlen : length (0 :: cumulativeSum segs) = S (length segs)).
  { cbn [length]. unfold cumulativeSum. now rewrite cumulativeSum_from_length. }
  intros i j. rewrite Hlen. intros Hij.
  induction j as [| j IH]; [lia |].
  rewrite Hstep by lia.
  assert (Hs : 0 < nth j segs 0).
  { rewrite Forall_forall in Hpos. apply Hpos, nth_In. lia. }
  destruct (Nat.eq_dec i j) as [-> | Hne]; [lra |].
  assert (nth i (0 :: cumulativeSum segs) 0 < nth j (0 :: cumulativeSum segs) 0)
    by (apply IH; lia).
  lra.
Qed.

End IndexInterpolatedExact.

(** ** Points at the offsets of the vertices *)

Section PointAtOffsets.
Import Exact.
Local Open Scope R_scope.

Lemma lerp_same (v : Vec R) (t : R) : lerp v v t = v.
Proof.
  unfold lerp. rewrite copy_exact, !or0_exact. on_reals.
  destruct v as [x y z]. cbn [vx vy vz]. f_equal; ring.
Qed.

Lemma Rfloor_INR (k : nat) : Rfloor (INR k) = Z.of_nat k.
Proof. apply Rfloor_between. rewrite <- INR_IZR_INZ. lra. Qed.

Lemma Rceil_INR (k : nat) : Rceil (INR k) = Z.of_nat k.
Proof. apply Rceil_between. rewrite <- INR_IZR_INZ. lra. Qed.

Lemma nth_cumulative_le_sum (segs : list R) (k : nat) :
  Forall (fun s => 0 < s) segs -> (k <= length segs)%nat ->
  0 <= nth k (0 :: cumulativeSum segs) 0 <= sum segs.
Proof.
  intros Hpos Hk.
  pose proof (cumulative_increasing Hpos) as Hinc.
  assert (Hlen : length (0 :: cumulativeSum segs) = S (length segs)).
  { cbn [length]. unfold cumulativeSum. now rewrite cumulativeSum_from_length. }
  assert (Hsum : sum segs = nth (length segs) (0 :: cumulativeSum segs) 0).
  { unfold sum, cumulativeSum. change (@n0 R exact) with 0.
    apply (sum_from_last segs 0 0). }
  split.
  - destruct k as [| k]; [cbn; lra |].
    assert (nth 0 (0 :: cumulativeSum segs) 0
            < nth (S k) (0 :: cumulativeSum segs) 0) by (apply Hinc; lia).
    cbn [nth] in *. lra.
  - rewrite Hsum. destruct (Nat.eq_dec k (length segs)) as [-> | Hne]; [lra |].
    assert (nth k (0 :: cumulativeSum segs) 0
            < nth (length segs) (0 :: cumulativeSum segs) 0)
      by (apply Hinc; lia).
    lra.
Qed.

(** The points [getPointAt] returns at the offsets of the vertices and at
    the ends of the range of offsets. *)
Lemma getPointAt_vertex_facts (vertices : list (PointLike R))
      (ops : list (PathOp R)) :
  let p := after vertices ops in
  let vs := fst (get_vertices p) in
  let offs := fst (get_offsets p) in
  let segs := _length_segments (snd (get_length p)) in
  let len := fst (get_length p) in
  (1 <= fst (get_nSegments p))%Z -> Forall (fun s => 0 < s) segs ->
  (forall k v, nth_error vs k = Some v ->
     fst (getPointAt (nth k offs 0) p) = Ret v)
  /\ (forall off, fst (getPointAt off p)
                  = fst (getPointAt (clamp off 0 len) p))
  /\ fst (getPointAt len p)
     = deref (if _closed p then hd_error vs
              else nth_error vs (length vs - 1)).
Proof.
  intros p vs offs segs len Hseg Hpos.
  pose proof (coherent_after vertices ops) as Hc. fold p in Hc.
  pose proof (cleanLength_is_clean Hc) as Hq.
  pose proof (cleanLength_fields Hc) as HF. cbv zeta in HF.
  destruct HF as (Fv & Fs & Fl & Fc & Fcl).
  assert (Evs : vs = derived_vertices (_vertices_original p) (_use_z p))
    by apply (get_vertices_coherent Hc).
  assert (Esegs : segs = derived_segments (_vertices_original p) (_use_z p)
                           (_closed p) (_length_metric p))
    by apply (get_length_segments_coherent Hc).
  assert (Elen : len = sum segs).
  { unfold len. rewrite (get_length_coherent Hc). unfold derived_length.
    now rewrite <- Esegs. }
  assert (Eoffs : offs = firstn (length vs) (0 :: cumulativeSum segs)).
  { unfold offs. rewrite (get_offsets_coherent Hc). unfold derived_offsets.
    now rewrite <- Evs, <- Esegs. }
  rewrite (get_nSegments_coherent Hc), <- Evs in Hseg.
  rewrite <- Evs in Fv. rewrite <- Esegs in Fs, Fl, Fc.
  set (n := length vs) in *.
  assert (Hsl : length segs = (if _closed p then n else n - 1)%nat).
  { rewrite Esegs. unfold derived_segments. rewrite segmentLengths_length.
    now rewrite <- Evs. }
  set (m := (if _closed p then n else n - 1)%nat) in *.
  assert (Hm : (1 <= m <= n)%nat) by (unfold m; destruct (_closed p); lia).
  assert (Enseg : (Z.of_nat n - (if _closed p then 0 else 1))%Z = Z.of_nat m)
    by (unfold m; destruct (_closed p); lia).
  set (arr := 0 :: cumulativeSum segs) in *.
  assert (Harr : length arr = S m).
  { unfold arr. cbn [length]. unfold cumulativeSum.
    now rewrite cumulativeSum_from_length, Hsl. }
  pose proof (cumulative_increasing Hpos) as Hinc. fold arr in Hinc.
  (* the point at an entry of [arr] *)
  assert (Hat : forall k, (k <= m)%nat ->
            fst (getPointAt (nth k arr 0) p)
            = deref (at_ vs (if _closed p
                             then (if Nat.eqb k n then 0 else Z.of_nat k)
                             else Z.of_nat k))).
  { intros k Hk. rewrite getPointAt_cleanLength, (getPointAt_clean _ Hq).
    cbv zeta. rewrite Fv, Fl, Fc, Fcl. fold n. rewrite Enseg.
    change (@n0 R exact) with 0. fold arr.
    destruct (@nth_cumulative_le_sum segs k Hpos) as [Hk0 Hk1]; [lia |].
    fold arr in Hk0, Hk1.
    replace (clamp (nth k arr 0) 0 (sum segs)) with (nth k arr 0).
    2:{ rewrite clamp_exact. unfold Rmax, Rmin.
        repeat destruct (Rle_dec _ _); lra. }
    rewrite indexInterpolated_at_entry by (try exact Hinc; lia).
    assert (Hkm : 0 <= INR k <= INR m).
    { split; [apply pos_INR | apply le_INR; exact Hk]. }
    on_reals. rewrite <- INR_IZR_INZ.
    replace (clamp (INR k) 0 (INR m)) with (INR k).
    2:{ rewrite clamp_exact. unfold Rmax, Rmin.
        repeat destruct (Rle_dec _ _); lra. }
    assert (Hm0 : 0 < INR m) by (apply lt_0_INR; lia).
    destruct (_closed p) eqn:Ecl.
    - assert (Emn : m = n) by reflexivity. 
      change m with n in *.
      destruct (Nat.eqb_spec k n) as [Hkn | Hkn].
      + rewrite Hkn.
        replace (Rmod (INR n) (INR n)) with 0.
        2:{ symmetry. rewrite (@Rmod_between (INR n) (INR n) 1);
              [ring | lra | lia | lra]. }
        replace (Rfloor 0) with 0%Z
          by (symmetry; apply Rfloor_between; cbn; lra).
        replace (Rceil 0) with 0%Z
          by (symmetry; apply Rceil_between; cbn; lra).
        destruct (at_ vs 0) as [a |]; cbn [deref obind]; [| reflexivity].
        now rewrite lerp_same.
      + replace (Rmod (INR k) (INR n)) with (INR k).
        2:{ symmetry. rewrite (@Rmod_between (INR k) (INR n) 0);
              [ring | lra | lia |].
            assert (INR k < INR n) by (apply lt_INR; lia). lra. }
        rewrite Rfloor_INR, Rceil_INR.
        destruct (at_ vs (Z.of_nat k)) as [a |]; cbn [deref obind];
          [| reflexivity].
        now rewrite lerp_same.
    - rewrite Rfloor_INR, Rceil_INR.
      destruct (at_ vs (Z.of_nat k)) as [a |]; cbn [deref obind];
        [| reflexivity].
      now rewrite lerp_same. }
  split; [| split].
  - intros k v Hv.
    assert (Hk : (k < n)%nat) by (apply nth_error_Some; congruence).
    rewrite Eoffs. fold n arr. rewrite nth_firstn by exact Hk.
    assert (Hkm : (k <= m)%nat) by (unfold m in *; destruct (_closed p); lia).
    rewrite (Hat k Hkm).
    replace (if _closed p then if Nat.eqb k n then 0%Z else Z.of_nat k
             else Z.of_nat k) with (Z.of_nat k).
    2:{ destruct (_closed p); [| reflexivity].
        destruct (Nat.eqb_spec k n); [lia | reflexivity]. }
    rewrite at_inside by exact Hk. now rewrite Hv.
  - intros off.
    rewrite (getPointAt_cleanLength off p),
      (getPointAt_cleanLength (clamp off 0 len) p), !(getPointAt_clean _ Hq).
    cbv zeta. rewrite Fl, <- Elen. change (@n0 R exact) with 0.
    replace (clamp (clamp off 0 len) 0 len) with (clamp off 0 len);
      [reflexivity |].
    rewrite !clamp_exact. unfold Rmax, Rmin.
    repeat destruct (Rle_dec _ _); lra.
  - assert (Elen' : len = nth m arr 0).
    { rewrite Elen, <- Hsl. unfold sum, arr, cumulativeSum.
      change (@n0 R exact) with 0. apply (sum_from_last segs 0 0). }
    rewrite Elen', (Hat m) by lia.
    destruct (_closed p) eqn:Ecl.
    + assert (Emn : m = n) by reflexivity.
      rewrite Emn, Nat.eqb_refl.
      destruct vs; [reflexivity | now rewrite at_head].
    + assert (Emn : m = (n - 1)%nat) by reflexivity.
      rewrite Emn, at_inside by lia. reflexivity.
Qed.

(** On a path all of whose segments have a positive length, in exact
    arithmetic: the point at the offset of a vertex is that vertex, an
    offset outside [0, length] gives the same point as the nearer end of
    that range, and the point at the full length is the last vertex of an
    open path and the first vertex of a closed one. *)
Theorem getPointAt_returns_vertices (vertices : list (PointLike R))
        (ops : list (PathOp R)) :
  let p := after vertices ops in
  let vs := fst (get_vertices p) in
  let offs := fst (get_offsets p) in
  let segs := _length_segments (snd (get_length p)) in
  let len := fst (get_length p) in
  (1 <= fst (get_nSegments p))%Z -> Forall (fun s => 0 < s) segs ->
  (forall k v, nth_error vs k = Some v ->
     fst (getPointAt (nth k offs 0) p) = Ret v)
  /\ (forall off, fst (getPointAt off p)
                  = fst (getPointAt (clamp off 0 len) p))
  /\ fst (getPointAt len p)
     = deref (if _closed p then hd_error vs
              else nth_error vs (length vs - 1)).
Proof. exact (@getPointAt_vertex_facts vertices ops). Qed.

End PointAtOffsets.

Section PointAtOffsetsWitness.
Import Exact.
Local Open Scope R_scope.

Lemma segmentLengths_two (a b : Vec R) :
  segmentLengths [a; b] false None = [dist a b None].
Proof. reflexivity. Qed.

(** The open path of two points. *)
Lemma two_point_path (a b : Vec R) :
  let p := after [PVec a; PVec b] [] in
  fst (get_nSegments p) = 1%Z
  /\ _length_segments (snd (get_length p))
     = [sqrt ((vx b - vx a) * (vx b - vx a) + (vy b - vy a) * (vy b - vy a)
              + (0 - 0) * (0 - 0))]
  /\ fst (get_vertices p) = [mkVec (vx a) (vy a) 0; mkVec (vx b) (vy b) 0].
Proof.
  cbv zeta.
  pose proof (coherent_after [PVec a; PVec b] []) as Hc.
  rewrite (get_nSegments_coherent Hc), (get_length_segments_coherent Hc),
    (get_vertices_coherent Hc).
  change (_vertices_original (after [PVec a; PVec b] []))
    with [copy_ a; copy_ b].
  change (_use_z (after [PVec a; PVec b] [])) with false.
  change (_closed (after [PVec a; PVec b] [])) with false.
  change (_length_metric (after [PVec a; PVec b] [])) with (@None string).
  unfold derived_segments, derived_vertices. cbn [map length].
  rewrite !workingCopy_false, !copy_exact, !or0_exact.
  change (@n0 R exact) with 0.
  split; [reflexivity |]. split; [| reflexivity].
  rewrite segmentLengths_two. rewrite dist_exact. reflexivity.
Qed.

Lemma getPointAt_returns_vertices_witness :
  let p := after [PVec (pt 0 0); PVec (pt 1 0)] [] in
  let vs := fst (get_vertices p) in
  let offs := fst (get_offsets p) in
  (1 <= fst (get_nSegments p))%Z
  /\ Forall (fun s => 0 < s) (_length_segments (snd (get_length p)))
  /\ forall k v, nth_error vs k = Some v ->
        fst (getPointAt (nth k offs 0) p) = Ret v.
Proof.
  cbv zeta.
  destruct (two_point_path (pt 0 0) (pt 1 0)) as (E1 & E2 & _).
  cbv zeta in E1, E2.
  assert (H1 : (1 <= fst (get_nSegments
                            (after [PVec (pt 0 0); PVec (pt 1 0)] [])))%Z)
    by (rewrite E1; lia).
  assert (H2 : Forall (fun s => 0 < s)
                 (_length_segments
                    (snd (get_length
                            (after [PVec (pt 0 0); PVec (pt 1 0)] []))))).
  { rewrite E2. constructor; [| constructor].
    apply sqrt_lt_R0. unfold pt. cbn [vx vy]. lra. }

  split; [exact H1 |]. split; [exact H2 |].
  exact (proj1 (getPointAt_returns_vertices
                  [PVec (pt 0 0); PVec (pt 1 0)] [] H1 H2)).
Defined.

End PointAtOffsetsWitness.

(** ** Times *)

Section TimesExact.
Import Exact.
Local Open Scope R_scope.

Lemma sum_nil_exact : sum (@nil R) = 0.
Proof. reflexivity. Qed.

(** [times] are the offsets as fractions of the length: on a path of
    positive length, in exact arithmetic, there is one per vertex, the
    first is 0, they never decrease, they stay within [0, 1], and on an
    open path the last one is 1. *)
Theorem times_are_fractions (vertices : list (PointLike R))
        (ops : list (PathOp R)) :
  let p := after vertices ops in
  let ts := fst (get_times p) in
  let n := length (fst (get_vertices p)) in
  0 < fst (get_length p) ->
  length ts = n
  /\ nth 0 ts 0 = 0
  /\ (forall i j, (i <= j < n)%nat -> nth i ts 0 <= nth j ts 0)
  /\ (forall i, (i < n)%nat -> 0 <= nth i ts 0 <= 1)
  /\ (_closed p = false -> nth (n - 1) ts 0 = 1).
Proof.
  intros p ts n Hlen.
  pose proof (coherent_after vertices ops) as Hc. fold p in Hc.
  assert (Hseg : (1 <= fst (get_nSegments p))%Z).
  { destruct (Z_le_gt_dec 1 (fst (get_nSegments p))) as [H | H]; [exact H |].
    exfalso. rewrite (get_nSegments_coherent Hc) in H.
    rewrite (get_length_coherent Hc) in Hlen.
    unfold derived_length, derived_segments in Hlen.
    pose proof (segmentLengths_length
                  (derived_vertices (_vertices_original p) (_use_z p))
                  (_closed p) (_length_metric p)) as Hl.
    destruct (segmentLengths _ _ _) as [| s l]; [cbn in Hlen; lra |].
    cbn [length] in Hl. destruct (_closed p); lia. }
  pose proof (@offsets_invariants_exact vertices ops) as HI.
  cbv zeta in HI. fold p in HI. specialize (HI Hseg).
  destruct HI as (Hol & Hsl & H0 & Hmono & Hstep & Hend).
  set (offs := fst (get_offsets p)) in *.
  set (len := fst (get_length p)) in *.
  assert (Ets : ts = map (fun o => o / len) offs).
  { unfold ts, get_times, offs, len, get_offsets, get_length, get_vertices.
    cbn [fst snd].
    rewrite (cleanVertices_cleanLength Hc), !cleanLength_idem. reflexivity. }
  assert (Hnth : forall i, nth i ts 0 = nth i offs 0 / len).
  { intros i. rewrite Ets.
    transitivity (nth i (map (fun o => o / len) offs) ((fun o => o / len) 0)).
    - f_equal. unfold Rdiv. ring.
    - apply (map_nth (fun o => o / len)). }
  fold n in Hol, Hmono, Hstep, Hend.
  assert (Hn : (0 < n)%nat).
  { rewrite (get_nSegments_coherent Hc) in Hseg.
    unfold n. rewrite (get_vertices_coherent Hc).
    destruct (_closed p); lia. }
  assert (Hlast : nth (n - 1) offs 0 <= len).
  { destruct (_closed p).
    - assert (0 <= nth (n - 1) (_length_segments (snd (get_length p))) 0).
      { apply nth_nonneg.
        rewrite (get_length_segments_coherent Hc). unfold derived_segments.
        apply segmentLengths_nonneg. }
      lra.
    - destruct Hend as [-> _]. lra. }
  assert (Hinv : 0 < / len) by (apply Rinv_0_lt_compat; exact Hlen).
  repeat split.
  - rewrite Ets, length_map. exact Hol.
  - rewrite Hnth, H0. unfold Rdiv. ring.
  - intros i j Hij. rewrite !Hnth. unfold Rdiv.
    apply Rmult_le_compat_r; [lra | apply Hmono; exact Hij].
  - rewrite Hnth. unfold Rdiv.
    assert (0 <= nth i offs 0).
    { pose proof (Hmono 0%nat i ltac:(lia)) as Hm. rewrite H0 in Hm. exact Hm. }
    apply Rmult_le_pos; lra.
  - rewrite Hnth.
    assert (nth i offs 0 <= len).
    { apply Rle_trans with (nth (n - 1) offs 0); [apply Hmono; lia | exact Hlast]. }
    apply Rmult_le_reg_r with len; [exact Hlen |].
    unfold Rdiv. rewrite Rmult_assoc, Rinv_l by lra. lra.
  - intros Hcl. rewrite Hcl in Hend. destruct Hend as [E _].
    rewrite Hnth, E. field. lra.
Qed.

Lemma times_are_fractions_witness :
  let p := after [PVec (pt 0 0); PVec (pt 1 0)] [] in
  let ts := fst (get_times p) in
  0 < fst (get_length p)
  /\ length ts = length (fst (get_vertices p))
  /\ nth 0 ts 0 = 0.
Proof.
  cbv zeta.
  assert (H : 0 < fst (get_length (after [PVec (pt 0 0); PVec (pt 1 0)] []))).
  { pose proof (coherent_after [PVec (pt 0 0); PVec (pt 1 0)] []) as Hc.
    rewrite (get_length_coherent Hc). unfold derived_length.
    rewrite <- (get_length_segments_coherent Hc).
    destruct (two_point_path (pt 0 0) (pt 1 0)) as (_ & E2 & _).
    cbv zeta in E2. rewrite E2. unfold sum. cbn [fold_left].
    change (@n0 R exact) with 0. on_reals.
    assert (0 < sqrt ((vx (pt 1 0) - vx (pt 0 0)) * (vx (pt 1 0) - vx (pt 0 0))
                      + (vy (pt 1 0) - vy (pt 0 0)) * (vy (pt 1 0) - vy (pt 0 0))
                      + (0 - 0) * (0 - 0))).
    { apply sqrt_lt_R0. unfold pt. cbn [vx vy]. lra. }
    lra. }
  split; [exact H |].
  destruct (times_are_fractions [PVec (pt 0 0); PVec (pt 1 0)] [] H)
    as (A & B & _).
  split; [exact A | exact B].
Defined.

End TimesExact.


(** ** Path length and the chord *)

Section ChordExact.
Import Exact.
Local Open Scope R_scope.

Lemma cauchy3 (u1 u2 u3 w1 w2 w3 : R) :
  (u1 * w1 + u2 * w2 + u3 * w3) * (u1 * w1 + u2 * w2 + u3 * w3)
  <= (u1 * u1 + u2 * u2 + u3 * u3) * (w1 * w1 + w2 * w2 + w3 * w3).
Proof.
  pose proof (Rle_0_sqr (u1 * w2 - u2 * w1)) as H1.
  pose proof (Rle_0_sqr (u1 * w3 - u3 * w1)) as H2.
  pose proof (Rle_0_sqr (u2 * w3 - u3 * w2)) as H3.
  unfold Rsqr in *. lra.
Qed.

Lemma norm3_triangle (u1 u2 u3 w1 w2 w3 : R) :
  sqrt ((u1 + w1) * (u1 + w1) + (u2 + w2) * (u2 + w2) + (u3 + w3) * (u3 + w3))
  <= sqrt (u1 * u1 + u2 * u2 + u3 * u3) + sqrt (w1 * w1 + w2 * w2 + w3 * w3).
Proof.
  set (U := u1 * u1 + u2 * u2 + u3 * u3).
  set (W := w1 * w1 + w2 * w2 + w3 * w3).
  assert (HU : 0 <= U) by (unfold U; nra).
  assert (HW : 0 <= W) by (unfold W; nra).
  pose proof (sqrt_pos U) as HsU. pose proof (sqrt_pos W) as HsW.
  rewrite <- (sqrt_square (sqrt U + sqrt W)) by lra.
  apply sqrt_le_1_alt.
  assert (Hd : u1 * w1 + u2 * w2 + u3 * w3 <= sqrt U * sqrt W).
  { rewrite <- sqrt_mult by assumption.
    apply Rle_trans with (Rabs (u1 * w1 + u2 * w2 + u3 * w3));
      [apply Rle_abs |].
    rewrite <- sqrt_Rsqr_abs. apply sqrt_le_1_alt. unfold Rsqr, U, W.
    apply cauchy3. }
  pose proof (sqrt_sqrt U HU) as EU. pose proof (sqrt_sqrt W HW) as EW.
  replace ((sqrt U + sqrt W) * (sqrt U + sqrt W))
    with (sqrt U * sqrt U + 2 * (sqrt U * sqrt W) + sqrt W * sqrt W) by ring.
  rewrite EU, EW. set (s := sqrt U * sqrt W) in *. clearbody s.
  unfold U, W. lra.
Qed.

(** The triangle inequality of [dist], for every metric pattern. *)
Lemma dist_triangle (a b c : Vec R) (m : option string) :
  dist a c m <= dist a b m + dist b c m.
Proof.
  unfold dist. rewrite !vsub_exact, !mag_exact. cbn [vx vy vz].
  set (A := copy a m). set (B := copy b m). set (C := copy c m).
  replace (vx C - vx A) with ((vx B - vx A) + (vx C - vx B)) by ring.
  replace (vy C - vy A) with ((vy B - vy A) + (vy C - vy B)) by ring.
  replace (vz C - vz A) with ((vz B - vz A) + (vz C - vz B)) by ring.
  apply norm3_triangle.
Qed.

Lemma dist_same (a : Vec R) (m : option string) : dist a a m = 0.
Proof.
  unfold dist. rewrite vsub_exact, mag_exact. cbn [vx vy vz].
  match goal with |- sqrt ?e = 0 => replace e with 0 by ring end.
  apply sqrt_0.
Qed.

Lemma fold_left_Rplus (l : list R) (p : R) :
  fold_left Rplus l p = p + fold_left Rplus l 0.
Proof.
  revert p. induction l as [| x l IH]; intros p; cbn [fold_left]; [lra |].
  rewrite (IH (p + x)), (IH (0 + x)). lra.
Qed.

Lemma sum_cons_exact (x : R) (l : list R) : sum (x :: l) = x + sum l.
Proof.
  unfold sum. cbn [fold_left]. change (@nadd R exact) with Rplus.
  change (@n0 R exact) with 0. rewrite (fold_left_Rplus l (0 + x)). lra.
Qed.

Lemma sum_nonneg (l : list R) : Forall (fun s => 0 <= s) l -> 0 <= sum l.
Proof.
  induction 1 as [| x l Hx _ IH]; [cbn; lra |]. rewrite sum_cons_exact. lra.
Qed.

Lemma mapi_from_ext_range {A B} (f g : A -> Z -> B) (l : list A) (i j : Z) :
  (forall k a, nth_error l k = Some a ->
               f a (i + Z.of_nat k)%Z = g a (j + Z.of_nat k)%Z) ->
  mapi_from i f l = mapi_from j g l.
Proof.
  revert i j. induction l as [| a l IH]; intros i j H; [reflexivity |].
  cbn [mapi_from]. f_equal.
  - specialize (H 0%nat a eq_refl). cbn in H.
    now replace (i + 0)%Z with i in H by lia; replace (j + 0)%Z with j in H by lia.
  - apply IH. intros k b Hk. specialize (H (S k) b Hk).
    now replace (i + 1 + Z.of_nat k)%Z with (i + Z.of_nat (S k))%Z by lia;
      replace (j + 1 + Z.of_nat k)%Z with (j + Z.of_nat (S k))%Z by lia.
Qed.

(** The segments of an open polyline: the first one, then those of the
    polyline without its first point. *)
Lemma segmentLengths_open_cons (a b : Vec R) (rest : list (Vec R))
      (m : option string) :
  segmentLengths (a :: b :: rest) false m
  = dist a b m :: segmentLengths (b :: rest) false m.
Proof.
  unfold segmentLengths, mapi.
  replace (length (a :: b :: rest) - 1)%nat with (S (length rest))
    by (cbn [length]; lia).
  replace (length (b :: rest) - 1)%nat with (length rest)
    by (cbn [length]; lia).
  change (firstn (S (length rest)) (a :: b :: rest))
    with (a :: firstn (length rest) (b :: rest)).
  cbn [mapi_from]. f_equal.
  - change (0 + 1)%Z with (Z.of_nat 1).
    rewrite at_inside by (cbn [length]; lia). reflexivity.
  - apply mapi_from_ext_range. intros k s Hk.
    assert (Hlt : (k < length rest)%nat).
    { assert (H : (k < length (firstn (length rest) (b :: rest)))%nat)
        by (apply nth_error_Some; congruence).
      rewrite length_firstn in H. cbn [length] in H. lia. }
    replace (0 + 1 + Z.of_nat k + 1)%Z with (Z.of_nat (S (S k))) by lia.
    replace (0 + Z.of_nat k + 1)%Z with (Z.of_nat (S k)) by lia.
    rewrite !at_inside by (cbn [length]; lia). reflexivity.
Qed.

(** In exact arithmetic the length [calcPathLength] gives an open polyline
    is at least the distance from its first to its last point, in any
    metric pattern; closing the polyline does not shorten it. *)
Theorem calcPathLength_at_least_chord (a : Vec R) (rest : list (Vec R))
        (m : option string) :
  dist a (last rest a) m <= fst (calcPathLength (a :: rest) false m)
  /\ fst (calcPathLength (a :: rest) false m)
     <= fst (calcPathLength (a :: rest) true m).
Proof.
  split.
  - unfold calcPathLength. cbn [fst].
    revert a. induction rest as [| b rest IH]; intros a.
    + cbn [last]. rewrite dist_same. cbn. lra.
    + rewrite segmentLengths_open_cons, sum_cons_exact.
      rewrite last_cons_default.
      apply Rle_trans with (dist a b m + dist b (last rest b) m);
        [apply dist_triangle |].
      specialize (IH b). lra.
  - unfold calcPathLength. cbn [fst].
    unfold segmentLengths, mapi.
    replace (length (a :: rest) - 1)%nat with (length rest) by (cbn [length]; lia).
    set (f := fun (sample : Vec R) (sampleIndex : Z) =>
                match at_ (a :: rest) (sampleIndex + 1) with
                | Some next => dist sample next m
                | None => n0
                end).
    replace (mapi_from 0 f (a :: rest))
      with (mapi_from 0 f (firstn (length rest) (a :: rest)
                           ++ skipn (length rest) (a :: rest)))
      by (now rewrite firstn_skipn).
    rewrite mapi_from_app.
    set (l1 := mapi_from 0 f (firstn (length rest) (a :: rest))).
    set (l2 := mapi_from _ f (skipn (length rest) (a :: rest))).
    assert (H2 : 0 <= sum l2).
    { apply sum_nonneg. unfold l2. apply mapi_from_Forall. intros s k.
      unfold f. destruct (at_ (a :: rest) (k + 1));
        [apply dist_nonneg | rewrite n0_exact; lra]. }
    assert (Happ : forall l k : list R, sum (l ++ k) = sum l + sum k).
    { induction l as [| x l IHl]; intros k.
      - cbn [app]. change (sum []) with 0. lra.
      - cbn [app]. rewrite !sum_cons_exact, IHl. lra. }
    rewrite Happ. lra.
Qed.

End ChordExact.



(** ** The nearest point of one segment *)

Section QueryExact.
Import Exact.
Local Open Scope R_scope.

Lemma squares3_nonneg (x y z : R) : 0 <= x * x + y * y + z * z.
Proof.
  pose proof (Rle_0_sqr x) as Hx. pose proof (Rle_0_sqr y) as Hy.
  pose proof (Rle_0_sqr z) as Hz. unfold Rsqr in *. lra.
Qed.

Lemma projectsInside_false (p a b : Vec R) :
  projectsInside p a (vsub b a) = false ->
  (vx p - vx a) * (vx b - vx a) + (vy p - vy a) * (vy b - vy a)
  + (vz p - vz a) * (vz b - vz a) < 0
  \/ 0 < (vx p - vx b) * (vx b - vx a) + (vy p - vy b) * (vy b - vy a)
         + (vz p - vz b) * (vz b - vz a).
Proof.
  unfold projectsInside. pose proof EPSILON_small as HE.
  rewrite !dot_exact, vmult_exact, vadd_exact, !vsub_exact.
  cbn [vx vy vz]. on_reals.
  change (@nleb R exact ?x ?y) with (Rleb x y).
  intros H. apply andb_false_iff in H. destruct H as [H | H];
    apply Rleb_false in H; [left | right]; lra.
Qed.

(** The distance [queryPointToSegmentAB] reports is at most the distance
    from the point to any point of the segment. *)
Lemma query_le_segment_points (p a b : Vec R) (t : R) :
  0 <= t <= 1 ->
  snd (queryPointToSegmentAB p a b) <= dist p (along a b t) None.
Proof.
  intros Ht. unfold queryPointToSegmentAB, queryPointToSegmentOV.
  destruct (projectsInside p a (vsub b a)) eqn:Ein.
  - cbn [snd].
    destruct (project_exact (vsub p a) (vsub b a))
      as (u & L & HL & Hx & Hy & Hz & Hunit & ->).
    rewrite !dist_exact. cbv zeta. rewrite vadd_exact.
    rewrite !vsub_exact in *. unfold along. cbn [vx vy vz] in *.
    destruct p as [px py pz], a as [ax ay az], b as [bx by' bz],
             u as [ux uy uz]. cbn [vx vy vz] in *.
    set (s := ux * (px - ax) + uy * (py - ay) + uz * (pz - az)).
    apply sqrt_le_1_alt.
    rewrite Hx, Hy, Hz.
    destruct Hunit as [HU | (-> & -> & -> & ->)]; [| nra].
    assert (E : (ax + t * (L * ux) - px) * (ax + t * (L * ux) - px)
                + (ay + t * (L * uy) - py) * (ay + t * (L * uy) - py)
                + (az + t * (L * uz) - pz) * (az + t * (L * uz) - pz)
                - ((ux * s + ax - px) * (ux * s + ax - px)
                   + (uy * s + ay - py) * (uy * s + ay - py)
                   + (uz * s + az - pz) * (uz * s + az - pz))
                = (t * L * (t * L) - s * s) * (ux * ux + uy * uy + uz * uz)
                  - 2 * (t * L) * s + 2 * s * s)
      by (unfold s; ring).
    rewrite HU in E.
    match goal with
    | |- ?X <= ?Y => set (lhs := X) in *; set (rhs := Y) in *
    end.
    clearbody lhs rhs s. clear HU Hx Hy Hz.
    pose proof (Rle_0_sqr (t * L - s)) as Hsq. unfold Rsqr in Hsq. nra.
  - cbn [map]. rewrite sortBy_two. cbn [snd].
    assert (Hb : vadd a (vsub b a) = b).
    { rewrite vsub_exact, vadd_exact.
      destruct a as [ax ay az], b as [bx by' bz]. cbn [vx vy vz].
      f_equal; ring. }
    rewrite Hb, copy_exact.
    change (@nltb R exact n0 ?x) with (Rltb 0 x).
    change (@nsub R exact ?x ?y) with (x - y).
    assert (Hmin : dist p a None <= dist p (along a b t) None
                   \/ dist p b None <= dist p (along a b t) None).
    { destruct (projectsInside_false p a b Ein) as [H | H]; [left | right];
        rewrite !dist_exact; unfold along; cbn [vx vy vz];
        apply sqrt_le_1_alt;
        destruct p as [px py pz], a as [ax ay az], b as [bx by' bz];
        cbn [vx vy vz] in *.
      - set (D := (px - ax) * (bx - ax) + (py - ay) * (by' - ay)
                  + (pz - az) * (bz - az)) in *.
        set (V := (bx - ax) * (bx - ax) + (by' - ay) * (by' - ay)
                  + (bz - az) * (bz - az)).
        assert (HV : 0 <= V) by (unfold V; apply squares3_nonneg).
        assert (E : (ax + t * (bx - ax) - px) * (ax + t * (bx - ax) - px)
                    + (ay + t * (by' - ay) - py) * (ay + t * (by' - ay) - py)
                    + (az + t * (bz - az) - pz) * (az + t * (bz - az) - pz)
                    = (ax - px) * (ax - px) + (ay - py) * (ay - py)
                      + (az - pz) * (az - pz)
                      + t * (- 2 * D) + t * t * V)
          by (unfold D, V; ring).
        rewrite E. clearbody D V.
        assert (0 <= t * (- 2 * D)) by (apply Rmult_le_pos; lra).
        assert (0 <= t * t * V).
        { apply Rmult_le_pos; [| exact HV].
          pose proof (Rle_0_sqr t) as Hsq. unfold Rsqr in Hsq. exact Hsq. }
        lra.
      - set (D := (px - bx) * (bx - ax) + (py - by') * (by' - ay)
                  + (pz - bz) * (bz - az)) in *.
        set (V := (bx - ax) * (bx - ax) + (by' - ay) * (by' - ay)
                  + (bz - az) * (bz - az)).
        assert (HV : 0 <= V) by (unfold V; apply squares3_nonneg).
        assert (E : (ax + t * (bx - ax) - px) * (ax + t * (bx - ax) - px)
                    + (ay + t * (by' - ay) - py) * (ay + t * (by' - ay) - py)
                    + (az + t * (bz - az) - pz) * (az + t * (bz - az) - pz)
                    = (bx - px) * (bx - px) + (by' - py) * (by' - py)
                      + (bz - pz) * (bz - pz)
                      + (1 - t) * (2 * D) + (1 - t) * (1 - t) * V)
          by (unfold D, V; ring).
        rewrite E. clearbody D V.
        assert (0 <= (1 - t) * (2 * D)) by (apply Rmult_le_pos; lra).
        assert (0 <= (1 - t) * (1 - t) * V).
        { apply Rmult_le_pos; [| exact HV].
          pose proof (Rle_0_sqr (1 - t)) as Hsq. unfold Rsqr in Hsq. exact Hsq. }
        lra. }
    destruct (Rltb 0 (dist p a None - dist p b None)) eqn:G; cbn [snd].
    + apply Rltb_true in G. lra.
    + apply Rltb_false in G. lra.
Qed.

Lemma norm_zero_exact : norm (mkVec 0 0 0 : Vec R) = mkVec 0 0 0.
Proof.
  unfold norm, normalize. rewrite copy_exact, mag_exact. cbn [vx vy vz].
  replace (0 * 0 + 0 * 0 + 0 * 0) with 0 by ring. rewrite sqrt_0.
  change (@neqb R exact 0 n0) with (Reqb 0 0). unfold Reqb.
  destruct (Req_dec_T 0 0) as [_ | NE]; [reflexivity | contradiction].
Qed.

(** [project(b, false)] along a vector of positive length [L], or along
    the zero vector. *)
Lemma project_exact_pos (w v : Vec R) :
  exists (u : Vec R) (L : R),
    vx v = L * vx u /\ vy v = L * vy u /\ vz v = L * vz u
    /\ ((vx u * vx u + vy u * vy u + vz u * vz u = 1 /\ 0 < L)
        \/ (vx u = 0 /\ vy u = 0 /\ vz u = 0 /\ L = 0))
    /\ project w v false
       = let s := vx u * vx w + vy u * vy w + vz u * vz w in
         mkVec (vx u * s) (vy u * s) (vz u * s).
Proof.
  destruct (norm_exact v) as (u & L & Hu & HL & Hx & Hy & Hz & Hunit).
  assert (Hpos : (vx u * vx u + vy u * vy u + vz u * vz u = 1 /\ 0 < L)
                 \/ (vx u = 0 /\ vy u = 0 /\ vz u = 0 /\ L = 0)).
  { destruct Hunit as [HU | H0]; [| right; exact H0].
    destruct (Req_dec_T L 0) as [E | NE]; [| left; split; [exact HU | lra]].
    exfalso. rewrite E in Hx, Hy, Hz.
    assert (Ev : v = mkVec 0 0 0).
    { destruct v as [x y z]. cbn [vx vy vz] in *. f_equal; lra. }
    rewrite Ev, norm_zero_exact in Hu. rewrite <- Hu in HU.
    cbn [vx vy vz] in HU. lra. }
  exists u, L. repeat (split; [assumption |]).
  unfold project, setMag. rewrite Hu, (copy_exact w).
  rewrite normalize_norm_exact
    by (destruct Hunit as [H | (A & B & C & _)]; auto).
  rewrite vmult_exact, dot_exact. unfold vset. cbn [vx vy vz].
  rewrite !or0_exact. reflexivity.
Qed.

(** In exact arithmetic [queryPointToSegmentAB(p, a, b)] returns a point of
    the line through [a] and [b] together with its distance from [p], and
    no point of the segment from [a] to [b] is nearer to [p] than that. *)
Theorem query_nearest_on_segment (p a b : Vec R) :
  let r := queryPointToSegmentAB p a b in
  (exists s, fst r = along a b s)
  /\ snd r = dist p (fst r) None
  /\ forall t, 0 <= t <= 1 -> snd r <= dist p (along a b t) None.
Proof.
  cbv zeta.
  assert (Hb : vadd a (vsub b a) = b).
  { rewrite vsub_exact, vadd_exact.
    destruct a as [ax ay az], b as [bx by' bz]. cbn [vx vy vz].
    f_equal; ring. }
  split; [| split].
  - unfold queryPointToSegmentAB, queryPointToSegmentOV.
    destruct (projectsInside p a (vsub b a)).
    + cbn [fst].
      destruct (project_exact_pos (vsub p a) (vsub b a))
        as (u & L & Hx & Hy & Hz & Hunit & ->).
      cbv zeta. rewrite vadd_exact. rewrite !vsub_exact in *.
      unfold along. cbn [vx vy vz] in *.
      set (s := vx u * (vx p - vx a) + vy u * (vy p - vy a)
                + vz u * (vz p - vz a)).
      destruct Hunit as [[HU HL] | (Ux & Uy & Uz & L0)].
      * exists (s / L). rewrite Hx, Hy, Hz. f_equal; field; lra.
      * exists 0. rewrite Ux, Uy, Uz. f_equal; ring.
    + cbn [map]. rewrite sortBy_two, Hb, copy_exact.
      destruct (nltb n0 (nsub (snd (a, dist p a None)) (snd (b, dist p b None))));
        cbn [fst]; [exists 1 | exists 0];
        destruct a as [ax ay az], b as [bx by' bz]; unfold along;
        cbn [vx vy vz]; f_equal; ring.
  - unfold queryPointToSegmentAB, queryPointToSegmentOV.
    destruct (projectsInside p a (vsub b a)); [reflexivity |].
    cbn [map]. rewrite sortBy_two.
    destruct (nltb n0 _); reflexivity.
  - intros t Ht. apply query_le_segment_points. exact Ht.
Qed.

End QueryExact.
(** ** The nearest location: which segment, which offset *)

Section SortLeast.
Context {A : Type}.

(** A sort by a strict order puts first an element that goes after no
    other one. *)
Lemma sortBy_head_least (gt : A -> A -> bool) :
  (forall a, gt a a = false) ->
  (forall a b, gt a b = true -> gt b a = false) ->
  (forall a b c, gt a b = false -> gt b c = false -> gt a c = false) ->
  forall l h t, sortBy gt l = h :: t -> forall x, In x l -> gt h x = false.
Proof.
  intros Hirr Hasym Htrans.
  induction l as [| a l IH]; intros h t E x Hx; [destruct Hx |].
  cbn [sortBy fold_right] in E. fold (sortBy gt l) in E.
  destruct (sortBy gt l) as [| h' t'] eqn:Es.
  - cbn in E. injection E as <- <-.
    assert (l = []).
    { destruct l as [| b l]; [reflexivity |].
      exfalso. apply (@sortBy_nonempty _ gt (b :: l)); [discriminate | exact Es]. }
    subst l. destruct Hx as [-> | []]. apply Hirr.
  - cbn [sort_insert] in E. destruct (gt a h') eqn:G; injection E as <- <-.
    + destruct Hx as [-> | Hx]; [apply Hasym, G |].
      apply (IH h' t' eq_refl x Hx).
    + destruct Hx as [-> | Hx]; [apply Hirr |].
      apply Htrans with h'; [exact G | apply (IH h' t' eq_refl x Hx)].
Qed.

End SortLeast.

Section NearestStructure.
Import Exact.
Local Open Scope R_scope.

Lemma locationAfter_lex (a b : CurveLocation R) :
  locationAfter a b = true
  <-> (distance a = distance b /\ (index b < index a)%Z)
      \/ distance b < distance a.
Proof.
  unfold locationAfter.
  change (@neqb R exact ?x ?y) with (Reqb x y).
  change (@nltb R exact n0 ?x) with (Rltb 0 x).
  change (@nsub R exact ?x ?y) with (x - y).
  destruct (Reqb (distance a) (distance b)) eqn:E.
  - apply Reqb_true in E. rewrite Z.ltb_lt. split.
    + intros H. left. split; [exact E | lia].
    + intros [[_ H] | H]; [lia | lra].
  - assert (Hne : distance a <> distance b).
    { intros H. rewrite H in E. unfold Reqb in E.
      destruct (Req_dec_T (distance b) (distance b)); [discriminate | congruence]. }
    split.
    + intros H. apply Rltb_true in H. right. lra.
    + intros [[H _] | H]; [contradiction |].
      unfold Rltb. destruct (Rlt_dec 0 (distance a - distance b)); [reflexivity | lra].
Qed.

Lemma locationAfter_not (a b : CurveLocation R) :
  locationAfter a b = false
  <-> distance a < distance b
      \/ (distance a = distance b /\ (index a <= index b)%Z).
Proof.
  pose proof (locationAfter_lex a b) as H.
  destruct (locationAfter a b).
  - split; [discriminate |]. intros H'.
    destruct (proj1 H eq_refl) as [[E L] | L]; destruct H' as [H' | [H' H'']];
      try lra; lia.
  - split; [| reflexivity]. intros _.
    destruct (Rtotal_order (distance a) (distance b)) as [L | [E | L]].
    + left. exact L.
    + right. split; [exact E |].
      destruct (Z_le_gt_dec (index a) (index b)) as [Hi | Hi]; [exact Hi |].
      assert (false = true) by (apply H; left; split; [exact E | lia]).
      discriminate.
    + assert (false = true) by (apply H; right; exact L). discriminate.
Qed.

(** The locations [getNearestLocation] builds, one per segment, in full. *)
Lemma candidates_full (vs : list (Vec R)) (pt : Vec R) (idxs : list Z) :
  vs <> [] ->
  exists locs,
    mapM (fun i =>
            obind (deref (at_ vs i)) (fun a =>
            obind (deref (at_ vs (i + 1))) (fun b =>
            let '(q, d) := queryPointToSegmentAB pt a b in
            Ret (mkLoc q d i None)))) idxs = Ret locs
    /\ Forall2 (fun i loc =>
                  exists a b, at_ vs i = Some a /\ at_ vs (i + 1) = Some b
                              /\ loc = mkLoc (fst (queryPointToSegmentAB pt a b))
                                             (snd (queryPointToSegmentAB pt a b))
                                             i None)
               idxs locs.
Proof.
  intros Hvs. induction idxs as [| i idxs (locs & Hm & HF)].
  - exists []. split; [reflexivity | constructor].
  - destruct (at_some i Hvs) as (a & Ha).
    destruct (at_some (i + 1) Hvs) as (b & Hb).
    exists (mkLoc (fst (queryPointToSegmentAB pt a b))
                  (snd (queryPointToSegmentAB pt a b)) i None :: locs).
    split.
    + simpl. rewrite Ha, Hb. simpl.
      destruct (queryPointToSegmentAB pt a b) as [q d]. simpl.
      rewrite Hm. reflexivity.
    + constructor; [| exact HF].
      exists a, b. repeat split; assumption.
Qed.

(** On a path with at least one segment, in exact arithmetic,
    [getNearestLocation] returns the result of [queryPointToSegmentAB] on
    one segment of the path: the one of least distance and, among segments
    at the same distance, the one of the lowest index; no point of any
    segment of the path is nearer to the query point.  The offset it adds
    is the offset of the segment's first vertex plus the distance from that
    vertex to the returned point, clamped to [0, length]. *)
Theorem nearest_location_segment (vertices : list (PointLike R))
        (ops : list (PathOp R)) (q : PointLike R) :
  let p := after vertices ops in
  let vs := fst (get_vertices p) in
  let nSeg := fst (get_nSegments p) in
  let len := fst (get_length p) in
  (1 <= nSeg)%Z ->
  exists cl a b o,
    fst (getNearestLocation q p) = Ret (Some cl)
    /\ (0 <= index cl < nSeg)%Z
    /\ at_ vs (index cl) = Some a /\ at_ vs (index cl + 1) = Some b
    /\ (point cl, distance cl) = queryPointToSegmentAB (pointArg q) a b
    /\ offset cl = Some o
    /\ o = clamp (nth (Z.to_nat (index cl)) (fst (get_offsets p)) 0
                  + dist (point cl) a None) 0 len
    /\ 0 <= o <= len
    /\ (forall j a' b',
         (0 <= j < nSeg)%Z -> at_ vs j = Some a' -> at_ vs (j + 1) = Some b' ->
         let d := snd (queryPointToSegmentAB (pointArg q) a' b') in
         distance cl <= d /\ (d = distance cl -> (index cl <= j)%Z))
    /\ forall j a' b' t,
         (0 <= j < nSeg)%Z -> at_ vs j = Some a' -> at_ vs (j + 1) = Some b' ->
         0 <= t <= 1 ->
         distance cl <= dist (pointArg q) (along a' b' t) None.
Proof.
  intros p vs0 nSeg len Hseg.
  pose proof (coherent_after vertices ops) as Hc. fold p in Hc.
  unfold nSeg in *. unfold vs0, len.
  rewrite (get_nSegments_coherent Hc) in *.
  rewrite (get_vertices_coherent Hc).
  rewrite (get_offsets_coherent Hc), (get_length_coherent Hc).
  unfold getNearestLocation, get_nSegments, get_length, get_vertices.
  rewrite !cleanVertices_idem.
  rewrite (cleanVertices_cleanLength (coherent_cleanVertices Hc)).
  rewrite !cleanLength_idem.
  rewrite (vertices_cleanLength (coherent_cleanVertices Hc)).
  rewrite (vertices_cleanVertices Hc).
  rewrite !closed_cleanVertices.
  destruct (cleanLength_fields (coherent_cleanVertices Hc))
    as (_ & _ & Elen & Ecum & _).
  destruct (same_inputs_cleanVertices p) as (Ho & Hz & Hcl & Hme).
  rewrite Elen, Ecum. rewrite Ho, Hz, Hcl, Hme.
  unfold derived_offsets, derived_length.
  set (vs := derived_vertices (_vertices_original p) (_use_z p)) in *.
  set (segs := derived_segments (_vertices_original p) (_use_z p) (_closed p)
                                (_length_metric p)).
  set (pt := pointArg q).
  assert (Hvs : vs <> []) by (destruct vs; [simpl in Hseg; destruct (_closed p); lia | discriminate]).
  set (m := (length vs - (if _closed p then 0 else 1))%nat).
  assert (Hm : (1 <= m <= length vs)%nat) by (unfold m; destruct (_closed p); lia).
  assert (Hsegs : length segs = m).
  { unfold segs, derived_segments. fold vs. rewrite segmentLengths_length.
    unfold m. destruct (_closed p); lia. }
  replace (Z.of_nat (length vs) - (if _closed p then 0 else 1))%Z
    with (Z.of_nat m) by (unfold m; destruct (_closed p); lia).
  rewrite range_nonneg. cbn [obind].
  destruct (candidates_full pt (map Z.of_nat (seq 0 m)) Hvs) as (locs & -> & HF).
  assert (Hlocs : locs <> []).
  { destruct m as [| m']; [lia |]. inversion HF; discriminate. }
  destruct (sortBy locationAfter locs) as [| h t] eqn:Es;
    [exfalso; exact (sortBy_nonempty locationAfter Hlocs Es) |].
  change 0%Z with (Z.of_nat 0) at 1.
  rewrite (at_inside (h :: t) (i := 0)) by (simpl; lia). cbn [nth_error].
  assert (Hh : In h locs) by (apply (sortBy_In locationAfter); rewrite Es; left; reflexivity).
  destruct (Forall2_In_right h HF Hh) as (i & Hi & a & b & Ha & Hb & Eh).
  apply in_map_iff in Hi. destruct Hi as (k & <- & Hk). apply in_seq in Hk.
  assert (Hidx : index h = Z.of_nat k) by (rewrite Eh; reflexivity).
  rewrite Hidx, Nat2Z.id.
  rewrite at_inside
    by (cbn [length]; unfold cumulativeSum; rewrite cumulativeSum_from_length, Hsegs; lia).
  rewrite at_inside in Ha by lia. rewrite Ha.
  destruct (nth_error (n0 :: cumulativeSum segs) k) as [o |] eqn:Eo;
    [| apply nth_error_None in Eo; cbn [length] in Eo;
       unfold cumulativeSum in Eo;
       rewrite cumulativeSum_from_length, Hsegs in Eo; lia].
  assert (Hlen : 0 <= sum segs).
  { apply sum_nonneg. apply segmentLengths_nonneg. }
  exists (mkLoc (point h) (distance h) (Z.of_nat k)
                (Some (clamp (o + dist (point h) a None) 0 (sum segs)))),
    a, b, (clamp (o + dist (point h) a None) 0 (sum segs)).
  cbn [index distance point offset].
  split; [reflexivity |].
  split; [lia |].
  split; [rewrite at_inside by lia; exact Ha |].
  split; [exact Hb |].
  split; [rewrite Eh; cbn [point distance]; now destruct (queryPointToSegmentAB pt a b) |].
  split; [reflexivity |].
  split.
  { rewrite Nat2Z.id, nth_firstn by lia.
    rewrite (nth_error_nth _ _ 0 Eo). reflexivity. }
  split.
  { rewrite clamp_exact. unfold Rmax, Rmin.
    repeat destruct (Rle_dec _ _); lra. }
  assert (Hall : forall j a' b',
             (0 <= j < Z.of_nat m)%Z ->
             at_ vs j = Some a' -> at_ vs (j + 1) = Some b' ->
             distance h <= snd (queryPointToSegmentAB pt a' b')
             /\ (snd (queryPointToSegmentAB pt a' b') = distance h ->
                 (Z.of_nat k <= j)%Z));
    [| split;
       [exact Hall
       | intros j a' b' t' Hj Ha' Hb' Ht;
         apply Rle_trans with (snd (queryPointToSegmentAB pt a' b'));
         [apply (Hall j a' b' Hj Ha' Hb')
         | apply query_le_segment_points; exact Ht]]].
  intros j a' b' Hj Ha' Hb'.
  set (d := snd (queryPointToSegmentAB pt a' b')).
  assert (Hin : In j (map Z.of_nat (seq 0 m))).
  { apply in_map_iff. exists (Z.to_nat j). split; [lia | apply in_seq; lia]. }
  destruct (Forall2_In_left _ HF Hin) as (loc & Hloc & a2 & b2 & Ha2 & Hb2 & El).
  assert (a2 = a') by congruence. assert (b2 = b') by congruence. subst a2 b2.
  assert (Hnot : locationAfter h loc = false).
  { apply (@sortBy_head_least _ locationAfter) with (l := locs) (t := t).
    - intros x. apply locationAfter_not. right. split; [reflexivity | lia].
    - intros x y H. apply locationAfter_lex in H. apply locationAfter_not.
      destruct H as [[E L] | L]; [right; split; [symmetry; exact E | lia] | left; exact L].
    - intros x y z H1 H2. apply locationAfter_not in H1, H2.
      apply locationAfter_not.
      destruct H1 as [L1 | [E1 L1]], H2 as [L2 | [E2 L2]].
      + left; lra.
      + left; lra.
      + left; lra.
      + right. split; [lra | lia].
    - exact Es.
    - exact Hloc. }
  apply locationAfter_not in Hnot.
  assert (Ed : distance loc = d) by (rewrite El; reflexivity).
  assert (Ei : index loc = j) by (rewrite El; reflexivity).
  rewrite Ed, Ei, Hidx in Hnot.
  split.
  - destruct Hnot as [L | [E _]]; lra.
  - intros E. destruct Hnot as [L | [_ L]]; [lra | exact L].
Qed.

(** The theorem at the open path (0,0),(1,0) and the query point (0,1). *)
Lemma nearest_location_segment_witness :
  let p := after [PVec (pt 0 0); PVec (pt 1 0)] [] in
  (1 <= fst (get_nSegments p))%Z
  /\ exists cl,
       fst (getNearestLocation (PVec (pt 0 1)) p) = Ret (Some cl)
       /\ (0 <= index cl < fst (get_nSegments p))%Z.
Proof.
  cbv zeta. split; [simpl; lia |].
  destruct (nearest_location_segment
              [PVec (pt 0 0); PVec (pt 1 0)] [] (PVec (pt 0 1))
              ltac:(simpl; lia))
    as (cl & a & b & o & H1 & H2 & _).
  exists cl. split; [exact H1 | exact H2].
Defined.

End NearestStructure.


(** ** Projections *)

Section ProjectExact.
Import Exact.
Local Open Scope R_scope.

(** [norm()] in exact arithmetic: [v] is [L] times its unit vector, with
    [L] positive, or [v] is the zero vector and so is [norm()]. *)
Lemma norm_facts (v : Vec R) :
  exists L,
    vx v = L * vx (norm v) /\ vy v = L * vy (norm v)
    /\ vz v = L * vz (norm v)
    /\ ((vx (norm v) * vx (norm v) + vy (norm v) * vy (norm v)
         + vz (norm v) * vz (norm v) = 1 /\ 0 < L)
        \/ (vx (norm v) = 0 /\ vy (norm v) = 0 /\ vz (norm v) = 0 /\ L = 0)).
Proof.
  destruct (norm_exact v) as (u & L & Hu & HL & Hx & Hy & Hz & Hunit).
  exists L. rewrite Hu. repeat (split; [assumption |]).
  destruct Hunit as [HU | H0]; [| right; exact H0].
  destruct (Req_dec_T L 0) as [E | NE]; [| left; split; [exact HU | lra]].
  exfalso. rewrite E in Hx, Hy, Hz.
  assert (Ev : v = mkVec 0 0 0).
  { destruct v as [x y z]. cbn [vx vy vz] in *. f_equal; lra. }
  rewrite Ev, norm_zero_exact in Hu. rewrite <- Hu in HU.
  cbn [vx vy vz] in HU. lra.
Qed.

(** [project(b, r)]: the part of [w] along the unit vector of [v], or what
    is left of [w] without it. *)
Lemma project_norm_exact (w v : Vec R) (r : bool) :
  let u := norm v in
  let s := vx u * vx w + vy u * vy w + vz u * vz w in
  project w v r
  = if r then mkVec (vx w - vx u * s) (vy w - vy u * s) (vz w - vz u * s)
    else mkVec (vx u * s) (vy u * s) (vz u * s).
Proof.
  cbv zeta. destruct (norm_facts v) as (L & _ & _ & _ & Hunit).
  unfold project, setMag. rewrite (copy_exact w).
  rewrite normalize_norm_exact
    by (destruct Hunit as [[H _] | (A & B & C & _)]; auto).
  rewrite vmult_exact, dot_exact.
  destruct r; [rewrite vsub_exact |]; unfold vset; cbn [vx vy vz];
    rewrite !or0_exact; reflexivity.
Qed.

(** In exact arithmetic [project] splits a vector into the part along [v]
    and the rest: the two parts add up to the vector, the part along [v] is
    a multiple of [v], the rest is orthogonal to [v], projecting the part
    along [v] again changes nothing, and the squared lengths add up. *)
Theorem project_decomposes (w v : Vec R) :
  vadd (project w v false) (project w v true) = w
  /\ (exists c, project w v false = vmult v c)
  /\ dot (project w v true) v = 0
  /\ project (project w v false) v false = project w v false
  /\ magSq w = magSq (project w v false) + magSq (project w v true).
Proof.
  rewrite (project_norm_exact (project w v false) v false).
  rewrite !(project_norm_exact w v). cbv zeta.
  destruct (norm_facts v) as (L & Hx & Hy & Hz & Hunit).
  set (u := norm v) in *.
  set (s := vx u * vx w + vy u * vy w + vz u * vz w).
  rewrite vadd_exact, dot_exact. unfold magSq. cbn [vx vy vz].
  destruct w as [wx wy wz], v as [x y z]. cbn [vx vy vz] in *.
  destruct u as [ux uy uz]. cbn [vx vy vz] in *.
  assert (HS : s * (ux * ux + uy * uy + uz * uz) = s).
  { destruct Hunit as [[HU _] | (Ux & Uy & Uz & _)].
    - rewrite HU. ring.
    - unfold s. rewrite Ux, Uy, Uz. ring. }
  split; [f_equal; ring |].
  split.
  { destruct Hunit as [[HU HL] | (Ux & Uy & Uz & L0)].
    - exists (s / L). rewrite vmult_exact. cbn [vx vy vz].
      rewrite Hx, Hy, Hz. f_equal; field; lra.
    - exists 0. rewrite vmult_exact. cbn [vx vy vz].
      rewrite Ux, Uy, Uz. f_equal; ring. }
  split.
  { rewrite Hx, Hy, Hz.
    replace ((wx - ux * s) * (L * ux) + (wy - uy * s) * (L * uy)
             + (wz - uz * s) * (L * uz))
      with (L * (s - s * (ux * ux + uy * uy + uz * uz)))
      by (unfold s; ring).
    rewrite HS. ring. }
  split.
  { replace (ux * (ux * s) + uy * (uy * s) + uz * (uz * s))
      with (s * (ux * ux + uy * uy + uz * uz)) by ring.
    rewrite HS. reflexivity. }
  on_reals.
  replace (ux * s * (ux * s) + uy * s * (uy * s) + uz * s * (uz * s)
           + ((wx - ux * s) * (wx - ux * s) + (wy - uy * s) * (wy - uy * s)
              + (wz - uz * s) * (wz - uz * s)))
    with (wx * wx + wy * wy + wz * wz
          + 2 * s * (s * (ux * ux + uy * uy + uz * uz)) - 2 * s * s)
    by (unfold s; ring).
  rewrite HS. ring.
Qed.

(** [projectPointToSegment] answers [null] exactly when the point projects
    outside the segment by more than [Number.EPSILON]; then
    [queryPointToSegmentOV] answers with an end of the segment.  Otherwise
    both report the same distance, in exact arithmetic. *)
Theorem projectPointToSegment_agrees (p o v : Vec R) :
  let along_v := (vx p - vx o) * vx v + (vy p - vy o) * vy v
                 + (vz p - vz o) * vz v in
  let len2 := vx v * vx v + vy v * vy v + vz v * vz v in
  (projectPointToSegment p o v = None
   <-> along_v < - EPSILON \/ len2 + EPSILON < along_v)
  /\ (projectPointToSegment p o v = None ->
      fst (queryPointToSegmentOV p o v) = o
      \/ fst (queryPointToSegmentOV p o v) = vadd o v)
  /\ (forall d, projectPointToSegment p o v = Some d ->
                snd (queryPointToSegmentOV p o v) = d).
Proof.
  cbv zeta.
  assert (Hin : projectsInside p o v = false
                <-> (vx p - vx o) * vx v + (vy p - vy o) * vy v
                    + (vz p - vz o) * vz v < - EPSILON
                    \/ vx v * vx v + vy v * vy v + vz v * vz v + EPSILON
                       < (vx p - vx o) * vx v + (vy p - vy o) * vy v
                         + (vz p - vz o) * vz v).
  { unfold projectsInside.
    rewrite !dot_exact, vmult_exact, vadd_exact, !vsub_exact.
    cbn [vx vy vz]. on_reals.
    change (@nleb R exact ?x ?y) with (Rleb x y).
    rewrite andb_false_iff, !Rleb_false.
    split; (intros [H | H]; [left | right]); lra. }
  unfold projectPointToSegment, queryPointToSegmentOV.
  destruct (projectsInside p o v) eqn:E.
  - split; [| split].
    + split; [discriminate |]. intros H. apply Hin in H. discriminate.
    + discriminate.
    + intros d Hd.
      assert (Ed : mag (project (vsub p o) v true) = d) by congruence.
      rewrite <- Ed. clear Hd Ed. cbn [snd].
      rewrite (project_norm_exact (vsub p o) v true).
      rewrite (project_norm_exact (vsub p o) v false). cbv zeta.
      rewrite dist_exact, mag_exact, vadd_exact, !vsub_exact.
      cbn [vx vy vz]. f_equal. ring.
  - split; [| split].
    + split; [intros _; apply Hin; reflexivity | reflexivity].
    + intros _. cbn [map]. rewrite sortBy_two, copy_exact.
      destruct (nltb n0 _); cbn [fst]; [right | left]; reflexivity.
    + discriminate.
Qed.

End ProjectExact.


(** ** Subdividing a path *)

Section SubdivideFacts.
Context {num : Type} {N : Num num}.

Lemma getPointAt_snd_clean (off : num) (q : PathLite num) :
  clean q -> snd (getPointAt off q) = q.
Proof.
  intros Hq. destruct (clean_fix Hq) as [Ev El].
  unfold getPointAt, _getIndexInterpolatedAt, get_length, get_nSegments,
    get_vertices.
  rewrite !El, !Ev. cbv zeta.
  destruct (_closed q); rewrite ?Ev; reflexivity.
Qed.

(** On a path whose caches are up to date and that has a vertex,
    [getPointAt] returns a point whatever the offset. *)
Lemma getPointAt_total_clean (off : num) (q : PathLite num) :
  clean q -> _vertices q <> [] -> exists v, fst (getPointAt off q) = Ret v.
Proof.
  intros Hq Hv. rewrite (getPointAt_clean off Hq). cbv zeta.
  match goal with
  | |- context [at_ (_vertices q) (nfloor ?i)] => set (ii := i)
  end.
  destruct (at_some (nfloor ii) Hv) as (a & ->).
  destruct (at_some (nceil ii) Hv) as (b & ->).
  eexists. reflexivity.
Qed.

Lemma subdivide_points_clean (n : Z) (idxs : list Z) (q : PathLite num) :
  clean q ->
  subdivide_points n idxs q
  = (mapM (fun i =>
             fst (getPointAt
                    (nmul (ndiv (ofZ i)
                                (ofZ (n - (if _closed q then 0 else 1))%Z))
                          (_length q)) q)) idxs, q)
    \/ exists e, fst (subdivide_points n idxs q) = Throw e
                 /\ mapM (fun i =>
                            fst (getPointAt
                                   (nmul (ndiv (ofZ i)
                                               (ofZ (n - (if _closed q
                                                          then 0 else 1))%Z))
                                         (_length q)) q)) idxs = Throw e.
Proof.
  intros Hq. destruct (clean_fix Hq) as [Ev El].
  induction idxs as [| i idxs IH]; [left; reflexivity |].
  cbn [subdivide_points mapM]. unfold get_length. rewrite El.
  set (off := nmul (ndiv (ofZ i) (ofZ (n - (if _closed q then 0 else 1))%Z))
                   (_length q)).
  pose proof (getPointAt_snd_clean off Hq) as Hs.
  destruct (getPointAt off q) as [[v | e] q'] eqn:E; cbn [fst snd] in *;
    subst q'.
  - destruct IH as [-> | (e & He & Hm)].
    + left. reflexivity.
    + right. exists e.
      destruct (subdivide_points n idxs q) as [r q'']. cbn [fst] in He.
      subst r. cbn [obind fst]. rewrite Hm. split; reflexivity.
  - right. exists e. split; reflexivity.
Qed.

(** The first read of [length] brings the caches up to date. *)
Lemma subdivide_points_start (n i : Z) (rest : list Z) (p : PathLite num) :
  subdivide_points n (i :: rest) p
  = subdivide_points n (i :: rest) (_cleanLength p).
Proof.
  cbn [subdivide_points]. unfold get_length.
  rewrite cleanLength_idem, closed_cleanLength. reflexivity.
Qed.

Lemma mapM_nth_error {A B} (f : A -> outcome B) (l : list A) (r : list B) :
  mapM f l = Ret r ->
  length r = length l
  /\ forall k a, nth_error l k = Some a ->
                 exists b, f a = Ret b /\ nth_error r k = Some b.
Proof.
  revert r. induction l as [| x l IH]; intros r H.
  - cbn in H. injection H as <-. split; [reflexivity |].
    intros [| k] a Hk; discriminate.
  - cbn [mapM] in H. destruct (f x) as [b | e] eqn:Ex; [| discriminate].
    cbn [obind] in H. destruct (mapM f l) as [bs | e]; [| discriminate].
    cbn [obind] in H. injection H as <-.
    destruct (IH bs eq_refl) as [Hl Hn].
    split; [cbn [length]; now rewrite Hl |].
    intros [| k] a Hk; cbn [nth_error] in *.
    + injection Hk as <-. exists b. split; [exact Ex | reflexivity].
    + apply Hn. exact Hk.
Qed.

End SubdivideFacts.

Section SubdivideExact.
Import Exact.
Local Open Scope R_scope.

(** [subdividePath(path, n)] on a path all of whose segments have a
    positive length, in exact arithmetic, with [n] at least 2 on an open
    path and at least 1 on a closed one: the path comes back with [n]
    vertices and the same closed flag, its first vertex is the first vertex
    it had, and on an open path its last vertex is the last vertex it had.
    A negative [n] raises RangeError. *)
Theorem subdividePath_keeps_ends (vertices : list (PointLike R))
        (ops : list (PathOp R)) (n : Z) :
  let p := after vertices ops in
  let vs := fst (get_vertices p) in
  let segs := _length_segments (snd (get_length p)) in
  ((n < 0)%Z -> subdividePath p n = Throw RangeError)
  /\ ((1 <= fst (get_nSegments p))%Z -> Forall (fun s => 0 < s) segs ->
      ((if _closed p then 1 else 2) <= n)%Z ->
      exists p',
        subdividePath p n = Ret p'
        /\ Z.of_nat (length (fst (get_vertices p'))) = n
        /\ _closed p' = _closed p
        /\ hd_error (fst (get_vertices p')) = hd_error vs
        /\ (_closed p = false ->
            nth_error (fst (get_vertices p'))
                      (length (fst (get_vertices p')) - 1)
            = nth_error vs (length vs - 1))).
Proof.
  intros p vs segs. split.
  - intros Hn. unfold subdividePath, range.
    destruct (Z.ltb_spec n 0); [reflexivity | lia].
  - intros Hseg Hpos Hn.
    pose proof (coherent_after vertices ops) as Hc. fold p in Hc.
    pose proof (cleanLength_is_clean Hc) as Hq.
    pose proof (cleanLength_fields Hc) as HF. cbv zeta in HF.
    destruct HF as (Fv & Fs & Fl & Fc & Fcl).
    set (q := _cleanLength p) in *.
    destruct (@getPointAt_vertex_facts vertices ops Hseg Hpos)
      as (Hvert & _ & Hend).
    destruct (@offsets_invariants_exact vertices ops Hseg)
      as (_ & _ & H0 & _).
    fold p in Hvert, Hend, H0. fold vs in Hvert, Hend.
    assert (Evs : vs = derived_vertices (_vertices_original p) (_use_z p))
      by apply (get_vertices_coherent Hc).
    rewrite <- Evs in Fv.
    assert (Hvs : vs <> []).
    { rewrite (get_nSegments_coherent Hc), <- Evs in Hseg.
      destruct vs; [cbn in Hseg; destruct (_closed p); lia | discriminate]. }
    assert (Hlen : fst (get_length p) = _length q) by reflexivity.
    set (c := (if _closed p then 0 else 1)%Z) in *.
    assert (Hc1 : (1 <= n - c)%Z) by (unfold c; destruct (_closed p); lia).
    set (f := fun i : Z =>
                fst (getPointAt (IZR i / IZR (n - c) * _length q) q)).
    assert (Htot : forall i, exists v, f i = Ret v).
    { intros i. apply getPointAt_total_clean; [exact Hq | now rewrite Fv]. }
    destruct (@mapM_total _ _ f (map Z.of_nat (seq 0 (Z.to_nat n))))
      as (pts & Hpts & Hlpts); [intros a _; apply Htot |].
    rewrite length_map, length_seq in Hlpts.
    assert (Hsub : subdivide_points n (map Z.of_nat (seq 0 (Z.to_nat n))) p
                   = (Ret pts, q)).
    { assert (Hn1 : (0 < Z.to_nat n)%nat) by (destruct (_closed p); lia).
      destruct (Z.to_nat n) as [| n'] eqn:En; [lia |].
      assert (E1 : subdivide_points n (map Z.of_nat (seq 0 (S n'))) p
                   = subdivide_points n (map Z.of_nat (seq 0 (S n'))) q).
      { change (map Z.of_nat (seq 0 (S n')))
          with (Z.of_nat 0 :: map Z.of_nat (seq 1 n')).
        apply subdivide_points_start. }
      rewrite E1.
      destruct (subdivide_points_clean n (map Z.of_nat (seq 0 (S n'))) Hq)
        as [E2 | (e & _ & E2)].
      - rewrite E2, Fcl. fold c. on_reals. fold f. now rewrite Hpts.
      - rewrite Fcl in E2. fold c in E2. on_reals. fold f in E2.
        rewrite Hpts in E2. discriminate. }
    unfold subdividePath. rewrite range_of_nonneg by (destruct (_closed p); lia).
    rewrite Hsub. cbn [obind].
    eexists. split; [reflexivity |].
    assert (Eget : fst (get_vertices (set_vertices (map PVec pts) q))
                   = map (fun x => workingCopy (_use_z p) (copy_ x)) pts).
    { unfold get_vertices, _cleanVertices, set_vertices, _flagVerticesDirty,
        _flagLengthDirty. cbn. rewrite !map_map.
      destruct (same_inputs_cleanLength p) as (_ & Hz & _). fold q in Hz.
      rewrite Hz. reflexivity. }
    rewrite Eget, length_map, Hlpts.
    destruct (mapM_nth_error f _ Hpts) as [_ Hnth].
    assert (Hsettled : settled (_use_z p) vs)
      by (rewrite Evs; apply settled_derived).
    assert (Hkeep : forall v, In v vs ->
                              workingCopy (_use_z p) (copy_ v) = v).
    { intros v Hv. unfold settled in Hsettled.
      rewrite Forall_forall in Hsettled.
      destruct (Hsettled v Hv) as [E1 E2]. now rewrite E1, E2. }
    split; [destruct (_closed p); lia |].
    split; [exact Fcl |].
    split.
    + (* the first point is the point at offset 0 *)
      destruct vs as [| v0 vs1] eqn:Evs0; [congruence |].
      destruct (Hnth 0%nat 0%Z) as (b & Hb & Hb').
      { destruct (Z.to_nat n) eqn:En; [destruct (_closed p); lia | reflexivity]. }
      assert (Hv0 : fst (getPointAt (nth 0 (fst (get_offsets p)) 0) p) = Ret v0)
        by (apply Hvert; reflexivity).
      rewrite H0 in Hv0.
      unfold f in Hb.
      replace (IZR 0 / IZR (n - c) * _length q) with 0 in Hb
        by (unfold Rdiv; ring).
      fold q in Hb. unfold q in Hb. rewrite <- getPointAt_cleanLength in Hb.
      assert (b = v0) by congruence. subst b.
      destruct pts as [| b0 pts1]; [discriminate |].
      cbn [nth_error] in Hb'. injection Hb' as ->.
      cbn [map hd_error]. f_equal. apply Hkeep. left. reflexivity.
    + intros Hopen. rewrite Hopen in Hend.
      assert (Hc' : c = 1%Z) by (unfold c; now rewrite Hopen).
      destruct (nth_error vs (length vs - 1)) as [vl |] eqn:El.
      2:{ apply nth_error_None in El. destruct vs; [congruence |].
          cbn [length] in El. lia. }
      cbn [deref] in Hend.
      destruct (Hnth (Z.to_nat n - 1)%nat (n - 1)%Z) as (b & Hb & Hb').
      { rewrite nth_error_map, nth_error_seq.
        destruct (Nat.ltb_spec (Z.to_nat n - 1) (Z.to_nat n)) as [_ | H];
          [| rewrite Hopen in Hn; lia].
        cbn. f_equal. rewrite Hopen in Hn. lia. }
      unfold f in Hb. rewrite Hc' in Hb.
      replace (IZR (n - 1) / IZR (n - 1) * _length q) with (_length q) in Hb.
      2:{ field. apply not_0_IZR. rewrite Hopen in Hn. lia. }
      rewrite <- Hlen in Hb.
      unfold q in Hb. rewrite <- getPointAt_cleanLength in Hb.
      assert (b = vl) by congruence. subst b.
      rewrite nth_error_map, Hb'. cbn [option_map]. f_equal.
      apply Hkeep. apply nth_error_In with (length vs - 1)%nat. exact El.
Qed.

(** The theorem at the open path (0,0),(1,0), subdivided into 2. *)
Lemma subdividePath_keeps_ends_witness :
  let p := after [PVec (pt 0 0); PVec (pt 1 0)] [] in
  (1 <= fst (get_nSegments p))%Z
  /\ Forall (fun s => 0 < s) (_length_segments (snd (get_length p)))
  /\ exists p',
       subdividePath p 2 = Ret p'
       /\ Z.of_nat (length (fst (get_vertices p'))) = 2%Z
       /\ hd_error (fst (get_vertices p')) = hd_error (fst (get_vertices p)).
Proof.
  cbv zeta.
  destruct (two_point_path (pt 0 0) (pt 1 0)) as (E1 & E2 & _).
  cbv zeta in E1, E2.
  assert (H1 : (1 <= fst (get_nSegments
                            (after [PVec (pt 0 0); PVec (pt 1 0)] [])))%Z)
    by (rewrite E1; lia).
  assert (H2 : Forall (fun s => 0 < s)
                 (_length_segments
                    (snd (get_length
                            (after [PVec (pt 0 0); PVec (pt 1 0)] []))))).
  { rewrite E2. constructor; [| constructor].
    apply sqrt_lt_R0. unfold pt. cbn [vx vy]. lra. }
  split; [exact H1 |]. split; [exact H2 |].
  destruct (proj2 (subdividePath_keeps_ends
                     [PVec (pt 0 0); PVec (pt 1 0)] [] 2) H1 H2)
    as (p' & A & B & _ & D & _).
  - change (_closed (after [PVec (pt 0 0); PVec (pt 1 0)] [])) with false.
    lia.
  - exists p'. split; [exact A |]. split; [exact B | exact D].
Defined.

End SubdivideExact.
